(** * array_alg.h: a shallow embedding of the sorting, selection, heap,
    merge and permutation engine, and its verification.

    Model of memory.  Every in-place operation works on one contiguous
    array, the range handed to the top-level call, modelled as a
    [list T].  Pointers into it are indices of type [Z], so that the
    pointer arithmetic of the C code ([--prev], [last - 1]) is written
    out as it is.  A read or write through a pointer outside the range
    is an out-of-range access: the operation stops there with a [Fault]
    that still carries the array contents at that point (the access
    itself leaves the range unchanged).  Loops whose trip count is not
    fixed by two pointers get a fuel argument that is large enough for
    every well-defined execution; running out of it is a separate fault.

    The comparator is [cmp : T -> T -> Z], the C [int (*cmp)(const T*,
    const T*, void*)] with its context already applied; only the sign
    of its result is ever inspected by the code. *)

From Stdlib Require Import ZArith Lia Permutation Sorting.Sorted.
From stdpp Require Import base list.

Open Scope Z_scope.

(** ** Outcomes of an in-place operation *)

Inductive fault :=
| OutOfRange (i : Z)   (** a pointer outside [first, last) was dereferenced *)
| OutOfFuel            (** a loop ran longer than any valid execution *)
| AssertFail.          (** an [assert] of the C code failed *)

Section Machine.
Context {T : Type}.

Inductive outcome (A : Type) :=
| Ok (a : A) (s : list T)
| Fault (f : fault) (s : list T).

Arguments Ok {A} a s.
Arguments Fault {A} f s.

Definition M (A : Type) := list T -> outcome A.

Definition ret {A} (a : A) : M A := fun s => Ok a s.

Definition fail {A} (f : fault) : M A := fun s => Fault f s.

Definition bind {A B} (m : M A) (k : A -> M B) : M B :=
  fun s => match m s with
           | Ok a s' => k a s'
           | Fault f s' => Fault f s'
           end.

(** [*p] *)
Definition read (i : Z) : M T := fun s =>
  if Z.ltb i 0 then Fault (OutOfRange i) s
  else match s !! Z.to_nat i with
       | Some v => Ok v s
       | None => Fault (OutOfRange i) s
       end.

(** [*p = v] *)
Definition write (i : Z) (v : T) : M unit := fun s =>
  if Z.ltb i 0 then Fault (OutOfRange i) s
  else if Nat.ltb (Z.to_nat i) (length s) then Ok tt (<[Z.to_nat i := v]> s)
  else Fault (OutOfRange i) s.

(** The final contents of the range, whatever the outcome. *)
Definition contents {A} (o : outcome A) : list T :=
  match o with Ok _ s => s | Fault _ s => s end.

Definition is_ok {A} (o : outcome A) : bool :=
  match o with Ok _ _ => true | Fault _ _ => false end.

End Machine.

Arguments Ok {T A} a s.
Arguments Fault {T A} f s.

Notation "'let*' x ':=' m 'in' k" := (bind m (fun x => k))
  (at level 200, x name, m at level 100, k at level 200).

(** ** The engine, parameterised by the element type and the comparator *)

Section Engine.
Context {T : Type} (cmp : T -> T -> Z).

Local Abbreviation M := (@M T).

(** [swap(a, b)]: [T temp = *a; *a = *b; *b = temp;] *)
Definition swap (a b : Z) : M unit :=
  let* temp := read a in
  let* vb := read b in
  let* _ := write a vb in
  write b temp.

(** The [while (first != last)] loop of [min_element]; [k] is the number
    of iterations left, [last - first]. *)
Fixpoint min_element_loop (k : nat) (best first : Z) : M Z :=
  match k with
  | O => ret best
  | S k' =>
      let* x := read first in
      let* b := read best in
      if Z.ltb (cmp x b) 0
      then min_element_loop k' first (first + 1)
      else min_element_loop k' best (first + 1)
  end.

Definition min_element (first last : Z) : M Z :=
  if Z.eqb first last then ret last
  else min_element_loop (Z.to_nat (last - (first + 1))) first (first + 1).

(** Inner loop of [_insertion_sort_unguarded]:
    [while (compare(&x, prev) < 0) { *(prev + 1) = *prev; --prev; }]
    returning the final [prev]. *)
Fixpoint shift_loop (fuel : nat) (x : T) (prev : Z) : M Z :=
  match fuel with
  | O => fail OutOfFuel
  | S fuel' =>
      let* p := read prev in
      if Z.ltb (cmp x p) 0
      then let* _ := write (prev + 1) p in shift_loop fuel' x (prev - 1)
      else ret prev
  end.

(** Outer loop, [k] iterations left ([last - first]). *)
Fixpoint insertion_loop (k : nat) (first : Z) : M unit :=
  match k with
  | O => ret tt
  | S k' =>
      let* x := read first in
      let* prev := shift_loop (S (Z.to_nat first)) x (first - 1) in
      let* _ := write (prev + 1) x in
      insertion_loop k' (first + 1)
  end.

Definition _insertion_sort_unguarded (first last : Z) : M unit :=
  if Z.eqb first last then ret tt
  else insertion_loop (Z.to_nat (last - (first + 1))) (first + 1).

(** [while (compare(first, &pivot) < 0) ++first;] *)
Fixpoint scan_up (fuel : nat) (pivot : T) (i : Z) : M Z :=
  match fuel with
  | O => fail OutOfFuel
  | S fuel' =>
      let* x := read i in
      if Z.ltb (cmp x pivot) 0 then scan_up fuel' pivot (i + 1) else ret i
  end.

(** [while (compare(&pivot, last) < 0) --last;] *)
Fixpoint scan_down (fuel : nat) (pivot : T) (j : Z) : M Z :=
  match fuel with
  | O => fail OutOfFuel
  | S fuel' =>
      let* x := read j in
      if Z.ltb (cmp pivot x) 0 then scan_down fuel' pivot (j - 1) else ret j
  end.

(** The [while (1)] loop of [_sort_partition]. *)
Fixpoint partition_loop (fuel : nat) (pivot : T) (i j : Z) : M Z :=
  match fuel with
  | O => fail OutOfFuel
  | S fuel' =>
      let* i' := scan_up (S fuel) pivot i in
      let* j' := scan_down (S fuel) pivot j in
      if Z.geb i' j' then ret (j' + 1)
      else let* _ := swap i' j' in partition_loop fuel' pivot (i' + 1) (j' - 1)
  end.

(** [_sort_partition]: Hoare partition around the middle element, copied. *)
Definition _sort_partition (first last : Z) : M Z :=
  let n := last - first in
  if Z.eqb n 0 then fail AssertFail
  else
    let* pivot := read (first + (n - 1) / 2) in
    partition_loop (S (Z.to_nat n)) pivot first (last - 1).

Definition SIZE_WHEN_INSERTION_IS_FASTER := 32.

(** [_quick_sort_early_stop]; the [while] loop re-enters the function
    with [last = p], which is the tail call the source comment names. *)
Fixpoint _quick_sort_early_stop (fuel : nat) (first last : Z) : M Z :=
  match fuel with
  | O => fail OutOfFuel
  | S fuel' =>
      if Z.gtb (last - first) SIZE_WHEN_INSERTION_IS_FASTER then
        let* p := _sort_partition first last in
        let* _ := _quick_sort_early_stop fuel' p last in
        _quick_sort_early_stop fuel' first p
      else ret last
  end.

Definition sort (first last : Z) : M unit :=
  let* min_partition :=
    _quick_sort_early_stop (S (Z.to_nat (last - first))) first last in
  let* min := min_element first min_partition in
  let* _ := swap first min in
  _insertion_sort_unguarded first last.

(** [sort] applied to a whole array [l]. *)
Definition sort_array (l : list T) : outcome unit :=
  sort 0 (Z.of_nat (length l)) l.

(** [is_sorted_until] / [is_sorted], on a list of values. *)
Fixpoint is_sorted (l : list T) : bool :=
  match l with
  | x :: ((y :: _) as rest) => if Z.gtb (cmp x y) 0 then false else is_sorted rest
  | _ => true
  end.


(** ** Copy helpers *)

(** Reads [*first .. *(last-1)] into a list of values ([k] = [last - first]). *)
Fixpoint read_range (k : nat) (first : Z) : M (list T) :=
  match k with
  | O => ret []
  | S k' => let* x := read first in
            let* xs := read_range k' (first + 1) in
            ret (x :: xs)
  end.

(** [copy] of a list of values to [out, out + length vs). *)
Fixpoint write_range (out : Z) (vs : list T) : M unit :=
  match vs with
  | [] => ret tt
  | v :: vs' => let* _ := write out v in write_range (out + 1) vs'
  end.

(** ** Merge *)

(** The [while (1)] loop of [merge] on two non-empty inputs: on
    [compare(first_1, first_2) >= 0] the element of the second input is
    output; when an input runs out the rest of the other is copied. *)
Fixpoint merge_loop (l1 : list T) : list T -> list T :=
  fix merge_loop2 (l2 : list T) : list T :=
    match l1, l2 with
    | x1 :: r1, x2 :: r2 =>
        if Z.geb (cmp x1 x2) 0
        then x2 :: (match r2 with [] => l1 | _ => merge_loop2 r2 end)
        else x1 :: (match r1 with [] => l2 | _ => merge_loop r1 l2 end)
    | [], _ => l2
    | _, [] => l1
    end.

(** [merge(first_1, last_1, first_2, last_2, out, ...)], as the list of
    values written to [out]. *)
Definition merge (l1 l2 : list T) : list T :=
  match l2 with
  | [] => l1
  | _ => match l1 with [] => l2 | _ => merge_loop l1 l2 end
  end.

(** [merge_with_buffer(first, middle, last, buffer)]: [first, middle) is
    copied to the buffer, then buffer and [middle, last) are merged into
    [first, ...).  The output cursor never passes the read cursor of the
    second input (it trails it by the number of buffered elements not yet
    output), so reading [middle, last) before writing is equivalent. *)
Definition merge_with_buffer (first middle last : Z) : M unit :=
  let* buffer := read_range (Z.to_nat (middle - first)) first in
  let* second := read_range (Z.to_nat (last - middle)) middle in
  write_range first (merge buffer second).

(** ** Stable sort *)

(** [_rotate_right_by_one]: [temp = *(last-1); memmove(first+1, first,
    ...); *first = temp;] *)
Definition _rotate_right_by_one (first last : Z) : M unit :=
  if Z.eqb first last then ret tt
  else
    let butlast := last - 1 in
    let* temp := read butlast in
    let* moved := read_range (Z.to_nat (butlast - first)) first in
    let* _ := write_range (first + 1) moved in
    write first temp.

Definition insertion_sort_stable (first last : Z) : M unit :=
  if Z.eqb first last then ret tt
  else
    let suffix := first + 1 in
    if Z.eqb suffix last then ret tt
    else
      let* min := min_element first last in
      let* _ := _rotate_right_by_one first (min + 1) in
      _insertion_sort_unguarded suffix last.

Definition SIZE_WHEN_INSERTION_IS_FASTER_STABLE := 24.

Fixpoint _merge_sort_adaptive_with_buffer_n (fuel : nat) (first count : Z) : M Z :=
  match fuel with
  | O => fail OutOfFuel
  | S fuel' =>
      if Z.ltb count 1 then ret first
      else if Z.leb count SIZE_WHEN_INSERTION_IS_FASTER_STABLE then
        let* _ := insertion_sort_stable first (first + count) in
        ret (first + count)
      else
        let half := count / 2 in
        if Z.ltb half 1 then ret (first + 1)
        else
          let* middle := _merge_sort_adaptive_with_buffer_n fuel' first half in
          let* last := _merge_sort_adaptive_with_buffer_n fuel' middle (count - half) in
          let* _ := merge_with_buffer first middle last in
          ret last
  end.

Definition stable_sort (first last : Z) : M unit :=
  let* _ := _merge_sort_adaptive_with_buffer_n (S (Z.to_nat (last - first))) first (last - first) in
  ret tt.

Definition stable_sort_array (l : list T) : outcome unit :=
  stable_sort 0 (Z.of_nat (length l)) l.

(** ** Set union *)

(** [set_union], as the list of values written to [out]; on
    [result == 0] the element of the first range is output and both
    ranges advance. *)
Fixpoint set_union (l1 : list T) : list T -> list T :=
  fix set_union2 (l2 : list T) : list T :=
    match l1, l2 with
    | [], _ => l2
    | _, [] => l1
    | x1 :: r1, x2 :: r2 =>
        let result := cmp x1 x2 in
        if Z.eqb result 0 then x1 :: set_union r1 r2
        else if Z.geb result 0 then x2 :: set_union2 r2
        else x1 :: set_union r1 l2
    end.

(** ** Heap engine *)

(** The [while (1)] loop of [is_heap_until]: each parent [half] is
    compared with its two children in turn. *)
Fixpoint is_heap_until_loop (fuel : nat) (half first last : Z) : M Z :=
  match fuel with
  | O => fail OutOfFuel
  | S fuel' =>
      if Z.eqb first last then ret first else
      let* h := read half in
      let* x := read first in
      if Z.ltb (cmp h x) 0 then ret first else
      let first := first + 1 in
      if Z.eqb first last then ret first else
      let* h := read half in
      let* x := read first in
      if Z.ltb (cmp h x) 0 then ret first else
      is_heap_until_loop fuel' (half + 1) (first + 1) last
  end.

Definition is_heap_until (first last : Z) : M Z :=
  is_heap_until_loop (S (Z.to_nat (last - first))) first (first + 1) last.

Definition is_heap (first last : Z) : M bool :=
  let* r := is_heap_until first last in ret (Z.eqb r last).

(** The [while (index != 0)] loop of [push_heap_n] (sift-up). *)
Fixpoint push_heap_loop (fuel : nat) (first index : Z) : M unit :=
  match fuel with
  | O => fail OutOfFuel
  | S fuel' =>
      if Z.eqb index 0 then ret tt else
      let parent_index := Z.shiftr (index - 1) 1 in
      let* e := read (first + index) in
      let* p := read (first + parent_index) in
      if Z.leb (cmp e p) 0 then ret tt else
      let* _ := swap (first + index) (first + parent_index) in
      push_heap_loop fuel' first parent_index
  end.

Definition push_heap_n (first count : Z) : M unit :=
  if Z.leb count 1 then ret tt
  else push_heap_loop (Z.to_nat count) first (count - 1).

(** The [while (1)] loop of [pop_heap_n] (sift-down over [count]
    elements). *)
Fixpoint pop_heap_loop (fuel : nat) (first count index : Z) : M unit :=
  match fuel with
  | O => fail OutOfFuel
  | S fuel' =>
      let elem := first + index in
      let index := index * 2 + 1 in
      if Z.geb index count then ret tt else
      let child := first + index in
      let* c := read child in
      let* e := read elem in
      let* next :=
        if Z.gtb (cmp c e) 0 then
          (* left child is larger; if right is larger use that *)
          if Z.ltb (index + 1) count then
            let* r := read (child + 1) in
            let* c := read child in
            if Z.gtb (cmp r c) 0 then ret (Some (index + 1)) else ret (Some index)
          else ret (Some index)
        else
          let index := index + 1 in
          if Z.geb index count then ret None else
          let* r := read (first + index) in
          let* e := read elem in
          if Z.leb (cmp r e) 0 then ret None else ret (Some index)
      in
      match next with
      | None => ret tt
      | Some index => let* _ := swap elem (first + index) in
                      pop_heap_loop fuel' first count index
      end
  end.

Definition pop_heap_n (first count : Z) : M unit :=
  if Z.leb count 1 then ret tt
  else
    let count := count - 1 in
    let* _ := swap first (first + count) in
    pop_heap_loop (S (Z.to_nat count)) first count 0.

Definition push_heap (first last : Z) : M unit := push_heap_n first (last - first).
Definition pop_heap (first last : Z) : M unit := pop_heap_n first (last - first).

(** [for (n = 2; n <= count; ++n) push_heap_n(first, n)], [k] iterations
    left. *)
Fixpoint make_heap_loop (k : nat) (first n : Z) : M unit :=
  match k with
  | O => ret tt
  | S k' => let* _ := push_heap_n first n in make_heap_loop k' first (n + 1)
  end.

Definition make_heap_n (first count : Z) : M unit :=
  make_heap_loop (Z.to_nat (count - 1)) first 2.

Definition make_heap (first last : Z) : M unit := make_heap_n first (last - first).

(** [while (last != first) { pop_heap(first, last); --last; }] *)
Fixpoint sort_heap_loop (k : nat) (first last : Z) : M unit :=
  match k with
  | O => ret tt
  | S k' => let* _ := pop_heap first last in sort_heap_loop k' first (last - 1)
  end.

Definition sort_heap (first last : Z) : M unit :=
  sort_heap_loop (Z.to_nat (last - first)) first last.

(** ** Partial sort *)

(** The [while (p != last)] loop of [partial_sort], [k] iterations left. *)
Fixpoint partial_sort_loop (k : nat) (first middle n p : Z) : M unit :=
  match k with
  | O => ret tt
  | S k' =>
      let* x := read p in
      let* top := read first in
      let* _ :=
        if Z.ltb (cmp x top) 0 then
          let* _ := pop_heap_n first n in
          let* _ := swap (middle - 1) p in
          push_heap_n first n
        else ret tt in
      partial_sort_loop k' first middle n (p + 1)
  end.

Definition partial_sort (first middle last : Z) : M unit :=
  let n := middle - first in
  if Z.eqb n 0 then ret tt
  else
    let* _ := make_heap_n first n in
    let* _ := partial_sort_loop (Z.to_nat (last - middle)) first middle n middle in
    sort_heap first middle.

(** ** Selection *)

Fixpoint nth_element_loop (fuel : nat) (first nth last : Z) : M unit :=
  match fuel with
  | O => fail OutOfFuel
  | S fuel' =>
      if Z.gtb (last - first) 1 then
        let* m := _sort_partition first last in
        if Z.leb m nth then nth_element_loop fuel' m nth last
        else nth_element_loop fuel' first nth m
      else if Z.eqb first nth then ret tt else fail AssertFail
  end.

Definition nth_element (first nth last : Z) : M unit :=
  nth_element_loop (S (Z.to_nat (last - first))) first nth last.

(** ** Permutations *)

(** The [while (first < last)] loop of [reverse]. *)
Fixpoint reverse_loop (fuel : nat) (first last : Z) : M unit :=
  match fuel with
  | O => fail OutOfFuel
  | S fuel' =>
      if Z.ltb first last
      then let* _ := swap first last in reverse_loop fuel' (first + 1) (last - 1)
      else ret tt
  end.

Definition reverse (first last : Z) : M unit :=
  if Z.eqb first last then ret tt
  else reverse_loop (S (Z.to_nat (last - first))) first (last - 1).

(** [while (l != first && cmp(next, l, cmp_ctx) >= 0) { l = next; --next; }],
    returning the final [l]. *)
Fixpoint suffix_loop (fuel : nat) (first l : Z) : M Z :=
  match fuel with
  | O => fail OutOfFuel
  | S fuel' =>
      if Z.eqb l first then ret l else
      let next := l - 1 in
      let* a := read next in
      let* b := read l in
      if Z.geb (cmp a b) 0 then suffix_loop fuel' first next else ret l
  end.

(** [while (f != next && cmp(next, f, cmp_ctx) >= 0) --f;] *)
Fixpoint swap_target_loop (fuel : nat) (next f : Z) : M Z :=
  match fuel with
  | O => fail OutOfFuel
  | S fuel' =>
      if Z.eqb f next then ret f else
      let* a := read next in
      let* b := read f in
      if Z.geb (cmp a b) 0 then swap_target_loop fuel' next (f - 1) else ret f
  end.

Definition next_permutation (first last : Z) : M bool :=
  if Z.eqb first last then ret false
  else
    let fuel := S (Z.to_nat (last - first)) in
    let* l := suffix_loop fuel first (last - 1) in
    if negb (Z.eqb l first) then
      let next := l - 1 in
      let* f := swap_target_loop fuel next (last - 1) in
      let* _ := swap next f in
      let* _ := reverse l last in
      ret true
    else
      let* _ := reverse first last in
      ret false.

(** ** Partition point *)

Section Predicate.
Variable pred : T -> bool.

Fixpoint partition_point_loop (fuel : nat) (first n : Z) : M Z :=
  match fuel with
  | O => fail OutOfFuel
  | S fuel' =>
      if Z.eqb n 0 then ret first else
      let half := Z.shiftr n 1 in
      let middle := first + half in
      let* x := read middle in
      if pred x then partition_point_loop fuel' (middle + 1) (n - (half + 1))
      else partition_point_loop fuel' first half
  end.

Definition partition_point_n (first n : Z) : M Z :=
  partition_point_loop (S (Z.to_nat n)) first n.

Definition partition_point (first last : Z) : M Z :=
  partition_point_n first (last - first).

End Predicate.

(** ** Binary search *)

(** [_lower_bound_predicate]: [compare(x, value) < 0]. *)
Definition _lower_bound_predicate (value x : T) : bool := Z.ltb (cmp x value) 0.

Definition lower_bound (first last : Z) (value : T) : M Z :=
  partition_point (_lower_bound_predicate value) first last.

(** [_upper_bound_predicate]: [compare(value, x) >= 0]. *)
Definition _upper_bound_predicate (value x : T) : bool := Z.geb (cmp value x) 0.

Definition upper_bound (first last : Z) (value : T) : M Z :=
  partition_point (_upper_bound_predicate value) first last.

(** [(first != last) && cmp(first, value) == 0] after [lower_bound]. *)
Definition binary_search (first last : Z) (value : T) : M bool :=
  let* first := lower_bound first last value in
  if negb (Z.eqb first last) then
    let* x := read first in ret (Z.eqb (cmp x value) 0)
  else ret false.

(** The pair of results stored to [lower] and [upper]. *)
Definition equal_range (first last : Z) (value : T) : M (Z * Z) :=
  let* lower := lower_bound first last value in
  let* upper := upper_bound lower last value in
  ret (lower, upper).

(** ** Minimum and maximum *)

(** The [while (first != last)] loop of [max_element]; [k] iterations left. *)
Fixpoint max_element_loop (k : nat) (best first : Z) : M Z :=
  match k with
  | O => ret best
  | S k' =>
      let* x := read first in
      let* b := read best in
      if Z.gtb (cmp x b) 0
      then max_element_loop k' first (first + 1)
      else max_element_loop k' best (first + 1)
  end.

Definition max_element (first last : Z) : M Z :=
  if Z.eqb first last then ret first
  else max_element_loop (Z.to_nat (last - (first + 1))) first (first + 1).

(** The pair loop of [minmax_element], run while
    [first != last && first + 1 != last]; it returns the final [first]
    with [min_p] and [max_p]. *)
Fixpoint minmax_element_loop (fuel : nat) (first last min_p max_p : Z) : M (Z * Z * Z) :=
  match fuel with
  | O => fail OutOfFuel
  | S fuel' =>
      if negb (Z.eqb first last) && negb (Z.eqb (first + 1) last) then
        let* y := read (first + 1) in
        let* x := read first in
        let '(potential_min, potential_max) :=
          if Z.ltb (cmp y x) 0 then (first + 1, first) else (first, first + 1) in
        let* pmin := read potential_min in
        let* m := read min_p in
        let min_p := if Z.ltb (cmp pmin m) 0 then potential_min else min_p in
        let* pmax := read potential_max in
        let* mx := read max_p in
        let max_p := if Z.geb (cmp pmax mx) 0 then potential_max else max_p in
        minmax_element_loop fuel' (first + 2) last min_p max_p
      else ret (first, min_p, max_p)
  end.

(** [minmax_element]: [None] when the range is empty and [*out_min],
    [*out_max] are left unwritten, else [Some] of the pair of
    positions stored to them. *)
Definition minmax_element (first last : Z) : M (option (Z * Z)) :=
  if Z.eqb first last then ret None else
  let min_p := first in
  let first := first + 1 in
  if Z.eqb first last then ret (Some (min_p, min_p)) else
  let max_p := first in
  let* a := read max_p in
  let* b := read min_p in
  let '(min_p, max_p) := if Z.ltb (cmp a b) 0 then (max_p, min_p) else (min_p, max_p) in
  let first := first + 1 in
  let* r := minmax_element_loop (S (Z.to_nat (last - first))) first last min_p max_p in
  let '(first, min_p, max_p) := r in
  if negb (Z.eqb first last) then
    let* x := read first in
    let* m := read min_p in
    if Z.ltb (cmp x m) 0 then ret (Some (first, max_p))
    else let* mx := read max_p in
         if Z.geb (cmp x mx) 0 then ret (Some (min_p, first)) else ret (Some (min_p, max_p))
  else ret (Some (min_p, max_p)).

(** ** Removing consecutive duplicates *)

(** The [while (first != last)] loop of [unique]:
    [if (cmp(out, first) != 0) { ++out; *out = *first; } ++first;] *)
Fixpoint unique_loop (k : nat) (out first : Z) : M Z :=
  match k with
  | O => ret out
  | S k' =>
      let* o := read out in
      let* x := read first in
      if negb (Z.eqb (cmp o x) 0)
      then let out := out + 1 in
           let* v := read first in
           let* _ := write out v in
           unique_loop k' out (first + 1)
      else unique_loop k' out (first + 1)
  end.

Definition unique (first last : Z) : M Z :=
  if Z.eqb first last then ret first else
  let* out := unique_loop (Z.to_nat (last - (first + 1))) first (first + 1) in
  ret (out + 1).

(** The loop of [unique_count]; [group] points at the first element of
    the current run of equivalent elements. *)
Fixpoint unique_count_loop (k : nat) (group first count : Z) : M Z :=
  match k with
  | O => ret count
  | S k' =>
      let* g := read group in
      let* x := read first in
      if negb (Z.eqb (cmp g x) 0)
      then unique_count_loop k' first (first + 1) (count + 1)
      else unique_count_loop k' group (first + 1) count
  end.

Definition unique_count (first last : Z) : M Z :=
  if Z.eqb first last then ret 0
  else unique_count_loop (Z.to_nat (last - (first + 1))) first (first + 1) 1.

(** [unique_copy], as the list of values written to [out]: [*out = *first]
    first, then the loop runs over the whole range, the first element
    included, comparing each element with the last one written. *)
Fixpoint unique_copy_loop (o : T) (l : list T) : list T :=
  match l with
  | [] => []
  | x :: r => if negb (Z.eqb (cmp o x) 0) then x :: unique_copy_loop x r else unique_copy_loop o r
  end.

Definition unique_copy (l : list T) : list T :=
  match l with
  | [] => []
  | x0 :: _ => x0 :: unique_copy_loop x0 l
  end.

(** ** Random shuffle *)

Section Random.
(** The values [rand()] returns, in the order of the calls. *)
Variable rand : nat -> N.

(** [ARRAY_ALG_RANDOM(_n)] = [rand() % (_n)] at the [k]-th call. *)
Definition ARRAY_ALG_RANDOM (k : nat) (n : Z) : Z := Z.of_N (rand k) mod n.

(** [while (n > 1) { j = ARRAY_ALG_RANDOM(n); --n; swap(first + n, first + j); }] *)
Fixpoint random_shuffle_n_loop (fuel : nat) (k : nat) (first n : Z) : M unit :=
  match fuel with
  | O => ret tt
  | S fuel' =>
      if Z.ltb 1 n then
        let j := ARRAY_ALG_RANDOM k n in
        let n' := n - 1 in
        let* _ := swap (first + n') (first + j) in
        random_shuffle_n_loop fuel' (S k) first n'
      else ret tt
  end.

Definition random_shuffle_n (first n : Z) : M unit :=
  random_shuffle_n_loop (Z.to_nat n) 0 first n.

Definition random_shuffle (first last : Z) : M unit := random_shuffle_n first (last - first).

(** [sample], on the values of the read-only input range, writing to the
    array [out] (the state).  The first loop copies up to [count]
    elements; it returns [inl i] for the early [return out + i] and
    otherwise the rest of the input. *)
Fixpoint sample_fill (k : nat) (i : Z) (l : list T) : M (Z + list T) :=
  match k with
  | O => ret (inr l)
  | S k' =>
      match l with
      | [] => ret (inl i)
      | x :: r => let* _ := write i x in sample_fill k' (i + 1) r
      end
  end.

(** The second loop, [range] starting at [count + 1]; [c] numbers the
    calls of [rand()]. *)
Fixpoint sample_reservoir (c : nat) (range count : Z) (l : list T) : M unit :=
  match l with
  | [] => ret tt
  | x :: r =>
      let j := ARRAY_ALG_RANDOM c range in
      if Z.ltb j count then let* _ := write j x in sample_reservoir (S c) (range + 1) count r
      else sample_reservoir (S c) (range + 1) count r
  end.

Definition sample (l : list T) (count : Z) : M Z :=
  let* res := sample_fill (Z.to_nat count) 0 l in
  match res with
  | inl i => ret i
  | inr rest =>
      let* _ := sample_reservoir 0 (count + 1) count rest in
      ret count
  end.
End Random.

(** ** Comparing two ranges *)

(** [lexicographical_compare] on the values of the two read-only ranges. *)
Fixpoint lexicographical_compare (l1 l2 : list T) : Z :=
  match l1, l2 with
  | [], [] => 0
  | [], _ :: _ => -1
  | _ :: _, [] => 1
  | x1 :: r1, x2 :: r2 =>
      let result := cmp x1 x2 in
      if negb (Z.eqb result 0) then result else lexicographical_compare r1 r2
  end.

(** [equal] on the values of [first_1, last_1) and of the range from
    [first_2]; [None] when the loop would read past the end of the
    second range. *)
Fixpoint equal (l1 l2 : list T) : option bool :=
  match l1, l2 with
  | [], _ => Some true
  | _ :: _, [] => None
  | x1 :: r1, x2 :: r2 =>
      let result := cmp x1 x2 in
      if negb (Z.eqb result 0) then Some false else equal r1 r2
  end.

(** ** Sorted-range set operations *)

(** [set_includes]: the [while] loop over the super range; [sub] is
    advanced on [result == 0] and the super range always advances. *)
Fixpoint set_includes_loop (sub super : list T) {struct super} : bool :=
  match sub, super with
  | [], _ => true
  | _, [] => false
  | x :: r, y :: s =>
      let result := cmp x y in
      if Z.ltb result 0 then false
      else if Z.eqb result 0 then set_includes_loop r s
      else set_includes_loop sub s
  end.

Definition set_includes (sub super : list T) : bool :=
  match sub with
  | [] => true
  | _ => set_includes_loop sub super
  end.

(** The [while (1)] loop of [set_difference], as the list of values
    written to [out]; a second range running out copies the rest of the
    first.  The [out != first_1] guard only skips a write of the value
    already in place, so it does not change the written values. *)
Fixpoint set_difference_loop (l1 : list T) : list T -> list T :=
  fix set_difference_loop2 (l2 : list T) : list T :=
    match l1, l2 with
    | [], _ => []
    | _, [] => l1
    | x1 :: r1, x2 :: r2 =>
        let result := cmp x1 x2 in
        if Z.eqb result 0 then set_difference_loop r1 r2
        else if Z.ltb result 0 then x1 :: set_difference_loop r1 l2
        else set_difference_loop2 r2
    end.

Definition set_difference (l1 l2 : list T) : list T :=
  match l1, l2 with
  | [], _ => []
  | _, [] => []
  | _, _ => set_difference_loop l1 l2
  end.

(** [set_intersection], as the list of values written to [out]. *)
Fixpoint set_intersection_loop (l1 : list T) : list T -> list T :=
  fix set_intersection_loop2 (l2 : list T) : list T :=
    match l1, l2 with
    | [], _ => []
    | _, [] => []
    | x1 :: r1, x2 :: r2 =>
        let result := cmp x1 x2 in
        if Z.eqb result 0 then x1 :: set_intersection_loop r1 r2
        else if Z.ltb result 0 then set_intersection_loop r1 l2
        else set_intersection_loop2 r2
    end.

Definition set_intersection (l1 l2 : list T) : list T :=
  match l1, l2 with
  | [], _ => []
  | _, [] => []
  | _, _ => set_intersection_loop l1 l2
  end.

(** ** Predicate scans and compaction *)

Section PredicateScans.
Variable pred : T -> bool.

(** [find_if]: [while (first != last) { if (predicate(first)) break; ++first; }];
    [k] is the number of iterations left, [last - first]. *)
Fixpoint find_if_loop (k : nat) (first : Z) : M Z :=
  match k with
  | O => ret first
  | S k' => let* x := read first in
            if pred x then ret first else find_if_loop k' (first + 1)
  end.

Definition find_if (first last : Z) : M Z := find_if_loop (Z.to_nat (last - first)) first.

(** [find_if_not]: the same loop, stopping on [!predicate(first)]. *)
Fixpoint find_if_not_loop (k : nat) (first : Z) : M Z :=
  match k with
  | O => ret first
  | S k' => let* x := read first in
            if negb (pred x) then ret first else find_if_not_loop k' (first + 1)
  end.

Definition find_if_not (first last : Z) : M Z := find_if_not_loop (Z.to_nat (last - first)) first.

Definition is_partitioned (first last : Z) : M bool :=
  let* first := find_if_not first last in
  let* first := find_if first last in
  ret (Z.eqb first last).

(** The [while (first != last)] loop of [partition]: an element that
    satisfies the predicate is swapped to [out], which then advances. *)
Fixpoint partition_swap_loop (k : nat) (out first : Z) : M Z :=
  match k with
  | O => ret out
  | S k' => let* x := read first in
            if pred x
            then let* _ := swap out first in partition_swap_loop k' (out + 1) (first + 1)
            else partition_swap_loop k' out (first + 1)
  end.

Definition partition (first last : Z) : M Z :=
  partition_swap_loop (Z.to_nat (last - first)) first first.

(** The [while (first != last)] loop of [remove_if]:
    [if (!pred(first)) { *out = *first; ++out; } ++first;] *)
Fixpoint remove_if_loop (k : nat) (out first : Z) : M Z :=
  match k with
  | O => ret out
  | S k' => let* x := read first in
            if negb (pred x)
            then let* v := read first in let* _ := write out v in
                 remove_if_loop k' (out + 1) (first + 1)
            else remove_if_loop k' out (first + 1)
  end.

Definition remove_if (first last : Z) : M Z :=
  if Z.eqb first last then ret first
  else remove_if_loop (Z.to_nat (last - first)) first first.

(** The loop of [remove_if_not], keeping the elements with [pred(first)]. *)
Fixpoint remove_if_not_loop (k : nat) (out first : Z) : M Z :=
  match k with
  | O => ret out
  | S k' => let* x := read first in
            if pred x
            then let* v := read first in let* _ := write out v in
                 remove_if_not_loop k' (out + 1) (first + 1)
            else remove_if_not_loop k' out (first + 1)
  end.

Definition remove_if_not (first last : Z) : M Z :=
  if Z.eqb first last then ret first
  else remove_if_not_loop (Z.to_nat (last - first)) first first.

End PredicateScans.

(** ** Sortedness checks *)

(** The [while (next != last)] loop of [is_sorted_until]. *)
Fixpoint is_sorted_until_loop (fuel : nat) (prev next last : Z) : M Z :=
  match fuel with
  | O => fail OutOfFuel
  | S fuel' =>
      if Z.eqb next last then ret last else
      let* p := read prev in
      let* x := read next in
      if Z.gtb (cmp p x) 0 then ret next
      else is_sorted_until_loop fuel' next (next + 1) last
  end.

Definition is_sorted_until (first last : Z) : M Z :=
  if negb (Z.eqb first last)
  then is_sorted_until_loop (S (Z.to_nat (last - first))) first (first + 1) last
  else ret last.

(** [is_sorted]: [is_sorted_until(first, last) == last]. *)
Definition is_sorted_range (first last : Z) : M bool :=
  let* r := is_sorted_until first last in ret (Z.eqb r last).

(** The [while (next != last)] loop of [is_strictly_increasing_until]. *)
Fixpoint is_strictly_increasing_until_loop (fuel : nat) (prev next last : Z) : M Z :=
  match fuel with
  | O => fail OutOfFuel
  | S fuel' =>
      if Z.eqb next last then ret last else
      let* p := read prev in
      let* x := read next in
      if Z.geb (cmp p x) 0 then ret next
      else is_strictly_increasing_until_loop fuel' next (next + 1) last
  end.

Definition is_strictly_increasing_until (first last : Z) : M Z :=
  if negb (Z.eqb first last)
  then is_strictly_increasing_until_loop (S (Z.to_nat (last - first))) first (first + 1) last
  else ret last.

Definition is_strictly_increasing (first last : Z) : M bool :=
  let* r := is_strictly_increasing_until first last in ret (Z.eqb r last).

(** ** Insertion sort *)

Definition insertion_sort (first last : Z) : M unit :=
  if Z.eqb first last then ret tt
  else
    let suffix := first + 1 in
    if Z.eqb suffix last then ret tt
    else
      let* min := min_element first last in
      let* _ := swap first min in
      _insertion_sort_unguarded suffix last.

End Engine.

(** ** Specification-level notions *)

(** The comparator contract of the spec: a consistent three-way result
    (the sign of [cmp b a] is the opposite of that of [cmp a b]) and a
    transitive "not greater" relation; together a strict weak ordering
    for [cmp a b < 0]. *)
Record strict_weak_order {T} (cmp : T -> T -> Z) : Prop := {
  swo_antisym : forall a b, Z.sgn (cmp b a) = - Z.sgn (cmp a b);
  swo_trans : forall a b c, cmp a b <= 0 -> cmp b c <= 0 -> cmp a c <= 0
}.

(** The max-heap property over the active range [0, n), as
    [is_heap_until] checks it: no parent compares less than its child. *)
Definition heap_prop {T} (cmp : T -> T -> Z) (a : list T) (n : Z) : Prop :=
  forall i p c, 1 <= i < n ->
    a !! Z.to_nat ((i - 1) / 2) = Some p -> a !! Z.to_nat i = Some c -> 0 <= cmp p c.

(** A client of the heap engine: a sequence of [push_heap] and [pop_heap]
    calls on the active range [first, first + n) with [first] the start
    of the array.  A push first extends the active range by the slot
    after it (where the caller has stored the new element), a pop shrinks
    it by one after the call. *)
Inductive heap_op := HPush | HPop.

Fixpoint run_heap_ops {T} (cmp : T -> T -> Z) (ops : list heap_op) (n : Z) : M (T:=T) Z :=
  match ops with
  | [] => ret n
  | HPush :: ops' => let* _ := push_heap cmp 0 (n + 1) in run_heap_ops cmp ops' (n + 1)
  | HPop :: ops' => let* _ := pop_heap cmp 0 n in run_heap_ops cmp ops' (n - 1)
  end.

(** The calls are made on the caller's side of the contract: a push only
    when a slot is free after the active range, a pop only on a non-empty
    active range. *)
Fixpoint heap_ops_valid (ops : list heap_op) (n len : Z) : Prop :=
  match ops with
  | [] => True
  | HPush :: ops' => n + 1 <= len /\ heap_ops_valid ops' (n + 1) len
  | HPop :: ops' => 1 <= n /\ heap_ops_valid ops' (n - 1) len
  end.

(** Loop invariant of the sift-up in [push_heap_n]: the range [0, n) is
    a heap except between [idx] and its parent, and the parent of [idx]
    is not below the children of [idx]. *)
Definition sift_up_inv {T} (cmp : T -> T -> Z) (a : list T) (n idx : Z) : Prop :=
  (forall i p c, 1 <= i < n -> i <> idx ->
     a !! Z.to_nat ((i - 1) / 2) = Some p -> a !! Z.to_nat i = Some c -> 0 <= cmp p c) /\
  (forall i g c, 1 <= i < n -> (i - 1) / 2 = idx -> 0 < idx ->
     a !! Z.to_nat ((idx - 1) / 2) = Some g -> a !! Z.to_nat i = Some c -> 0 <= cmp g c).

(** Loop invariant of the sift-down in [pop_heap_n]: the range [0, m) is
    a heap except between [idx] and its children, and the parent of
    [idx] is not below the children of [idx]. *)
Definition sift_down_inv {T} (cmp : T -> T -> Z) (a : list T) (m idx : Z) : Prop :=
  (forall i p c, 1 <= i < m -> (i - 1) / 2 <> idx ->
     a !! Z.to_nat ((i - 1) / 2) = Some p -> a !! Z.to_nat i = Some c -> 0 <= cmp p c) /\
  (forall i g c, 1 <= i < m -> (i - 1) / 2 = idx -> 0 < idx ->
     a !! Z.to_nat ((idx - 1) / 2) = Some g -> a !! Z.to_nat i = Some c -> 0 <= cmp g c).

(** [a'] differs from [a] only inside [first, last), and every element
    found there in [a'] was already somewhere in [first, last) in [a]. *)
Definition seg_from {T} (a a' : list T) (first last : Z) : Prop :=
  length a' = length a /\
  (forall k, 0 <= k -> k < first \/ last <= k -> a' !! Z.to_nat k = a !! Z.to_nat k) /\
  (forall k x, first <= k < last -> a' !! Z.to_nat k = Some x ->
     exists k', first <= k' < last /\ a !! Z.to_nat k' = Some x).

(** The states visited by [k] successive calls of [next_permutation] over
    the whole range, starting from [a]: the loop of the test driver. *)
Fixpoint np_states {T} (cmp : T -> T -> Z) (k : nat) (a : list T) : list (list T) :=
  match k with
  | O => []
  | S k' =>
      a :: match next_permutation cmp 0 (Z.of_nat (length a)) a with
           | Ok _ a' => np_states cmp k' a'
           | Fault _ _ => []
           end
  end.

(** Strict lexicographic order under [cmp]. *)
Fixpoint lex_lt {T} (cmp : T -> T -> Z) (a b : list T) : Prop :=
  match a, b with
  | [], _ :: _ => True
  | x :: a', y :: b' => cmp x y < 0 \/ (cmp x y = 0 /\ lex_lt cmp a' b')
  | _, _ => False
  end.

(** Position of [a] in the lexicographic order of its rearrangements:
    each element counts the later elements below it, weighted by the
    number of orders of the elements after it. *)
Fixpoint lex_rank {T} (cmp : T -> T -> Z) (a : list T) : nat :=
  match a with
  | [] => O
  | x :: r =>
      (length (List.filter (fun z => Z.ltb (cmp z x) 0) r) * fact (length r) + lex_rank cmp r)%nat
  end.

(** No two elements of [a] are equivalent under [cmp]. *)
Definition cmp_distinct {T} (cmp : T -> T -> Z) (a : list T) : Prop :=
  NoDup a /\ forall x y, x ∈ a -> y ∈ a -> cmp x y = 0 -> x = y.

(** Integer comparison, [*a - *b] (no overflow in [Z]). *)
Definition cmp_int (a b : Z) : Z := a - b.

(** Pairs compared on their first component only; the second one is a
    tag the comparator does not see. *)
Definition cmp_key (a b : Z * Z) : Z := fst a - fst b.

(** 25 elements with equal keys, tagged with their original positions. *)
Definition tagged_25 : list (Z * Z) := map (fun n => (0, Z.of_nat n)) (seq 0 25).

(** A non-decreasing sample with a repeated value. *)
Definition sorted_sample : list Z := [1; 3; 3; 5; 8].

(** [i] is the position of the first minimum of [a] over [first, last):
    no element there compares below it, and every element before it
    compares above it. *)
Definition first_min {T} (cmp : T -> T -> Z) (a : list T) (first last i : Z) : Prop :=
  first <= i < last /\
  forall t x y, first <= t < last -> a !! Z.to_nat i = Some x -> a !! Z.to_nat t = Some y ->
    cmp x y <= 0 /\ (t < i -> cmp x y < 0).

(** [i] is the position of the first maximum of [a] over [first, last). *)
Definition first_max {T} (cmp : T -> T -> Z) (a : list T) (first last i : Z) : Prop :=
  first <= i < last /\
  forall t x y, first <= t < last -> a !! Z.to_nat i = Some x -> a !! Z.to_nat t = Some y ->
    0 <= cmp x y /\ (t < i -> 0 < cmp x y).

(** [i] is the position of the last maximum of [a] over [first, last):
    no element there compares above it, and every element after it
    compares below it. *)
Definition last_max {T} (cmp : T -> T -> Z) (a : list T) (first last i : Z) : Prop :=
  first <= i < last /\
  forall t x y, first <= t < last -> a !! Z.to_nat i = Some x -> a !! Z.to_nat t = Some y ->
    0 <= cmp x y /\ (i < t -> 0 < cmp x y).

(** The elements [unique] keeps after a kept element [o]: each element
    of [r] not equivalent to the last element kept before it. *)
Fixpoint unique_from {T} (cmp : T -> T -> Z) (o : T) (r : list T) : list T :=
  match r with
  | [] => []
  | x :: r' => if negb (Z.eqb (cmp o x) 0) then x :: unique_from cmp x r' else unique_from cmp o r'
  end.

(** Whether [x] is equivalent (compares 0) to some element of [l]. *)
Definition mem_eqv {T} (cmp : T -> T -> Z) (l : list T) (x : T) : bool :=
  existsb (fun y => Z.eqb (cmp x y) 0) l.

(** * Proofs *)

(** ** The memory model *)

Section MachineFacts.
Context {T : Type}.

Lemma bind_Ok {A B} (m : M A) (k : A -> M B) (s s' : list T) a :
  m s = Ok a s' -> bind m k s = k a s'.
Proof. unfold bind. intros ->. reflexivity. Qed.

Lemma bind_Fault {A B} (m : M A) (k : A -> M B) (s s' : list T) f :
  m s = Fault f s' -> bind m k s = Fault f s'.
Proof. unfold bind. intros ->. reflexivity. Qed.

Lemma read_Ok (s : list T) i v :
  0 <= i -> s !! Z.to_nat i = Some v -> read i s = Ok v s.
Proof.
  intros Hi Hv. unfold read. destruct (Z.ltb_spec i 0); [lia|]. by rewrite Hv.
Qed.

Lemma write_Ok (s : list T) i v :
  0 <= i -> (Z.to_nat i < length s)%nat ->
  write i v s = Ok tt (<[Z.to_nat i := v]> s).
Proof.
  intros Hi Hl. unfold write. destruct (Z.ltb_spec i 0); [lia|].
  destruct (Nat.ltb_spec (Z.to_nat i) (length s)); [done|lia].
Qed.

(** An operation that keeps the multiset of the range, in every outcome. *)
Definition perm_pres {A} (m : M A) : Prop :=
  forall s : list T, contents (m s) ≡ₚ s.

Lemma perm_ret {A} (a : A) : perm_pres (ret a).
Proof. intros s. reflexivity. Qed.

Lemma perm_fail {A} f : perm_pres (A:=A) (fail f).
Proof. intros s. reflexivity. Qed.

Lemma perm_read i : perm_pres (read i).
Proof.
  intros s. unfold read. destruct (Z.ltb i 0); [done|].
  destruct (s !! Z.to_nat i); done.
Qed.

Lemma perm_bind {A B} (m : M A) (k : A -> M B) :
  perm_pres m -> (forall a, perm_pres (k a)) -> perm_pres (bind m k).
Proof.
  intros Hm Hk s. specialize (Hm s). unfold bind.
  destruct (m s) as [a s'|f s']; simpl in *; [|done].
  by rewrite Hk.
Qed.

End MachineFacts.

Section EngineFacts.
Context {T : Type} (cmp : T -> T -> Z).

Lemma perm_swap a b : perm_pres (T:=T) (swap a b).
Proof.
  intros s. unfold swap, bind, read, write.
  destruct (Z.ltb_spec a 0); [done|].
  destruct (s !! Z.to_nat a) as [va|] eqn:Ha; [|done].
  destruct (Z.ltb_spec b 0); [done|].
  destruct (s !! Z.to_nat b) as [vb|] eqn:Hb; [|done].
  destruct (Nat.ltb_spec (Z.to_nat a) (length s)); [|done].
  rewrite length_insert.
  destruct (Nat.ltb_spec (Z.to_nat b) (length s)).
  - simpl. by apply Permutation_insert_swap.
  - apply lookup_lt_Some in Hb. lia.
Qed.

Ltac perm_step :=
  first
  [ apply perm_ret | apply perm_fail | apply perm_read | apply perm_swap
  | apply perm_bind; [| intros ?; cbv beta]
  | match goal with
    | |- perm_pres (if ?b then _ else _) => destruct b
    | |- perm_pres (match ?x with _ => _ end) => destruct x
    end
  | assumption
  | match goal with H : forall _, perm_pres _ |- _ => apply H end ].

Ltac perm_solve := repeat perm_step.

Lemma perm_push_heap_loop fuel first index :
  perm_pres (push_heap_loop cmp fuel first index).
Proof.
  revert index. induction fuel; intros index; simpl; perm_solve.
Qed.

Lemma perm_push_heap_n first count : perm_pres (push_heap_n cmp first count).
Proof. unfold push_heap_n. perm_solve. apply perm_push_heap_loop. Qed.

Lemma perm_pop_heap_loop fuel first count index :
  perm_pres (pop_heap_loop cmp fuel first count index).
Proof.
  revert index. induction fuel; intros index; simpl; perm_solve.
Qed.

Lemma perm_pop_heap_n first count : perm_pres (pop_heap_n cmp first count).
Proof. unfold pop_heap_n. perm_solve. apply perm_pop_heap_loop. Qed.

Lemma perm_make_heap_loop k first n : perm_pres (make_heap_loop cmp k first n).
Proof.
  revert n. induction k as [|k IH]; intros n; simpl; perm_solve. apply perm_push_heap_n.
Qed.

Lemma perm_make_heap_n first count : perm_pres (make_heap_n cmp first count).
Proof. apply perm_make_heap_loop. Qed.

Lemma perm_sort_heap_loop k first last : perm_pres (sort_heap_loop cmp k first last).
Proof.
  revert last. induction k as [|k IH]; intros last; simpl; perm_solve. apply perm_pop_heap_n.
Qed.

Lemma perm_sort_heap first last : perm_pres (sort_heap cmp first last).
Proof. apply perm_sort_heap_loop. Qed.

Lemma perm_partial_sort_loop k first middle n p :
  perm_pres (partial_sort_loop cmp k first middle n p).
Proof.
  revert p. induction k; intros p; simpl; perm_solve;
    first [apply perm_pop_heap_n | apply perm_push_heap_n].
Qed.

Lemma perm_scan_up fuel v i : perm_pres (scan_up cmp fuel v i).
Proof. revert i. induction fuel; intros i; simpl; perm_solve. Qed.

Lemma perm_scan_down fuel v j : perm_pres (scan_down cmp fuel v j).
Proof. revert j. induction fuel; intros j; simpl; perm_solve. Qed.

Lemma perm_partition_loop fuel v i j : perm_pres (partition_loop cmp fuel v i j).
Proof.
  revert i j. induction fuel as [|fuel IH]; intros i j; cbn [partition_loop]; [apply perm_fail|].
  apply perm_bind; [apply perm_scan_up|intros i'].
  apply perm_bind; [apply perm_scan_down|intros j'].
  destruct (i' >=? j'); [apply perm_ret|].
  apply perm_bind; [apply perm_swap|intros _; apply IH].
Qed.

Lemma perm_sort_partition first last : perm_pres (_sort_partition cmp first last).
Proof.
  unfold _sort_partition. destruct (last - first =? 0); [apply perm_fail|].
  apply perm_bind; [apply perm_read|intros v; apply perm_partition_loop].
Qed.

Lemma perm_quick_sort fuel first last : perm_pres (_quick_sort_early_stop cmp fuel first last).
Proof.
  revert first last. induction fuel as [|fuel IH]; intros first last; cbn [_quick_sort_early_stop]; [apply perm_fail|].
  destruct (last - first >? SIZE_WHEN_INSERTION_IS_FASTER); [|apply perm_ret].
  apply perm_bind; [apply perm_sort_partition|intros p].
  apply perm_bind; [apply IH|intros _; apply IH].
Qed.

Lemma perm_min_element_loop k best f : perm_pres (min_element_loop cmp k best f).
Proof.
  revert best f. induction k as [|k IH]; intros best f; cbn [min_element_loop]; [apply perm_ret|].
  apply perm_bind; [apply perm_read|intros x]. apply perm_bind; [apply perm_read|intros b].
  destruct (cmp x b <? 0); apply IH.
Qed.

Lemma perm_min_element first last : perm_pres (min_element cmp first last).
Proof.
  unfold min_element. destruct (first =? last); [apply perm_ret|apply perm_min_element_loop].
Qed.

Lemma perm_nth_element_loop fuel first nth last :
  perm_pres (nth_element_loop cmp fuel first nth last).
Proof.
  revert first last. induction fuel as [|fuel IH]; intros first last;
    cbn [nth_element_loop]; [apply perm_fail|].
  destruct (last - first >? 1).
  - apply perm_bind; [apply perm_sort_partition|intros m].
    destruct (m <=? nth); apply IH.
  - destruct (first =? nth); [apply perm_ret|apply perm_fail].
Qed.

End EngineFacts.

(** ** C10: partial_sort keeps the multiset of the whole range *)

(** C10: [partial_sort(first, middle, last)] leaves in the range a
    permutation of its original contents: every mutation it performs
    (through make_heap_n, pop_heap_n, push_heap_n, sort_heap and the
    eviction swap) exchanges two slots, so nothing is lost or duplicated,
    in the sorted window or in the tail.  This holds for every comparator
    and every [first <= middle <= last] inside the array. *)
Theorem partial_sort_permutation {T} (cmp : T -> T -> Z) (l : list T) (first middle last : Z) :
  contents (partial_sort cmp first middle last l) ≡ₚ l.
Proof.
  unfold partial_sort. destruct (Z.eqb _ _); [reflexivity|].
  apply perm_bind; [apply perm_make_heap_n|intros _].
  apply perm_bind; [apply perm_partial_sort_loop|intros _].
  apply perm_sort_heap.
Qed.

(** ** Comparator facts *)

Section Order.
Context {T : Type} (cmp : T -> T -> Z) (Hc : strict_weak_order cmp).

Definition le (a b : T) : Prop := cmp a b <= 0.

Lemma cmp_refl a : cmp a a = 0.
Proof.
  pose proof (swo_antisym _ Hc a a) as H.
  destruct (Z.sgn_spec (cmp a a)) as [[? E]|[[? E]|[? E]]]; rewrite E in H; lia.
Qed.

Lemma cmp_flip_le a b : 0 <= cmp a b -> cmp b a <= 0.
Proof.
  intros H. pose proof (swo_antisym _ Hc a b) as E.
  destruct (Z.sgn_spec (cmp a b)) as [[? E1]|[[? E1]|[? E1]]];
  destruct (Z.sgn_spec (cmp b a)) as [[? E2]|[[? E2]|[? E2]]]; lia.
Qed.

Lemma cmp_flip_lt a b : cmp a b < 0 -> 0 < cmp b a.
Proof.
  intros H. pose proof (swo_antisym _ Hc a b) as E.
  destruct (Z.sgn_spec (cmp a b)) as [[? E1]|[[? E1]|[? E1]]];
  destruct (Z.sgn_spec (cmp b a)) as [[? E2]|[[? E2]|[? E2]]]; lia.
Qed.

Lemma cmp_flip_eq a b : cmp a b = 0 -> cmp b a = 0.
Proof.
  intros H. pose proof (swo_antisym _ Hc a b) as E.
  destruct (Z.sgn_spec (cmp a b)) as [[? E1]|[[? E1]|[? E1]]];
  destruct (Z.sgn_spec (cmp b a)) as [[? E2]|[[? E2]|[? E2]]]; lia.
Qed.

Lemma le_total a b : le a b \/ le b a.
Proof.
  unfold le. destruct (Z.le_gt_cases (cmp a b) 0); [auto|].
  right. apply cmp_flip_le. lia.
Qed.

Lemma le_trans' a b c : le a b -> le b c -> le a c.
Proof. apply (swo_trans _ Hc). Qed.

Lemma le_lt_trans a b c : le a b -> cmp b c < 0 -> cmp a c < 0.
Proof.
  unfold le. intros H1 H2. destruct (Z.lt_ge_cases (cmp a c) 0); [done|].
  pose proof (cmp_flip_le _ _ H) as H3.
  pose proof (swo_trans _ Hc _ _ _ H3 H1). apply cmp_flip_lt in H2. lia.
Qed.

Lemma lt_le_trans a b c : cmp a b < 0 -> le b c -> cmp a c < 0.
Proof.
  unfold le. intros H1 H2. destruct (Z.lt_ge_cases (cmp a c) 0); [done|].
  pose proof (cmp_flip_le _ _ H) as H3.
  pose proof (swo_trans _ Hc _ _ _ H2 H3). apply cmp_flip_lt in H1. lia.
Qed.

Lemma is_sorted_Sorted l : is_sorted cmp l = true <-> Sorted le l.
Proof.
  induction l as [|x l IH]; simpl.
  - split; auto.
  - destruct l as [|y l'].
    + split; auto.
    + destruct (Z.gtb_spec (cmp x y) 0).
      * split; [done|]. intros HS. inversion HS as [|? ? HS' Hhd]; subst.
        inversion Hhd; subst. unfold le in *. lia.
      * rewrite IH. split.
        -- intros HS. constructor; [done|]. constructor. unfold le. lia.
        -- intros HS. by inversion HS.
Qed.

End Order.

(** ** Merge *)

Section MergeFacts.
Context {T : Type} (cmp : T -> T -> Z).

Lemma merge_loop_nil_r l1 : merge_loop cmp l1 [] = l1.
Proof. by destruct l1. Qed.

Lemma merge_loop_nil_l l2 : merge_loop cmp [] l2 = l2.
Proof. by destruct l2. Qed.

Lemma merge_loop_cons x1 r1 x2 r2 :
  merge_loop cmp (x1 :: r1) (x2 :: r2) =
  if Z.geb (cmp x1 x2) 0 then x2 :: merge_loop cmp (x1 :: r1) r2
  else x1 :: merge_loop cmp r1 (x2 :: r2).
Proof.
  simpl. destruct (Z.geb _ _).
  - by destruct r2.
  - by destruct r1.
Qed.

Lemma merge_merge_loop l1 l2 : merge cmp l1 l2 = merge_loop cmp l1 l2.
Proof. destruct l1, l2; reflexivity. Qed.

Lemma merge_loop_perm l1 l2 : merge_loop cmp l1 l2 ≡ₚ l1 ++ l2.
Proof.
  revert l2. induction l1 as [|x1 r1 IH1]; intros l2.
  - by destruct l2.
  - induction l2 as [|x2 r2 IH2].
    + rewrite merge_loop_nil_r. by rewrite app_nil_r.
    + rewrite merge_loop_cons. destruct (Z.geb _ _).
      * rewrite IH2. by rewrite Permutation_middle.
      * simpl. by rewrite IH1.
Qed.

Context (Hc : strict_weak_order cmp).

Lemma merge_loop_HdRel a l1 l2 :
  HdRel (le cmp) a l1 -> HdRel (le cmp) a l2 -> HdRel (le cmp) a (merge_loop cmp l1 l2).
Proof.
  intros H1 H2. destruct l1 as [|x1 r1]; [by rewrite merge_loop_nil_l|].
  destruct l2 as [|x2 r2]; [by rewrite merge_loop_nil_r|].
  rewrite merge_loop_cons. inversion H1; inversion H2; subst.
  destruct (Z.geb _ _); by constructor.
Qed.

Lemma merge_loop_sorted l1 l2 :
  Sorted (le cmp) l1 -> Sorted (le cmp) l2 -> Sorted (le cmp) (merge_loop cmp l1 l2).
Proof.
  revert l2. induction l1 as [|x1 r1 IH1]; intros l2 S1 S2.
  - by rewrite merge_loop_nil_l.
  - induction l2 as [|x2 r2 IH2].
    + by rewrite merge_loop_nil_r.
    + rewrite merge_loop_cons.
      apply Sorted_inv in S1 as [S1 H1]. apply Sorted_inv in S2 as [S2 H2].
      destruct (Z.geb_spec (cmp x1 x2) 0).
      * constructor; [apply IH2; auto|].
        apply merge_loop_HdRel; [|done]. constructor. by apply (cmp_flip_le cmp Hc).
      * constructor; [apply IH1; auto|].
        apply merge_loop_HdRel; [done|]. constructor. unfold le. lia.
Qed.

End MergeFacts.

(** ** C5: merge is sorted and a permutation of the concatenation *)

(** C5: for a strict weak ordering, merging two inputs that are
    non-decreasing ([is_sorted]) gives a non-decreasing output that is a
    permutation of the concatenation of the inputs; and
    [merge([1,1,3,4], [-1,1,2,3,4,5])] under integer comparison is
    [[-1,1,1,1,2,3,3,4,4,5]]. *)
Theorem merge_sorted_permutation {T} (cmp : T -> T -> Z) (Hc : strict_weak_order cmp)
    (l1 l2 : list T) (H1 : is_sorted cmp l1 = true) (H2 : is_sorted cmp l2 = true) :
  is_sorted cmp (merge cmp l1 l2) = true /\ merge cmp l1 l2 ≡ₚ l1 ++ l2 /\
  merge cmp_int [1; 1; 3; 4] [-1; 1; 2; 3; 4; 5] = [-1; 1; 1; 1; 2; 3; 3; 4; 4; 5].
Proof.
  rewrite merge_merge_loop. split; [|split].
  - apply (is_sorted_Sorted cmp).
    apply (merge_loop_sorted cmp Hc); by apply (is_sorted_Sorted cmp).
  - apply merge_loop_perm.
  - reflexivity.
Qed.

Lemma cmp_int_swo : strict_weak_order cmp_int.
Proof.
  split; unfold cmp_int; intros.
  - rewrite <- Z.sgn_opp. f_equal. lia.
  - lia.
Qed.

Lemma cmp_key_swo : strict_weak_order cmp_key.
Proof.
  split; unfold cmp_key; intros.
  - rewrite <- Z.sgn_opp. f_equal. lia.
  - lia.
Qed.

Lemma merge_sorted_permutation_witness :
  is_sorted cmp_int (merge cmp_int [1; 1; 3; 4] [-1; 1; 2; 3; 4; 5]) = true /\
  merge cmp_int [1; 1; 3; 4] [-1; 1; 2; 3; 4; 5] ≡ₚ [1; 1; 3; 4] ++ [-1; 1; 2; 3; 4; 5].
Proof.
  destruct (merge_sorted_permutation cmp_int cmp_int_swo [1; 1; 3; 4] [-1; 1; 2; 3; 4; 5]
              eq_refl eq_refl) as [A [B _]].
  split; [exact A | exact B].
Defined.

(** ** C3: the tie rule of set_union *)

(** C3 (counterexample): with pairs compared on their first component,
    the heads [(1,0)] and [(1,1)] compare equal, yet the element
    [set_union] outputs at that position is the first range's [(1,0)],
    not the second range's [(1,1)]. *)
Lemma set_union_tie_counterexample :
  cmp_key (1, 0) (1, 1) = 0 /\
  head (set_union cmp_key [(1, 0)] [(1, 1)]) = Some (1, 0) /\
  head (set_union cmp_key [(1, 0)] [(1, 1)]) <> Some (1, 1).
Proof. split; [reflexivity|split; [reflexivity|discriminate]]. Qed.

(** C3 (amended): when the heads of the two ranges compare equal,
    [set_union] outputs the element of the FIRST range and advances past
    both heads. *)
Theorem set_union_tie_first {T} (cmp : T -> T -> Z) (x1 x2 : T) (r1 r2 : list T)
    (Heq : cmp x1 x2 = 0) :
  set_union cmp (x1 :: r1) (x2 :: r2) = x1 :: set_union cmp r1 r2.
Proof. simpl. by rewrite Heq. Qed.

Lemma set_union_tie_first_witness :
  cmp_key (1, 0) (1, 1) = 0 /\
  set_union cmp_key [(1, 0); (3, 0)] [(1, 1); (2, 1)] = (1, 0) :: set_union cmp_key [(3, 0)] [(2, 1)].
Proof. split; [reflexivity | apply set_union_tie_first; reflexivity]. Defined.

(** ** C2: stable_sort does not keep the order of equal elements *)

(** C2 (code bug): 25 elements with equal keys, tagged 0..24.  The
    comparator is a strict weak ordering, yet [stable_sort] returns the
    elements tagged 12..24 (the second half) before those tagged 0..11:
    [merge] outputs the second input's element on a tie, and
    [merge_with_buffer] passes the first half as the first input. *)
Theorem stable_sort_reorders_equal_keys :
  strict_weak_order cmp_key /\
  stable_sort_array cmp_key tagged_25 =
    Ok tt (map (fun n => (0, Z.of_nat n)) (seq 12 13 ++ seq 0 12)).
Proof. split; [apply cmp_key_swo | vm_compute; reflexivity]. Qed.

(** ** C4: the empty range *)

(** C4 (code bug): on an empty range, [sort] dereferences [first]: its
    [swap(first, min)] runs with [min == first == last] (the first access
    is at index 0 of an empty range), and [is_heap_until] steps [first]
    past [last] before its [first == last] test and then reads
    [*half].  The range itself is left unchanged. *)
Theorem empty_range_out_of_range {T} (cmp : T -> T -> Z) :
  sort_array cmp [] = Fault (OutOfRange 0) [] /\
  is_heap cmp 0 0 [] = Fault (OutOfRange 0) [].
Proof. split; reflexivity. Qed.

(** ** C9: partition_point never leaves the range *)

Section PartitionPoint.
Context {T : Type} (pred : T -> bool) (l : list T).

Lemma lookup_in_range (i : Z) :
  0 <= i -> i < Z.of_nat (length l) -> exists x, l !! Z.to_nat i = Some x.
Proof. intros. apply lookup_lt_is_Some_2. lia. Qed.

Lemma partition_point_loop_spec fuel f n :
  0 <= f -> 0 <= n -> f + n <= Z.of_nat (length l) -> (Z.to_nat n < fuel)%nat ->
  exists p, partition_point_loop pred fuel f n l = Ok p l /\ f <= p <= f + n /\
    forall k, f <= k <= f + n ->
      (forall i x, f <= i < k -> l !! Z.to_nat i = Some x -> pred x = true) ->
      (forall i x, k <= i < f + n -> l !! Z.to_nat i = Some x -> pred x = false) ->
      p = k.
Proof.
  revert f n. induction fuel as [|fuel IH]; intros f n Hf Hn Hlen Hfuel; [lia|].
  simpl. destruct (Z.eqb_spec n 0) as [->|Hn0].
  - exists f. split; [done|]. split; [lia|]. intros k Hk _ _. lia.
  - rewrite Z.shiftr_div_pow2 by lia. change (2 ^ 1) with 2.
    assert (0 <= n / 2 < n) by (split; [apply Z.div_pos | apply Z.div_lt]; lia).
    destruct (lookup_in_range (f + n / 2)) as [x Hx]; [lia|lia|].
    rewrite (bind_Ok _ _ _ _ x) by (apply read_Ok; [lia|done]).
    destruct (pred x) eqn:Hp.
    + destruct (IH (f + n / 2 + 1) (n - (n / 2 + 1))) as (p & Hrun & Hp1 & Hp2); [lia..|].
      exists p. split; [done|]. split; [lia|].
      intros k Hk Ht Hf'. apply Hp2.
      * destruct (Z.le_gt_cases k (f + n / 2)); [|lia].
        rewrite (Hf' (f + n / 2) x) in Hp; [discriminate|lia|done].
      * intros i y Hi Hy. apply (Ht i y); [lia|done].
      * intros i y Hi Hy. apply (Hf' i y); [lia|done].
    + destruct (IH f (n / 2)) as (p & Hrun & Hp1 & Hp2); [lia..|].
      exists p. split; [done|]. split; [lia|].
      intros k Hk Ht Hf'. apply Hp2.
      * destruct (Z.le_gt_cases k (f + n / 2)); [lia|].
        rewrite (Ht (f + n / 2) x) in Hp; [discriminate|lia|done].
      * intros i y Hi Hy. apply (Ht i y); [lia|done].
      * intros i y Hi Hy. apply (Hf' i y); [lia|done].
Qed.

End PartitionPoint.

(** C9: for every predicate (monotone or not) and every range
    [first, last) of the array, [partition_point] returns normally,
    without out-of-range access, a position [p] with
    [first <= p <= last]; and when the predicate is true exactly on
    [first, k) and false on [k, last), [p] is that boundary [k]. *)
Theorem partition_point_in_range {T} (pred : T -> bool) (l : list T) (first last : Z)
    (Hfirst : 0 <= first) (Hle : first <= last) (Hlast : last <= Z.of_nat (length l)) :
  exists p, partition_point pred first last l = Ok p l /\ first <= p <= last /\
    forall k, first <= k <= last ->
      (forall i x, first <= i < k -> l !! Z.to_nat i = Some x -> pred x = true) ->
      (forall i x, k <= i < last -> l !! Z.to_nat i = Some x -> pred x = false) ->
      p = k.
Proof.
  unfold partition_point, partition_point_n.
  destruct (partition_point_loop_spec pred l (S (Z.to_nat (last - first))) first (last - first))
    as (p & H1 & H2 & H3); [lia..|].
  exists p. split; [done|]. split; [lia|].
  intros k Hk Ht Hf. apply H3; [lia|done|].
  intros i x Hi. apply Hf. lia.
Qed.

(** The predicate [x < 5] is not monotone on [[7; 1; 9; 3]]: the result
    is still inside the range. *)
Lemma partition_point_in_range_witness :
  exists p, partition_point (fun x => Z.ltb x 5) 0 4 [7; 1; 9; 3] = Ok p [7; 1; 9; 3] /\ 0 <= p <= 4.
Proof.
  destruct (partition_point_in_range (fun x => Z.ltb x 5) [7; 1; 9; 3] 0 4) as (p & H1 & H2 & _);
    [lia | lia | simpl; lia |].
  exists p. split; [exact H1 | exact H2].
Defined.

(** ** Swaps in range *)

Section SwapFacts.
Context {T : Type}.

Lemma swap_Ok (s : list T) i j vi vj :
  0 <= i -> 0 <= j -> s !! Z.to_nat i = Some vi -> s !! Z.to_nat j = Some vj ->
  swap i j s = Ok tt (<[Z.to_nat j := vi]> (<[Z.to_nat i := vj]> s)).
Proof.
  intros Hi Hj Hvi Hvj. unfold swap.
  rewrite (bind_Ok _ _ _ _ vi) by (by apply read_Ok).
  rewrite (bind_Ok _ _ _ _ vj) by (by apply read_Ok).
  pose proof (lookup_lt_Some _ _ _ Hvi). pose proof (lookup_lt_Some _ _ _ Hvj).
  rewrite (bind_Ok _ _ _ _ tt) by (by apply write_Ok).
  apply write_Ok; [done|]. rewrite length_insert. done.
Qed.

Lemma lookup_swap (s : list T) i j k vi vj :
  0 <= i -> 0 <= j -> 0 <= k -> s !! Z.to_nat i = Some vi -> s !! Z.to_nat j = Some vj ->
  <[Z.to_nat j := vi]> (<[Z.to_nat i := vj]> s) !! Z.to_nat k =
    if Z.eqb k j then Some vi else if Z.eqb k i then Some vj else s !! Z.to_nat k.
Proof.
  intros Hi Hj Hk Hvi Hvj.
  pose proof (lookup_lt_Some _ _ _ Hvi). pose proof (lookup_lt_Some _ _ _ Hvj).
  destruct (Z.eqb_spec k j) as [->|Hkj].
  - apply list_lookup_insert_eq. rewrite length_insert. done.
  - rewrite list_lookup_insert_ne by lia.
    destruct (Z.eqb_spec k i) as [->|Hki].
    + by apply list_lookup_insert_eq.
    + rewrite list_lookup_insert_ne by lia. done.
Qed.

Lemma length_swap (s : list T) i j vi vj :
  length (<[Z.to_nat j := vi]> (<[Z.to_nat i := vj]> s)) = length s.
Proof. by rewrite !length_insert. Qed.

End SwapFacts.

(** ** The heap engine *)

Section HeapFacts.
Context {T : Type} (cmp : T -> T -> Z) (Hc : strict_weak_order cmp).

Lemma ge_of_le a b : cmp a b <= 0 -> 0 <= cmp b a.
Proof.
  intros H. pose proof (swo_antisym _ Hc a b) as E.
  destruct (Z.sgn_spec (cmp a b)) as [[? E1]|[[? E1]|[? E1]]];
  destruct (Z.sgn_spec (cmp b a)) as [[? E2]|[[? E2]|[? E2]]]; lia.
Qed.

Lemma ge_trans a b c : 0 <= cmp a b -> 0 <= cmp b c -> 0 <= cmp a c.
Proof.
  intros H1 H2. apply ge_of_le.
  apply (swo_trans _ Hc _ b); by apply (cmp_flip_le cmp Hc).
Qed.

Lemma gt_ge_trans a b c : 0 < cmp a b -> 0 <= cmp b c -> 0 < cmp a c.
Proof.
  intros H1 H2. destruct (Z.lt_ge_cases 0 (cmp a c)); [done|].
  exfalso. pose proof (ge_of_le _ _ H) as H3.
  pose proof (ge_trans _ _ _ H2 H3) as H4. apply (cmp_flip_le cmp Hc) in H4.
  pose proof (swo_antisym _ Hc a b) as E.
  destruct (Z.sgn_spec (cmp a b)) as [[? E1]|[[? E1]|[? E1]]];
  destruct (Z.sgn_spec (cmp b a)) as [[? E2]|[[? E2]|[? E2]]]; lia.
Qed.

Lemma parent_bounds i : 1 <= i -> 0 <= (i - 1) / 2 < i.
Proof. intros. split; [apply Z.div_pos|apply Z.div_lt_upper_bound]; lia. Qed.

Lemma parent_of_child h : 0 <= h -> (2 * h + 1 - 1) / 2 = h /\ (2 * h + 1 + 1 - 1) / 2 = h.
Proof. intros. split; symmetry; [apply Z.div_unique with 0 | apply Z.div_unique with 1]; lia. Qed.

(** *** is_heap *)

Lemma is_heap_until_loop_heap fuel a n h f :
  heap_prop cmp a n -> n <= Z.of_nat (length a) -> 0 <= h -> f = 2 * h + 1 -> f <= n ->
  (Z.to_nat (n - f) < fuel)%nat ->
  is_heap_until_loop cmp fuel h f n a = Ok n a.
Proof.
  revert h f. induction fuel as [|fuel IH]; intros h f Hh Hlen H0 -> Hf Hfuel; [lia|].
  simpl. destruct (Z.eqb_spec (2 * h + 1) n) as [<-|Hn]; [done|].
  destruct (lookup_lt_is_Some_2 a (Z.to_nat h)) as [vh Hvh]; [lia|].
  destruct (lookup_lt_is_Some_2 a (Z.to_nat (2 * h + 1))) as [v1 Hv1]; [lia|].
  rewrite (bind_Ok _ _ _ _ vh) by (apply read_Ok; [lia|done]).
  rewrite (bind_Ok _ _ _ _ v1) by (apply read_Ok; [lia|done]).
  assert (0 <= cmp vh v1).
  { apply (Hh (2 * h + 1)); [lia| |done].
    by rewrite (proj1 (parent_of_child h H0)). }
  destruct (Z.ltb_spec (cmp vh v1) 0); [lia|].
  destruct (Z.eqb_spec (2 * h + 1 + 1) n) as [<-|Hn']; [done|].
  destruct (lookup_lt_is_Some_2 a (Z.to_nat (2 * h + 1 + 1))) as [v2 Hv2]; [lia|].
  rewrite (bind_Ok _ _ _ _ vh) by (apply read_Ok; [lia|done]).
  rewrite (bind_Ok _ _ _ _ v2) by (apply read_Ok; [lia|done]).
  assert (0 <= cmp vh v2).
  { apply (Hh (2 * h + 1 + 1)); [lia| |done].
    by rewrite (proj2 (parent_of_child h H0)). }
  destruct (Z.ltb_spec (cmp vh v2) 0); [lia|].
  apply IH; [done|done|lia|lia|lia|lia].
Qed.

Lemma is_heap_true a n :
  1 <= n -> n <= Z.of_nat (length a) -> heap_prop cmp a n -> is_heap cmp 0 n a = Ok true a.
Proof.
  intros Hn Hlen Hh. unfold is_heap, is_heap_until.
  rewrite (bind_Ok _ _ a a n).
  - by rewrite Z.eqb_refl.
  - apply is_heap_until_loop_heap; [done|done|lia|lia|lia|lia].
Qed.

(** *** is_heap, conversely *)

Lemma bind_read_inv {A} i (k : T -> M A) s r s' :
  bind (read i) k s = Ok r s' ->
  exists v, 0 <= i /\ s !! Z.to_nat i = Some v /\ k v s = Ok r s'.
Proof.
  unfold bind, read. intros Hk. destruct (Z.ltb_spec i 0); [discriminate|].
  destruct (s !! Z.to_nat i) as [v|] eqn:E; [|discriminate]. by exists v.
Qed.

Lemma is_heap_until_loop_inv fuel a n h f s :
  0 <= h -> f = 2 * h + 1 -> f <= n ->
  is_heap_until_loop cmp fuel h f n a = Ok n s ->
  forall i p c, f <= i < n -> a !! Z.to_nat ((i - 1) / 2) = Some p -> a !! Z.to_nat i = Some c ->
  0 <= cmp p c.
Proof.
  revert h f. induction fuel as [|fuel IH]; intros h f H0 -> Hf Hrun i p c Hi Hp Hc'; [done|].
  cbn [is_heap_until_loop] in Hrun.
  destruct (Z.eqb_spec (2 * h + 1) n) as [<-|Hn]; [lia|].
  apply bind_read_inv in Hrun as (vh & _ & Hvh & Hrun).
  apply bind_read_inv in Hrun as (v1 & _ & Hv1 & Hrun).
  destruct (Z.ltb_spec (cmp vh v1) 0) as [Hlt|Hge1]; [injection Hrun; lia|].
  destruct (parent_of_child h H0) as [Hp1 Hp2].
  destruct (Z.eqb_spec (2 * h + 1 + 1) n) as [Hn'|Hn'].
  { assert (i = 2 * h + 1) as -> by lia. rewrite Hp1, Hvh in Hp. simplify_eq. lia. }
  apply bind_read_inv in Hrun as (vh' & _ & Hvh' & Hrun).
  apply bind_read_inv in Hrun as (v2 & _ & Hv2 & Hrun).
  rewrite Hvh in Hvh'. injection Hvh' as <-.
  destruct (Z.ltb_spec (cmp vh v2) 0) as [Hlt|Hge2]; [injection Hrun; lia|].
  destruct (Z.eqb_spec i (2 * h + 1)) as [->|Hi1].
  { rewrite Hp1, Hvh in Hp. simplify_eq. lia. }
  destruct (Z.eqb_spec i (2 * h + 1 + 1)) as [->|Hi2].
  { rewrite Hp2, Hvh in Hp. simplify_eq. lia. }
  apply (IH (h + 1) (2 * h + 1 + 1 + 1) ltac:(lia) ltac:(lia) ltac:(lia) Hrun i p c); [lia|done|done].
Qed.

Lemma is_heap_true_inv a n s :
  1 <= n -> is_heap cmp 0 n a = Ok true s -> heap_prop cmp a n.
Proof.
  intros Hn H. unfold is_heap, is_heap_until, bind in H.
  destruct (is_heap_until_loop cmp _ 0 (0 + 1) n a) as [r s'|] eqn:E; [|done].
  unfold ret in H. injection H as Hr _. apply Z.eqb_eq in Hr. subst r.
  intros i p c Hi. eapply (is_heap_until_loop_inv _ a n 0 (0 + 1) s'); [lia|lia|lia|exact E|lia].
Qed.

(** *** push_heap: sift-up *)

Lemma push_heap_loop_spec fuel a n idx :
  0 <= idx < n -> n <= Z.of_nat (length a) -> (Z.to_nat idx < fuel)%nat ->
  sift_up_inv cmp a n idx ->
  exists a', push_heap_loop cmp fuel 0 idx a = Ok tt a' /\ heap_prop cmp a' n /\
             length a' = length a.
Proof.
  revert a idx. induction fuel as [|fuel IH]; intros a idx Hidx Hlen Hfuel [Inv1 Inv2]; [lia|].
  simpl. destruct (Z.eqb_spec idx 0) as [->|Hi0].
  { exists a. split; [done|]. split; [|done].
    intros i p c Hi Hp Hc'. apply (Inv1 i); [lia|lia|done|done]. }
  rewrite Z.shiftr_div_pow2 by lia. change (2 ^ 1) with 2.
  set (p := (idx - 1) / 2).
  pose proof (parent_bounds idx ltac:(lia)) as Hp.
  destruct (lookup_lt_is_Some_2 a (Z.to_nat idx)) as [e He]; [lia|].
  destruct (lookup_lt_is_Some_2 a (Z.to_nat p)) as [pv Hpv]; [lia|].
  rewrite (bind_Ok _ _ _ _ e) by (apply read_Ok; [lia|done]).
  rewrite (bind_Ok _ _ _ _ pv) by (apply read_Ok; [lia|done]).
  destruct (Z.leb_spec (cmp e pv) 0) as [Hle|Hgt].
  { exists a. split; [done|]. split; [|done].
    intros i q c Hi Hq Hc'. destruct (Z.eqb_spec i idx) as [->|Hne].
    - rewrite He in Hc'. fold p in Hq. rewrite Hpv in Hq. simplify_eq.
      by apply ge_of_le.
    - by apply (Inv1 i). }
  set (b := <[Z.to_nat p := e]> (<[Z.to_nat idx := pv]> a)).
  assert (Hb : forall k, 0 <= k -> b !! Z.to_nat k =
            if Z.eqb k p then Some e else if Z.eqb k idx then Some pv else a !! Z.to_nat k).
  { intros k Hk. apply lookup_swap; lia || done. }
  rewrite (bind_Ok _ _ _ b tt) by (apply swap_Ok; [lia|lia|done|done]).
  destruct (IH b p) as (a' & Hrun & Hheap & Hl); [lia|unfold b; rewrite length_swap; lia|lia| |].
  - split.
    + intros i q c Hi Hip Hq Hc'. pose proof (parent_bounds i ltac:(lia)).
      rewrite Hb in Hq, Hc' by lia.
      destruct (Z.eqb_spec i p); [lia|].
      destruct (Z.eqb_spec i idx) as [->|Hiidx].
      * fold p in Hq. rewrite Z.eqb_refl in Hq. simplify_eq. lia.
      * destruct (Z.eqb_spec ((i - 1) / 2) p) as [Hpar|Hpar].
        -- simplify_eq. apply Z.lt_le_incl, (gt_ge_trans _ pv); [lia|]. apply (Inv1 i); [lia|done| |done].
           by rewrite Hpar.
        -- destruct (Z.eqb_spec ((i - 1) / 2) idx) as [Hpar'|Hpar'].
           ++ simplify_eq. apply (Inv2 i); [lia|done|lia|done|done].
           ++ by apply (Inv1 i).
    + intros i g c Hi Hpar Hp0 Hg Hc'.
      pose proof (parent_bounds p ltac:(lia)).
      rewrite Hb in Hg by lia. destruct (Z.eqb_spec ((p - 1) / 2) p); [lia|].
      destruct (Z.eqb_spec ((p - 1) / 2) idx); [lia|].
      assert (Hgp : 0 <= cmp g pv) by (apply (Inv1 p); [lia|lia|done|done]).
      rewrite Hb in Hc' by lia. destruct (Z.eqb_spec i p); [subst i; lia|].
      destruct (Z.eqb_spec i idx) as [->|Hne].
      * by simplify_eq.
      * apply (ge_trans _ pv); [done|]. apply (Inv1 i); [lia|done| |done]. by rewrite Hpar.
  - exists a'. split; [done|]. split; [done|]. rewrite Hl. unfold b. by rewrite length_swap.
Qed.

Lemma push_heap_n_spec a n :
  1 <= n -> n <= Z.of_nat (length a) -> heap_prop cmp a (n - 1) ->
  exists a', push_heap_n cmp 0 n a = Ok tt a' /\ heap_prop cmp a' n /\ length a' = length a.
Proof.
  intros Hn Hlen Hh. unfold push_heap_n. destruct (Z.leb_spec n 1).
  - exists a. split; [done|]. split; [|done]. intros i. lia.
  - apply push_heap_loop_spec; [lia|lia|lia|]. split.
    + intros i p c Hi Hne. apply Hh. lia.
    + intros i g c Hi Hpar. pose proof (parent_bounds i ltac:(lia)). lia.
Qed.

(** *** pop_heap: sift-down *)

Lemma child_range i idx : (i - 1) / 2 = idx -> 2 * idx + 1 <= i <= 2 * idx + 2.
Proof.
  intros <-. pose proof (Z.div_mod (i - 1) 2 ltac:(lia)).
  pose proof (Z.mod_pos_bound (i - 1) 2 ltac:(lia)). lia.
Qed.

Lemma sift_down_done a m idx e :
  a !! Z.to_nat idx = Some e ->
  (forall k vk, 1 <= k < m -> (k - 1) / 2 = idx -> a !! Z.to_nat k = Some vk -> 0 <= cmp e vk) ->
  sift_down_inv cmp a m idx -> heap_prop cmp a m.
Proof.
  intros He Hch [Inv1 _] i p c Hi Hp Hc'.
  destruct (Z.eqb_spec ((i - 1) / 2) idx) as [Hpi|Hpi].
  - rewrite Hpi, He in Hp. simplify_eq. by apply (Hch i).
  - by apply (Inv1 i).
Qed.

Lemma sift_down_step a m idx j e vj :
  0 <= idx -> (j - 1) / 2 = idx -> 1 <= j < m ->
  a !! Z.to_nat idx = Some e -> a !! Z.to_nat j = Some vj -> 0 < cmp vj e ->
  (forall k vk, 1 <= k < m -> (k - 1) / 2 = idx -> a !! Z.to_nat k = Some vk -> 0 <= cmp vj vk) ->
  sift_down_inv cmp a m idx ->
  sift_down_inv cmp (<[Z.to_nat j := e]> (<[Z.to_nat idx := vj]> a)) m j.
Proof.
  intros H0 Hj Hjm He Hvj Hgt Hsib [Inv1 Inv2].
  pose proof (child_range j idx Hj).
  assert (Hb : forall k, 0 <= k -> <[Z.to_nat j := e]> (<[Z.to_nat idx := vj]> a) !! Z.to_nat k =
            if Z.eqb k j then Some e else if Z.eqb k idx then Some vj else a !! Z.to_nat k).
  { intros k Hk. apply lookup_swap; lia || done. }
  split.
  - intros i p c Hi Hpi Hp Hc'. pose proof (parent_bounds i ltac:(lia)).
    rewrite Hb in Hp, Hc' by lia.
    destruct (Z.eqb_spec i j) as [->|Hij].
    + rewrite Hj, Z.eqb_refl in Hp. destruct (Z.eqb_spec idx j); [lia|]. simplify_eq. lia.
    + destruct (Z.eqb_spec i idx) as [->|Hiidx].
      * destruct (Z.eqb_spec ((idx - 1) / 2) j); [lia|].
        destruct (Z.eqb_spec ((idx - 1) / 2) idx); [lia|]. simplify_eq.
        apply (Inv2 j); [lia|done|lia|done|done].
      * destruct (Z.eqb_spec ((i - 1) / 2) j); [done|].
        destruct (Z.eqb_spec ((i - 1) / 2) idx) as [Hpar|Hpar].
        -- simplify_eq. by apply (Hsib i).
        -- by apply (Inv1 i).
  - intros i g c Hi Hpar Hj0 Hg Hc'. pose proof (child_range i j Hpar).
    rewrite Hj, Hb in Hg by lia. destruct (Z.eqb_spec idx j); [lia|].
    rewrite Z.eqb_refl in Hg. rewrite Hb in Hc' by lia.
    destruct (Z.eqb_spec i j); [lia|]. destruct (Z.eqb_spec i idx); [lia|].
    simplify_eq. apply (Inv1 i); [lia|lia| |done]. done.
Qed.

Ltac read_step v := rewrite (bind_Ok _ _ _ _ v) by (apply read_Ok; [lia|done]).

Lemma pop_heap_loop_spec fuel a m idx :
  0 <= idx -> m <= Z.of_nat (length a) -> (Z.to_nat (m - idx) < fuel)%nat ->
  sift_down_inv cmp a m idx ->
  exists a', pop_heap_loop cmp fuel 0 m idx a = Ok tt a' /\ heap_prop cmp a' m /\
             length a' = length a.
Proof.
  revert a idx. induction fuel as [|fuel IH]; intros a idx H0 Hlen Hfuel Inv; [lia|].
  cbn [pop_heap_loop]. rewrite !Z.add_0_l. destruct (Z.geb_spec (idx * 2 + 1) m) as [Hge|Hlt].
  { exists a. split; [done|]. split; [|done]. destruct Inv as [Inv1 _].
    intros i p c Hi Hp Hc'. apply (Inv1 i); [lia| |done|done].
    intros Hpi. pose proof (child_range i idx Hpi). lia. }
  destruct (lookup_lt_is_Some_2 a (Z.to_nat idx)) as [e He]; [lia|].
  destruct (lookup_lt_is_Some_2 a (Z.to_nat (idx * 2 + 1))) as [vc Hvc]; [lia|].
  read_step vc. read_step e.
  (* the two children of [idx] *)
  assert (Hkids : forall k vk, 1 <= k < m -> (k - 1) / 2 = idx -> a !! Z.to_nat k = Some vk ->
                  k = idx * 2 + 1 /\ vk = vc \/ k = idx * 2 + 1 + 1 /\ idx * 2 + 1 + 1 < m /\
                  a !! Z.to_nat (idx * 2 + 1 + 1) = Some vk).
  { intros k vk Hk Hpk Hvk. pose proof (child_range k idx Hpk).
    destruct (Z.eqb_spec k (idx * 2 + 1)) as [->|]; [left; split; [done|congruence]|].
    right. assert (k = idx * 2 + 1 + 1) as -> by lia. split; [done|split; [lia|done]]. }
  assert (Hstep : forall j vj, (j - 1) / 2 = idx -> 1 <= j < m -> a !! Z.to_nat j = Some vj ->
            0 < cmp vj e ->
            (forall k vk, 1 <= k < m -> (k - 1) / 2 = idx -> a !! Z.to_nat k = Some vk ->
               0 <= cmp vj vk) ->
            exists a', (let* _ := swap idx j in pop_heap_loop cmp fuel 0 m j) a = Ok tt a' /\
                       heap_prop cmp a' m /\ length a' = length a).
  { intros j vj Hj Hjm Hvj Hgt Hsib.
    rewrite (bind_Ok _ _ _ (<[Z.to_nat j := e]> (<[Z.to_nat idx := vj]> a)) tt)
      by (apply swap_Ok; [lia|lia|done|done]).
    destruct (IH (<[Z.to_nat j := e]> (<[Z.to_nat idx := vj]> a)) j) as (a' & Hrun & Hh & Hl).
    - lia.
    - rewrite length_swap. lia.
    - pose proof (child_range j idx Hj). lia.
    - by apply (sift_down_step _ _ _ _ e vj).
    - exists a'. split; [done|]. split; [done|]. by rewrite Hl, length_swap. }
  assert (Hdone : (forall k vk, 1 <= k < m -> (k - 1) / 2 = idx -> a !! Z.to_nat k = Some vk ->
                     0 <= cmp e vk) ->
                  exists a', ret tt a = Ok tt a' /\ heap_prop cmp a' m /\ length a' = length a).
  { intros Hch. exists a. split; [done|]. split; [|done]. by apply (sift_down_done _ _ idx e). }
  assert (Hpl : (idx * 2 + 1 - 1) / 2 = idx) by (symmetry; apply Z.div_unique with 0; lia).
  assert (Hpr : (idx * 2 + 1 + 1 - 1) / 2 = idx) by (symmetry; apply Z.div_unique with 1; lia).
  destruct (Z.gtb_spec (cmp vc e) 0) as [Hce|Hce].
  - destruct (Z.ltb_spec (idx * 2 + 1 + 1) m) as [Hr|Hr].
    + destruct (lookup_lt_is_Some_2 a (Z.to_nat (idx * 2 + 1 + 1))) as [vr Hvr]; [lia|].
      destruct (Z.gtb_spec (cmp vr vc) 0) as [Hrc|Hrc].
      * rewrite (bind_Ok _ _ a a (Some (idx * 2 + 1 + 1))) by (read_step vr; read_step vc; destruct (Z.gtb_spec (cmp vr vc) 0); first [done|lia]).
        apply (Hstep _ vr); [done|lia|done|..].
        -- by apply (gt_ge_trans _ vc); [|lia].
        -- intros k vk Hk Hpk Hvk.
           destruct (Hkids k vk Hk Hpk Hvk) as [[-> ->]|(-> & _ & Hv)]; [lia|].
           rewrite Hvr in Hv. simplify_eq. rewrite cmp_refl; [lia|done].
      * rewrite (bind_Ok _ _ a a (Some (idx * 2 + 1))) by (read_step vr; read_step vc; destruct (Z.gtb_spec (cmp vr vc) 0); first [done|lia]).
        apply (Hstep _ vc); [done|lia|done|done|].
        intros k vk Hk Hpk Hvk.
        destruct (Hkids k vk Hk Hpk Hvk) as [[-> ->]|(-> & _ & Hv)].
        -- rewrite cmp_refl; [lia|done].
        -- rewrite Hvr in Hv. simplify_eq. by apply ge_of_le.
    + rewrite (bind_Ok _ _ a a (Some (idx * 2 + 1))) by done.
      apply (Hstep _ vc); [done|lia|done|done|].
      intros k vk Hk Hpk Hvk.
      destruct (Hkids k vk Hk Hpk Hvk) as [[-> ->]|(-> & ? & _)]; [|lia].
      rewrite cmp_refl; [lia|done].
  - destruct (Z.geb_spec (idx * 2 + 1 + 1) m) as [Hr|Hr].
    + rewrite (bind_Ok _ _ a a None) by done. apply Hdone.
      intros k vk Hk Hpk Hvk.
      destruct (Hkids k vk Hk Hpk Hvk) as [[-> ->]|(-> & ? & _)]; [|lia].
      by apply ge_of_le.
    + destruct (lookup_lt_is_Some_2 a (Z.to_nat (idx * 2 + 1 + 1))) as [vr Hvr]; [lia|].
      destruct (Z.leb_spec (cmp vr e) 0) as [Hre|Hre].
      * rewrite (bind_Ok _ _ a a None) by (read_step vr; read_step e; destruct (Z.leb_spec (cmp vr e) 0); first [done|lia]). apply Hdone.
        intros k vk Hk Hpk Hvk.
        destruct (Hkids k vk Hk Hpk Hvk) as [[-> ->]|(-> & _ & Hv)].
        -- by apply ge_of_le.
        -- rewrite Hvr in Hv. simplify_eq. by apply ge_of_le.
      * rewrite (bind_Ok _ _ a a (Some (idx * 2 + 1 + 1))) by (read_step vr; read_step e; destruct (Z.leb_spec (cmp vr e) 0); first [done|lia]).
        apply (Hstep _ vr); [done|lia|done|lia|].
        intros k vk Hk Hpk Hvk.
        destruct (Hkids k vk Hk Hpk Hvk) as [[-> ->]|(-> & _ & Hv)].
        -- apply Z.lt_le_incl, (gt_ge_trans _ e); [lia|]. by apply ge_of_le.
        -- rewrite Hvr in Hv. simplify_eq. rewrite cmp_refl; [lia|done].
Qed.

Lemma pop_heap_n_spec a n :
  1 <= n -> n <= Z.of_nat (length a) -> heap_prop cmp a n ->
  exists a', pop_heap_n cmp 0 n a = Ok tt a' /\ heap_prop cmp a' (n - 1) /\
             length a' = length a.
Proof.
  intros Hn Hlen Hh. unfold pop_heap_n. destruct (Z.leb_spec n 1).
  - exists a. split; [done|]. split; [|done]. intros i. lia.
  - cbv zeta. rewrite Z.add_0_l.
    destruct (lookup_lt_is_Some_2 a 0) as [v0 Hv0]; [lia|].
    destruct (lookup_lt_is_Some_2 a (Z.to_nat (n - 1))) as [vm Hvm]; [lia|].
    rewrite (bind_Ok _ _ _ (<[Z.to_nat (n - 1) := v0]> (<[Z.to_nat 0 := vm]> a)) tt)
      by (apply swap_Ok; [lia|lia|done|done]).
    destruct (pop_heap_loop_spec (S (Z.to_nat (n - 1))) (<[Z.to_nat (n - 1) := v0]> (<[Z.to_nat 0 := vm]> a))
                (n - 1) 0) as (a' & Hrun & Hh' & Hl).
    + lia.
    + rewrite length_swap. lia.
    + lia.
    + split; [|lia].
      intros i p c Hi Hpi Hp Hc'. pose proof (parent_bounds i ltac:(lia)).
      rewrite lookup_swap in Hp, Hc' by (lia || done).
      destruct (Z.eqb_spec ((i - 1) / 2) (n - 1)); [lia|].
      destruct (Z.eqb_spec ((i - 1) / 2) 0); [done|].
      destruct (Z.eqb_spec i (n - 1)); [lia|]. destruct (Z.eqb_spec i 0); [lia|].
      apply (Hh i); [lia|done|done].
    + exists a'. split; [done|]. split; [done|]. by rewrite Hl, length_swap.
Qed.

Lemma heap_ops_spec ops n a :
  0 <= n <= Z.of_nat (length a) -> heap_prop cmp a n ->
  heap_ops_valid ops n (Z.of_nat (length a)) ->
  exists n' a', run_heap_ops cmp ops n a = Ok n' a' /\ a' ≡ₚ a /\
                0 <= n' <= Z.of_nat (length a) /\ heap_prop cmp a' n'.
Proof.
  revert n a. induction ops as [|[] ops IH]; intros n a Hn Hh Hv.
  - by exists n, a.
  - destruct Hv as [Hpush Hv]. cbn [run_heap_ops]. unfold push_heap. rewrite Z.sub_0_r.
    destruct (push_heap_n_spec a (n + 1)) as (a1 & Hrun & Hh1 & Hl1);
      [lia|lia|by rewrite Z.add_simpl_r|].
    pose proof (perm_push_heap_n cmp 0 (n + 1) a) as Hp. rewrite Hrun in Hp.
    rewrite (bind_Ok _ _ _ a1 tt) by done.
    destruct (IH (n + 1) a1) as (n' & a' & Hr & Hp' & Hn' & Hh');
      [rewrite Hl1; lia|done|by rewrite Hl1|].
    exists n', a'. rewrite Hl1 in Hn'. split; [done|]. split; [by rewrite Hp'|done].
  - destruct Hv as [Hpop Hv]. cbn [run_heap_ops]. unfold pop_heap. rewrite Z.sub_0_r.
    destruct (pop_heap_n_spec a n) as (a1 & Hrun & Hh1 & Hl1); [lia|lia|done|].
    pose proof (perm_pop_heap_n cmp 0 n a) as Hp. rewrite Hrun in Hp.
    rewrite (bind_Ok _ _ _ a1 tt) by done.
    destruct (IH (n - 1) a1) as (n' & a' & Hr & Hp' & Hn' & Hh');
      [rewrite Hl1; lia|done|by rewrite Hl1|].
    exists n', a'. rewrite Hl1 in Hn'. split; [done|]. split; [by rewrite Hp'|done].
Qed.

End HeapFacts.

(** ** The heap invariant of push_heap and pop_heap *)

(** For a strict weak ordering, starting from an active range
    [0, n) with n >= 1 on which [is_heap] holds, any sequence of
    [push_heap] (onto a free slot after the range) and [pop_heap] (of a
    non-empty range) runs without fault, keeps the array a permutation of
    the original, and leaves the max-heap property on the final active
    range [0, n'); [is_heap] then returns true whenever n' >= 1.  On an
    empty active range [is_heap] reads past it (see below). *)
Lemma heap_invariant_push_pop {T} (cmp : T -> T -> Z) (Hc : strict_weak_order cmp)
    ops n (a : list T) :
  1 <= n <= Z.of_nat (length a) -> is_heap cmp 0 n a = Ok true a ->
  heap_ops_valid ops n (Z.of_nat (length a)) ->
  exists n' a', run_heap_ops cmp ops n a = Ok n' a' /\ a' ≡ₚ a /\ heap_prop cmp a' n' /\
                (1 <= n' -> is_heap cmp 0 n' a' = Ok true a').
Proof.
  intros Hn Hh Hv.
  destruct (heap_ops_spec cmp Hc ops n a) as (n' & a' & Hr & Hp & Hn' & Hh').
  - lia.
  - eapply is_heap_true_inv; [lia|exact Hh].
  - done.
  - exists n', a'. split; [done|]. split; [done|]. split; [done|].
    intros H1. apply is_heap_true; [done|rewrite (Permutation_length Hp); lia|done].
Qed.

(** ** C8: is_heap after popping the last element *)

(** C8 (code bug): popping a one-element heap is a valid [pop_heap] and
    leaves the empty active range [0, 0), on which [is_heap] does not
    hold: [is_heap_until] steps [first] past [last] before its
    [first == last] test and reads the slot after the range.  Alone in
    its array the heap [5] then faults at index 1; followed by a slot
    holding 7, [is_heap] reads that 7 and returns false. *)
Theorem heap_pop_to_empty_breaks_is_heap :
  strict_weak_order cmp_int /\
  is_heap cmp_int 0 1 [5] = Ok true [5] /\
  heap_ops_valid [HPop] 1 (Z.of_nat (length [5])) /\
  run_heap_ops cmp_int [HPop] 1 [5] = Ok 0 [5] /\
  is_heap cmp_int 0 0 [5] = Fault (OutOfRange 1) [5] /\
  is_heap cmp_int 0 1 [5; 7] = Ok true [5; 7] /\
  heap_ops_valid [HPop] 1 (Z.of_nat (length [5; 7])) /\
  run_heap_ops cmp_int [HPop] 1 [5; 7] = Ok 0 [5; 7] /\
  is_heap cmp_int 0 0 [5; 7] = Ok false [5; 7].
Proof.
  split; [exact cmp_int_swo|].
  split; [vm_compute; reflexivity|]. split; [simpl; lia|].
  split; [vm_compute; reflexivity|]. split; [vm_compute; reflexivity|].
  split; [vm_compute; reflexivity|]. split; [simpl; lia|].
  split; vm_compute; reflexivity.
Qed.

(** ** Sort *)

Section SortFacts.
Context {T : Type} (cmp : T -> T -> Z) (Hc : strict_weak_order cmp).

(** *** The unguarded insertion sort *)

Lemma write_after (l1 l2 : list T) y h v :
  write (Z.of_nat (length l1) + 1) v (l1 ++ y :: h :: l2) = Ok tt (l1 ++ y :: v :: l2).
Proof.
  rewrite write_Ok; [|lia|rewrite length_app; simpl; lia].
  replace (Z.to_nat (Z.of_nat (length l1) + 1)) with (length (l1 ++ [y]))
    by (rewrite length_app; simpl; lia).
  replace (l1 ++ y :: h :: l2) with ((l1 ++ [y]) ++ h :: l2) by (by rewrite <- app_assoc).
  replace (l1 ++ y :: v :: l2) with ((l1 ++ [y]) ++ v :: l2) by (by rewrite <- app_assoc).
  rewrite <- (Nat.add_0_r (length (l1 ++ [y]))), insert_app_r. done.
Qed.

(** The inner loop moves the elements greater than [x] one slot up,
    from the right, and stops on the first one that is not. *)
Lemma shift_loop_spec fuel x l1 h l2 :
  (length l1 <= fuel)%nat -> Exists (fun y => 0 <= cmp x y) l1 ->
  exists l1a y l1b h', l1 = l1a ++ y :: l1b /\ 0 <= cmp x y /\
    Forall (fun z => cmp x z < 0) l1b /\
    shift_loop cmp fuel x (Z.of_nat (length l1) - 1) (l1 ++ h :: l2) =
      Ok (Z.of_nat (length l1a)) (l1a ++ y :: h' :: l1b ++ l2).
Proof.
  revert l1 h l2. induction fuel as [|fuel IH]; intros l1 h l2 Hlen Hex.
  { destruct l1; [inversion Hex|simpl in Hlen; lia]. }
  destruct l1 as [|y l1' _] using rev_ind; [inversion Hex|].
  rewrite length_app in Hlen |- *. simpl in Hlen |- *.
  replace (Z.of_nat (length l1' + 1) - 1) with (Z.of_nat (length l1')) by lia.
  cbn [shift_loop]. rewrite <- app_assoc. simpl.
  rewrite (bind_Ok _ _ _ _ y)
    by (apply read_Ok; [lia|rewrite Nat2Z.id; by apply list_lookup_middle]).
  destruct (Z.ltb_spec (cmp x y) 0) as [Hlt|Hge].
  - rewrite (bind_Ok _ _ _ _ tt (write_after l1' l2 y h y)).
    assert (Hex' : Exists (fun y => 0 <= cmp x y) l1').
    { apply Exists_app in Hex as [Hex|Hex]; [done|].
      inversion Hex as [? ? Hy|? ? Hnil]; subst; [lia|inversion Hnil]. }
    destruct (IH l1' y (y :: l2)) as (l1a & y0 & l1b & h' & -> & Hy0 & Hf & Hrun);
      [lia|done|].
    exists l1a, y0, (l1b ++ [y]), h'. split; [by rewrite <- app_assoc|].
    split; [done|]. split; [apply Forall_app; split; [done|by constructor]|].
    rewrite Hrun. by rewrite <- app_assoc.
  - exists l1', y, [], h. split; [done|]. split; [lia|]. split; [constructor|]. done.
Qed.

Lemma Sorted_insert_mid (R : T -> T -> Prop) l1 y x l2 :
  Sorted R (l1 ++ y :: l2) -> R y x -> (forall z, head l2 = Some z -> R x z) ->
  Sorted R (l1 ++ y :: x :: l2).
Proof.
  intros HS Hyx Hxz. induction l1 as [|a l1 IH]; simpl in *.
  - inversion HS as [|? ? HS2 Hd]; subst. constructor; [|by constructor].
    constructor; [done|]. destruct l2 as [|z l2]; constructor. by apply Hxz.
  - inversion HS as [|? ? HS2 Hd]; subst. constructor; [by apply IH|].
    destruct l1; simpl in *; inversion Hd; by constructor.
Qed.

(** The outer loop, on an array [p ++ rest] whose prefix [p] is sorted
    and holds an element [m] that no element of [rest] is below. *)
Lemma insertion_loop_spec rest p m :
  Sorted (le cmp) p -> m ∈ p -> Forall (fun z => 0 <= cmp z m) rest ->
  exists s', insertion_loop cmp (length rest) (Z.of_nat (length p)) (p ++ rest) = Ok tt s' /\
    s' ≡ₚ p ++ rest /\ Sorted (le cmp) s'.
Proof.
  revert p. induction rest as [|x rest IH]; intros p Hs Hm Hf.
  { exists p. rewrite app_nil_r. done. }
  inversion Hf as [|? ? Hxm Hf']; subst.
  cbn [insertion_loop length].
  rewrite (bind_Ok _ _ _ _ x)
    by (apply read_Ok; [lia|rewrite Nat2Z.id; by apply list_lookup_middle]).
  destruct (shift_loop_spec (S (Z.to_nat (Z.of_nat (length p)))) x p x rest)
    as (l1a & y & l1b & h' & Hp & Hy & Hb & Hrun).
  { lia. }
  { apply Exists_exists. by exists m. }
  rewrite (bind_Ok _ _ _ _ _ Hrun), (bind_Ok _ _ _ _ tt (write_after l1a (l1b ++ rest) y h' x)).
  replace (Z.of_nat (length p) + 1) with (Z.of_nat (length (l1a ++ y :: x :: l1b)))
    by (subst p; rewrite !length_app; simpl; lia).
  replace (l1a ++ y :: x :: l1b ++ rest) with ((l1a ++ y :: x :: l1b) ++ rest)
    by (by rewrite <- app_assoc).
  destruct (IH (l1a ++ y :: x :: l1b)) as (s' & Hr & Hperm & Hsort).
  - apply Sorted_insert_mid; [by rewrite <- Hp| |].
    + unfold le. by apply (cmp_flip_le cmp Hc).
    + intros z Hz. destruct l1b as [|z' l1b]; simpl in Hz; [done|].
      injection Hz as <-. inversion Hb; subst. unfold le. lia.
  - rewrite Hp in Hm. apply elem_of_app in Hm as [Hm|Hm]; apply elem_of_app; [by left|right].
    apply elem_of_cons in Hm as [->|Hm]; apply elem_of_cons; [by left|right].
    apply elem_of_cons. by right.
  - done.
  - exists s'. split; [done|]. split; [|done]. rewrite Hperm, Hp, <- !app_assoc. simpl.
    apply Permutation_app_head. constructor. apply Permutation_middle.
Qed.

(** *** Segments *)

Lemma seg_refl (a : list T) first last : seg_from a a first last.
Proof. split; [done|]. split; [done|]. intros k x Hk Hx. by exists k. Qed.

Lemma seg_trans (a b c : list T) first last :
  seg_from a b first last -> seg_from b c first last -> seg_from a c first last.
Proof.
  intros (Hl1 & Ho1 & Hi1) (Hl2 & Ho2 & Hi2). split; [lia|]. split.
  - intros k Hk Hout. rewrite Ho2, Ho1; done.
  - intros k x Hk Hx. destruct (Hi2 k x Hk Hx) as (k' & Hk' & Hx'). by apply (Hi1 k').
Qed.

Lemma seg_widen (a b : list T) first last first' last' :
  0 <= first' <= first -> last <= last' -> seg_from a b first last -> seg_from a b first' last'.
Proof.
  intros Hf Hl (Hlen & Ho & Hi). split; [done|]. split.
  - intros k Hk Hout. apply Ho; lia.
  - intros k x Hk Hx. destruct (Z.lt_ge_cases k first); [|destruct (Z.lt_ge_cases k last)].
    + exists k. split; [lia|]. rewrite <- Ho; [done|lia|lia].
    + destruct (Hi k x) as (k' & ? & ?); [lia|done|]. exists k'. split; [lia|done].
    + exists k. split; [lia|]. rewrite <- Ho; [done|lia|lia].
Qed.

Lemma seg_swap (a : list T) first last i j vi vj :
  0 <= first -> first <= i < last -> first <= j < last ->
  a !! Z.to_nat i = Some vi -> a !! Z.to_nat j = Some vj ->
  seg_from a (<[Z.to_nat j := vi]> (<[Z.to_nat i := vj]> a)) first last.
Proof.
  intros H0 Hi Hj Hvi Hvj. split; [apply length_swap|]. split.
  - intros k Hk Hout. rewrite (lookup_swap a i j k vi vj) by (lia || done).
    destruct (Z.eqb_spec k j); [lia|]. destruct (Z.eqb_spec k i); [lia|done].
  - intros k x Hk Hx. rewrite (lookup_swap a i j k vi vj) in Hx by (lia || done).
    destruct (Z.eqb_spec k j); [exists i; split; [lia|congruence]|].
    destruct (Z.eqb_spec k i); [exists j; split; [lia|congruence]|].
    exists k. split; [lia|done].
Qed.

(** *** Hoare partition *)

Lemma scan_up_spec fuel v i k xk (a : list T) :
  0 <= i <= k -> a !! Z.to_nat k = Some xk -> 0 <= cmp xk v -> (Z.to_nat (k - i) < fuel)%nat ->
  exists i' x', scan_up cmp fuel v i a = Ok i' a /\ i <= i' <= k /\
    a !! Z.to_nat i' = Some x' /\ 0 <= cmp x' v /\
    (forall t y, i <= t < i' -> a !! Z.to_nat t = Some y -> cmp y v < 0).
Proof.
  revert i. induction fuel as [|fuel IH]; intros i Hi Hk Hxk Hf; [lia|].
  cbn [scan_up].
  destruct (lookup_lt_is_Some_2 a (Z.to_nat i)) as [x Hx];
    [apply lookup_lt_Some in Hk; lia|].
  rewrite (bind_Ok _ _ _ _ x) by (apply read_Ok; [lia|done]).
  destruct (Z.ltb_spec (cmp x v) 0) as [Hlt|Hge].
  - destruct (Z.eq_dec i k) as [->|Hne]; [rewrite Hk in Hx; simplify_eq; lia|].
    destruct (IH (i + 1)) as (i' & x' & Hrun & Hb & Hx' & Hge & Hall); [lia|done|done|lia|].
    exists i', x'. split; [done|]. split; [lia|]. split; [done|]. split; [done|].
    intros t y Ht Hy. destruct (Z.eq_dec t i) as [->|]; [rewrite Hx in Hy; by simplify_eq|].
    apply (Hall t); [lia|done].
  - exists i, x. split; [done|]. split; [lia|]. split; [done|]. split; [lia|]. intros; lia.
Qed.

Lemma scan_down_spec fuel v j k xk (a : list T) :
  0 <= k <= j -> j < Z.of_nat (length a) ->
  a !! Z.to_nat k = Some xk -> 0 <= cmp v xk -> (Z.to_nat (j - k) < fuel)%nat ->
  exists j' y', scan_down cmp fuel v j a = Ok j' a /\ k <= j' <= j /\
    a !! Z.to_nat j' = Some y' /\ 0 <= cmp v y' /\
    (forall t y, j' < t <= j -> a !! Z.to_nat t = Some y -> cmp v y < 0).
Proof.
  revert j. induction fuel as [|fuel IH]; intros j Hj Hlen Hk Hxk Hf; [lia|].
  cbn [scan_down].
  destruct (lookup_lt_is_Some_2 a (Z.to_nat j)) as [x Hx]; [lia|].
  rewrite (bind_Ok _ _ _ _ x) by (apply read_Ok; [lia|done]).
  destruct (Z.ltb_spec (cmp v x) 0) as [Hlt|Hge].
  - destruct (Z.eq_dec j k) as [->|Hne]; [rewrite Hk in Hx; simplify_eq; lia|].
    destruct (IH (j - 1)) as (j' & y' & Hrun & Hb & Hy' & Hge & Hall); [lia|lia|done|done|lia|].
    exists j', y'. split; [done|]. split; [lia|]. split; [done|]. split; [done|].
    intros t y Ht Hy. destruct (Z.eq_dec t j) as [->|]; [rewrite Hx in Hy; by simplify_eq|].
    apply (Hall t); [lia|done].
  - exists j, x. split; [done|]. split; [lia|]. split; [done|]. split; [lia|]. intros; lia.
Qed.

(** The loop of [_sort_partition]: [i] and [j] are the two cursors;
    everything left of [i] is not above the pivot [v], everything right of
    [j] is not below it, and each scan has an element ahead of it that
    stops it. *)
Lemma partition_loop_spec fuel v (a : list T) first last i j :
  0 <= first -> last <= Z.of_nat (length a) ->
  first <= i -> j <= last - 1 -> i <= j + 1 -> j - i + 1 < Z.of_nat fuel ->
  (forall t x, first <= t < i -> a !! Z.to_nat t = Some x -> 0 <= cmp v x) ->
  (forall t x, j < t <= last - 1 -> a !! Z.to_nat t = Some x -> 0 <= cmp x v) ->
  (exists k xk, i <= k <= j + 1 /\ k <= last - 1 /\ (k <= last - 2 \/ j <= last - 2) /\
     a !! Z.to_nat k = Some xk /\ 0 <= cmp xk v) ->
  (exists k xk, first <= k /\ i - 1 <= k <= j /\ a !! Z.to_nat k = Some xk /\ 0 <= cmp v xk) ->
  exists p a', partition_loop cmp fuel v i j a = Ok p a' /\ seg_from a a' first last /\
    first < p < last /\
    (forall t x, first <= t < p -> a' !! Z.to_nat t = Some x -> 0 <= cmp v x) /\
    (forall t x, p <= t < last -> a' !! Z.to_nat t = Some x -> 0 <= cmp x v).
Proof.
  revert a i j. induction fuel as [|fuel IH];
    intros a i j H0 Hlen Hfi Hjl Hij Hfuel HA HB
      (kC & xC & HkC1 & HkC2 & HkC3 & HxC & HvC) (kD & xD & HkD1 & HkD2 & HxD & HvD); [lia|].
  cbn [partition_loop].
  destruct (scan_up_spec (S (S fuel)) v i kC xC a) as (i' & x' & Hup & Hi' & Hx' & Hx'v & Hlo);
    [lia|done|done|lia|].
  rewrite (bind_Ok _ _ _ _ i' Hup).
  destruct (scan_down_spec (S (S fuel)) v j kD xD a) as (j' & y' & Hdown & Hj' & Hy' & Hy'v & Hhi);
    [lia|lia|done|done|lia|].
  rewrite (bind_Ok _ _ _ _ j' Hdown).
  destruct (Z.geb_spec i' j') as [Hge|Hlt].
  - exists (j' + 1), a. split; [done|]. split; [apply seg_refl|]. split; [lia|]. split.
    + intros t x Ht Hx. destruct (Z.lt_ge_cases t i); [apply (HA t); [lia|done]|].
      destruct (Z.lt_ge_cases t i').
      * apply Z.lt_le_incl, (cmp_flip_lt cmp Hc), (Hlo t); [lia|done].
      * assert (t = j') as -> by lia. rewrite Hy' in Hx. by simplify_eq.
    + intros t x Ht Hx. destruct (Z.le_gt_cases t j).
      * apply Z.lt_le_incl, (cmp_flip_lt cmp Hc), (Hhi t); [lia|done].
      * apply (HB t); [lia|done].
  - rewrite (bind_Ok _ _ _ (<[Z.to_nat j' := x']> (<[Z.to_nat i' := y']> a)) tt)
      by (apply swap_Ok; [lia|lia|done|done]).
    assert (Hb : forall k, 0 <= k -> <[Z.to_nat j' := x']> (<[Z.to_nat i' := y']> a) !! Z.to_nat k =
              if Z.eqb k j' then Some x' else if Z.eqb k i' then Some y' else a !! Z.to_nat k).
    { intros k Hk. apply lookup_swap; lia || done. }
    destruct (IH (<[Z.to_nat j' := x']> (<[Z.to_nat i' := y']> a)) (i' + 1) (j' - 1))
      as (p & a' & Hrun & Hseg & Hp & HL & HR).
    + lia.
    + rewrite length_swap. lia.
    + lia.
    + lia.
    + lia.
    + lia.
    + intros t x Ht Hx. rewrite Hb in Hx by lia.
      destruct (Z.eqb_spec t j'); [lia|].
      destruct (Z.eqb_spec t i') as [->|]; [by simplify_eq|].
      destruct (Z.lt_ge_cases t i); [apply (HA t); [lia|done]|].
      apply Z.lt_le_incl, (cmp_flip_lt cmp Hc), (Hlo t); [lia|done].
    + intros t x Ht Hx. rewrite Hb in Hx by lia.
      destruct (Z.eqb_spec t j') as [->|]; [by simplify_eq|].
      destruct (Z.eqb_spec t i'); [lia|].
      destruct (Z.le_gt_cases t j).
      * apply Z.lt_le_incl, (cmp_flip_lt cmp Hc), (Hhi t); [lia|done].
      * apply (HB t); [lia|done].
    + exists j', x'. split; [lia|]. split; [lia|]. split; [lia|].
      split; [rewrite Hb by lia; by rewrite Z.eqb_refl|done].
    + exists i', y'. split; [lia|]. split; [lia|].
      split; [|done]. rewrite Hb by lia. destruct (Z.eqb_spec i' j'); [lia|].
      by rewrite Z.eqb_refl.
    + exists p, a'. split; [done|]. split; [|done].
      apply (seg_trans _ (<[Z.to_nat j' := x']> (<[Z.to_nat i' := y']> a))); [|done].
      apply seg_swap; [lia|lia|lia|done|done].
Qed.

Lemma half_bounds n : 2 <= n -> 0 <= (n - 1) / 2 <= n - 2.
Proof.
  intros. pose proof (Z.div_mod (n - 1) 2 ltac:(lia)).
  pose proof (Z.mod_pos_bound (n - 1) 2 ltac:(lia)). lia.
Qed.

Lemma sort_partition_spec (a : list T) first last :
  0 <= first -> first + 2 <= last -> last <= Z.of_nat (length a) ->
  exists p a' v, _sort_partition cmp first last a = Ok p a' /\ seg_from a a' first last /\
    first < p < last /\
    (forall t x, first <= t < p -> a' !! Z.to_nat t = Some x -> 0 <= cmp v x) /\
    (forall t x, p <= t < last -> a' !! Z.to_nat t = Some x -> 0 <= cmp x v).
Proof.
  intros H0 Hn Hlen. unfold _sort_partition.
  destruct (Z.eqb_spec (last - first) 0); [lia|].
  pose proof (half_bounds (last - first) ltac:(lia)) as Hh.
  destruct (lookup_lt_is_Some_2 a (Z.to_nat (first + (last - first - 1) / 2))) as [v Hv]; [lia|].
  rewrite (bind_Ok _ _ _ _ v) by (apply read_Ok; [lia|done]).
  destruct (partition_loop_spec (S (Z.to_nat (last - first))) v a first last first (last - 1))
    as (p & a' & Hrun & Hseg & Hp & HL & HR); [lia|lia|lia|lia|lia|lia|intros; lia|intros; lia| | |].
  - exists (first + (last - first - 1) / 2), v. split; [lia|]. split; [lia|]. split; [lia|].
    split; [done|]. rewrite (cmp_refl cmp Hc). lia.
  - exists (first + (last - first - 1) / 2), v. split; [lia|]. split; [lia|]. split; [done|].
    rewrite (cmp_refl cmp Hc). lia.
  - by exists p, a', v.
Qed.

(** *** Quick sort with early stop *)

(** The blocks left by [_quick_sort_early_stop] are ordered: nothing in
    the leftmost block [first, r) is above anything in [r, last). *)
Lemma quick_sort_spec fuel (a : list T) first last :
  0 <= first <= last -> last <= Z.of_nat (length a) -> (Z.to_nat (last - first) < fuel)%nat ->
  exists r a', _quick_sort_early_stop cmp fuel first last a = Ok r a' /\
    seg_from a a' first last /\ first <= r <= last /\ (first < last -> first < r) /\
    (forall s t x y, first <= s < r -> r <= t < last -> a' !! Z.to_nat s = Some x ->
       a' !! Z.to_nat t = Some y -> le cmp x y).
Proof.
  revert a first last. induction fuel as [|fuel IH]; intros a first last Hfl Hlen Hfuel; [lia|].
  cbn [_quick_sort_early_stop].
  destruct (Z.gtb_spec (last - first) SIZE_WHEN_INSERTION_IS_FASTER) as [Hbig|Hsmall].
  2: { exists last, a. split; [done|]. split; [apply seg_refl|]. split; [lia|].
       split; [lia|]. intros; lia. }
  unfold SIZE_WHEN_INSERTION_IS_FASTER in Hbig.
  destruct (sort_partition_spec a first last) as (p & a1 & v & Hpart & Hseg1 & Hp & HL & HR);
    [lia|lia|lia|].
  rewrite (bind_Ok _ _ _ _ p Hpart).
  pose proof Hseg1 as (Hl1 & _ & _).
  destruct (IH a1 p last) as (r2 & a2 & Hrun2 & Hseg2 & Hr2 & _ & _); [lia|lia|lia|].
  rewrite (bind_Ok _ _ _ _ r2 Hrun2).
  pose proof Hseg2 as (Hl2 & Ho2 & Hi2).
  destruct (IH a2 first p) as (r3 & a3 & Hrun3 & Hseg3 & Hr3 & Hlt3 & Hord3); [lia|lia|lia|].
  pose proof Hseg3 as (_ & Ho3 & Hi3).
  exists r3, a3. split; [done|]. split.
  { apply (seg_trans _ a1); [done|]. apply (seg_trans _ a2).
    - apply (seg_widen _ _ p last); [lia|lia|done].
    - apply (seg_widen _ _ first p); [lia|lia|done]. }
  split; [lia|]. split; [lia|].
  intros s t x y Hs Ht Hx Hy. destruct (Z.lt_ge_cases t p).
  - apply (Hord3 s t); [lia|lia|done|done].
  - rewrite Ho3 in Hy by lia.
    destruct (Hi2 t y) as (t' & Ht' & Hy'); [lia|done|].
    destruct (Hi3 s x) as (s' & Hs' & Hx'); [lia|done|].
    rewrite Ho2 in Hx' by lia.
    apply (le_trans' cmp Hc _ v).
    + unfold le. apply (cmp_flip_le cmp Hc). apply (HL s'); [lia|done].
    + unfold le. apply (cmp_flip_le cmp Hc). apply (HR t'); [lia|done].
Qed.

(** *** min_element *)

Lemma min_element_loop_spec k (a : list T) first best f b :
  0 <= first <= best -> best < f -> f + Z.of_nat k <= Z.of_nat (length a) ->
  a !! Z.to_nat best = Some b ->
  (forall t y, first <= t < f -> a !! Z.to_nat t = Some y -> le cmp b y) ->
  exists mi m, min_element_loop cmp k best f a = Ok mi a /\ first <= mi < f + Z.of_nat k /\
    a !! Z.to_nat mi = Some m /\
    (forall t y, first <= t < f + Z.of_nat k -> a !! Z.to_nat t = Some y -> le cmp m y).
Proof.
  revert best f b. induction k as [|k IH]; intros best f b H0 Hb Hlen Hbv Hall.
  { exists best, b. rewrite Z.add_0_r. split; [done|]. split; [lia|]. done. }
  cbn [min_element_loop].
  destruct (lookup_lt_is_Some_2 a (Z.to_nat f)) as [x Hx]; [lia|].
  rewrite (bind_Ok _ _ _ _ x) by (apply read_Ok; [lia|done]).
  rewrite (bind_Ok _ _ _ _ b) by (apply read_Ok; [lia|done]).
  destruct (Z.ltb_spec (cmp x b) 0) as [Hlt|Hge].
  - destruct (IH f (f + 1) x) as (mi & m & Hrun & Hmi & Hm & Hmall); [lia|lia|lia|done| |].
    + intros t y Ht Hy. destruct (Z.eq_dec t f) as [->|].
      * rewrite Hx in Hy. simplify_eq. unfold le. rewrite (cmp_refl cmp Hc). lia.
      * apply (le_trans' cmp Hc _ b); [unfold le; lia|]. apply (Hall t); [lia|done].
    + exists mi, m. split; [done|]. split; [lia|]. split; [done|].
      intros t y Ht Hy. apply (Hmall t); [lia|done].
  - destruct (IH best (f + 1) b) as (mi & m & Hrun & Hmi & Hm & Hmall); [lia|lia|lia|done| |].
    + intros t y Ht Hy. destruct (Z.eq_dec t f) as [->|].
      * rewrite Hx in Hy. simplify_eq. unfold le. by apply (cmp_flip_le cmp Hc).
      * apply (Hall t); [lia|done].
    + exists mi, m. split; [done|]. split; [lia|]. split; [done|].
      intros t y Ht Hy. apply (Hmall t); [lia|done].
Qed.

Lemma min_element_spec (a : list T) first last :
  0 <= first < last -> last <= Z.of_nat (length a) ->
  exists mi m, min_element cmp first last a = Ok mi a /\ first <= mi < last /\
    a !! Z.to_nat mi = Some m /\
    (forall t y, first <= t < last -> a !! Z.to_nat t = Some y -> le cmp m y).
Proof.
  intros H0 Hlen. unfold min_element. destruct (Z.eqb_spec first last); [lia|].
  destruct (lookup_lt_is_Some_2 a (Z.to_nat first)) as [b Hb]; [lia|].
  destruct (min_element_loop_spec (Z.to_nat (last - (first + 1))) a first first (first + 1) b)
    as (mi & m & Hrun & Hmi & Hm & Hmall); [lia|lia|lia|done| |].
  - intros t y Ht Hy. assert (t = first) as -> by lia. rewrite Hb in Hy. simplify_eq.
    unfold le. rewrite (cmp_refl cmp Hc). lia.
  - exists mi, m. split; [done|]. split; [lia|]. split; [done|].
    intros t y Ht Hy. apply (Hmall t); [lia|done].
Qed.

End SortFacts.

(** ** nth_element *)

Section NthFacts.
Context {T : Type} (cmp : T -> T -> Z) (Hc : strict_weak_order cmp).

Lemma cmp_flip_gt a b : 0 < cmp a b -> cmp b a < 0.
Proof.
  intros H. destruct (Z.lt_ge_cases (cmp b a) 0); [done|].
  apply (cmp_flip_le cmp Hc) in H0. lia.
Qed.

(** The loop of [nth_element]: nothing before [first] is above anything
    from [first] on, and nothing before [last] is above anything from
    [last] on. *)
Lemma nth_element_loop_spec fuel (a : list T) first nth last :
  0 <= first <= nth -> nth < last -> last <= Z.of_nat (length a) ->
  (Z.to_nat (last - first) < fuel)%nat ->
  (forall s t x y, 0 <= s < first -> first <= t < Z.of_nat (length a) ->
     a !! Z.to_nat s = Some x -> a !! Z.to_nat t = Some y -> le cmp x y) ->
  (forall s t x y, 0 <= s < last -> last <= t < Z.of_nat (length a) ->
     a !! Z.to_nat s = Some x -> a !! Z.to_nat t = Some y -> le cmp x y) ->
  exists a', nth_element_loop cmp fuel first nth last a = Ok tt a' /\
    seg_from a a' first last /\
    (forall s t x y, 0 <= s <= nth -> nth <= t < Z.of_nat (length a) ->
       a' !! Z.to_nat s = Some x -> a' !! Z.to_nat t = Some y -> le cmp x y).
Proof.
  revert a first last. induction fuel as [|fuel IH];
    intros a first last H0 Hn Hl Hf I1 I2; [lia|].
  cbn [nth_element_loop].
  destruct (Z.gtb_spec (last - first) 1) as [Hbig|Hsmall].
  2: { destruct (Z.eqb_spec first nth); [|lia].
       exists a. split; [done|]. split; [apply seg_refl|].
       intros s t x y Hs Ht Hx Hy. destruct (Z.lt_ge_cases s first).
       - apply (I1 s t); [lia|lia|done|done].
       - destruct (Z.eq_dec t nth) as [->|].
         + assert (s = nth) as -> by lia. rewrite Hx in Hy. simplify_eq.
           unfold le. rewrite (cmp_refl cmp Hc). lia.
         + apply (I2 s t); [lia|lia|done|done]. }
  destruct (sort_partition_spec cmp Hc a first last) as (p & a1 & v & Hpart & Hseg & Hp & HL & HR);
    [lia|lia|lia|].
  rewrite (bind_Ok _ _ _ _ p Hpart).
  pose proof Hseg as (Hl1 & Ho1 & Hi1).
  assert (J1 : forall s t x y, 0 <= s < first -> first <= t < Z.of_nat (length a) ->
            a1 !! Z.to_nat s = Some x -> a1 !! Z.to_nat t = Some y -> le cmp x y).
  { intros s t x y Hs Ht Hx Hy. rewrite Ho1 in Hx by lia.
    destruct (Z.lt_ge_cases t last).
    - destruct (Hi1 t y) as (t' & Ht' & Hy'); [lia|done|]. apply (I1 s t'); [lia|lia|done|done].
    - rewrite Ho1 in Hy by lia. apply (I1 s t); [lia|lia|done|done]. }
  assert (J2 : forall s t x y, 0 <= s < last -> last <= t < Z.of_nat (length a) ->
            a1 !! Z.to_nat s = Some x -> a1 !! Z.to_nat t = Some y -> le cmp x y).
  { intros s t x y Hs Ht Hx Hy. rewrite Ho1 in Hy by lia.
    destruct (Z.lt_ge_cases s first).
    - rewrite Ho1 in Hx by lia. apply (I2 s t); [lia|lia|done|done].
    - destruct (Hi1 s x) as (s' & Hs' & Hx'); [lia|done|]. apply (I2 s' t); [lia|lia|done|done]. }
  assert (Jv : forall s t x y, first <= s < p -> p <= t < last ->
            a1 !! Z.to_nat s = Some x -> a1 !! Z.to_nat t = Some y -> le cmp x y).
  { intros s t x y Hs Ht Hx Hy. apply (le_trans' cmp Hc _ v); unfold le; apply (cmp_flip_le cmp Hc).
    - apply (HL s); [lia|done].
    - apply (HR t); [lia|done]. }
  rewrite <- Hl1 in J1, J2.
  destruct (Z.leb_spec p nth).
  - destruct (IH a1 p last) as (a' & Hrun & Hseg' & Hord); [lia|lia|lia|lia| | |].
    + intros s t x y Hs Ht Hx Hy. destruct (Z.lt_ge_cases s first).
      * apply (J1 s t); [lia|lia|done|done].
      * destruct (Z.lt_ge_cases t last).
        -- apply (Jv s t); [lia|lia|done|done].
        -- apply (J2 s t); [lia|lia|done|done].
    + done.
    + exists a'. split; [done|]. split.
      * apply (seg_trans _ a1); [done|]. apply (seg_widen _ _ p last); [lia|lia|done].
      * rewrite <- Hl1. done.
  - destruct (IH a1 first p) as (a' & Hrun & Hseg' & Hord); [lia|lia|lia|lia|done| |].
    + intros s t x y Hs Ht Hx Hy. destruct (Z.lt_ge_cases t last).
      * destruct (Z.lt_ge_cases s first).
        -- apply (J1 s t); [lia|lia|done|done].
        -- apply (Jv s t); [lia|lia|done|done].
      * apply (J2 s t); [lia|lia|done|done].
    + exists a'. split; [done|]. split.
      * apply (seg_trans _ a1); [done|]. apply (seg_widen _ _ first p); [lia|lia|done].
      * rewrite <- Hl1. done.
Qed.

Lemma filter_lower (P : T -> bool) (l : list T) m :
  (m <= length l)%nat -> (forall i w, (i < m)%nat -> l !! i = Some w -> P w = true) ->
  (m <= length (List.filter P l))%nat.
Proof.
  revert m. induction l as [|w l IH]; intros m Hm HP; simpl in *; [lia|].
  destruct m as [|m]; [lia|].
  rewrite (HP 0%nat w) by (lia || done). simpl.
  assert (m <= length (List.filter P l))%nat; [|lia].
  apply IH; [lia|]. intros i u Hi Hu. apply (HP (S i)); [lia|done].
Qed.

Lemma filter_upper (P : T -> bool) (l : list T) m :
  (forall i w, (m <= i)%nat -> l !! i = Some w -> P w = false) ->
  (length (List.filter P l) <= m)%nat.
Proof.
  revert m. induction l as [|w l IH]; intros m HP; simpl; [lia|].
  destruct m as [|m].
  - rewrite (HP 0%nat w) by (lia || done).
    apply (IH 0%nat). intros i u _ Hu. apply (HP (S i)); [lia|done].
  - assert (length (List.filter P l) <= m)%nat.
    { apply IH. intros i u Hi Hu. apply (HP (S i)); [lia|done]. }
    destruct (P w); simpl; lia.
Qed.

Lemma perm_filter_length (P : T -> bool) (l l' : list T) :
  l ≡ₚ l' -> length (List.filter P l) = length (List.filter P l').
Proof.
  induction 1 as [|x l l' _ IH|x y l|l l' l'' _ IH1 _ IH2]; simpl; try lia.
  - destruct (P x); simpl; lia.
  - destruct (P x), (P y); simpl; lia.
Qed.

Lemma SS_lookup (R : T -> T -> Prop) (l : list T) i j x y :
  StronglySorted R l -> (i < j)%nat -> l !! i = Some x -> l !! j = Some y -> R x y.
Proof.
  revert i j. induction l as [|w l IH]; intros i j Hs Hij Hx Hy; [done|].
  inversion Hs as [|? ? Hs' Hf]; subst.
  destruct i as [|i], j as [|j]; simpl in *; [lia| |lia|].
  - simplify_eq. rewrite Forall_forall in Hf. apply Hf, list_elem_of_lookup. by exists j.
  - apply (IH i j); [done|lia|done|done].
Qed.

(** An element with nothing above it before position [k] and nothing
    below it after [k] ranks, under [cmp], with the element at position
    [k] of any sorted rearrangement. *)
Lemma sorted_position (a srt : list T) k x :
  a ≡ₚ srt -> Sorted (le cmp) srt -> a !! k = Some x ->
  (forall s y, (s < k)%nat -> a !! s = Some y -> le cmp y x) ->
  (forall t y, (k < t)%nat -> a !! t = Some y -> le cmp x y) ->
  exists z, srt !! k = Some z /\ cmp x z = 0.
Proof.
  intros Hp Hs Hx Hlo Hhi.
  assert (Hss : StronglySorted (le cmp) srt).
  { apply Sorted_StronglySorted; [|done]. intros ???. apply (le_trans' cmp Hc). }
  destruct (lookup_lt_is_Some_2 srt k) as [z Hz].
  { rewrite <- (Permutation_length Hp). by apply lookup_lt_Some in Hx. }
  exists z. split; [done|].
  destruct (Z.lt_trichotomy (cmp x z) 0) as [Hlt|[Heq|Hgt]]; [exfalso|done|exfalso].
  - set (P := fun w => Z.ltb (cmp w z) 0).
    assert (A1 : (S k <= length (List.filter P a))%nat).
    { apply filter_lower; [apply lookup_lt_Some in Hx; lia|]. intros i w Hi Hw. unfold P.
      apply Z.ltb_lt. destruct (decide (i = k)) as [->|].
      - rewrite Hx in Hw. by simplify_eq.
      - apply (le_lt_trans cmp Hc _ x); [apply (Hlo i); [lia|done]|done]. }
    assert (A2 : (length (List.filter P srt) <= k)%nat).
    { apply filter_upper. intros i w Hi Hw. unfold P. apply Z.ltb_ge.
      destruct (decide (i = k)) as [->|].
      - rewrite Hz in Hw. simplify_eq. rewrite (cmp_refl cmp Hc). lia.
      - apply (ge_of_le cmp Hc). apply (SS_lookup (le cmp) srt k i); [done|lia|done|done]. }
    rewrite (perm_filter_length P _ _ Hp) in A1. lia.
  - set (Q := fun w => Z.leb 0 (cmp z w)).
    assert (A1 : (S k <= length (List.filter Q srt))%nat).
    { apply filter_lower; [apply lookup_lt_Some in Hz; lia|]. intros i w Hi Hw. unfold Q.
      apply Z.leb_le. destruct (decide (i = k)) as [->|].
      - rewrite Hz in Hw. simplify_eq. rewrite (cmp_refl cmp Hc). lia.
      - apply (ge_of_le cmp Hc). apply (SS_lookup (le cmp) srt i k); [done|lia|done|done]. }
    assert (A2 : (length (List.filter Q a) <= k)%nat).
    { apply filter_upper. intros i w Hi Hw. unfold Q. apply Z.leb_gt.
      pose proof (cmp_flip_gt _ _ Hgt) as Hzx.
      destruct (decide (i = k)) as [->|].
      - rewrite Hx in Hw. by simplify_eq.
      - apply (lt_le_trans cmp Hc _ x); [done|apply (Hhi i); [lia|done]]. }
    rewrite (perm_filter_length Q _ _ Hp) in A2. lia.
Qed.

End NthFacts.

(** ** next_permutation *)

Section NextPermFacts.
Context {T : Type} (cmp : T -> T -> Z) (Hc : strict_weak_order cmp).

Ltac list_assoc :=
  rewrite ?app_nil_r, <- ?app_assoc; simpl; rewrite <- ?app_assoc; simpl; reflexivity.

Lemma suffix_loop_spec fuel (a : list T) first l :
  0 <= first <= l -> l < Z.of_nat (length a) -> (Z.to_nat (l - first) < fuel)%nat ->
  exists l0, suffix_loop cmp fuel first l a = Ok l0 a /\ first <= l0 <= l /\
    (forall k x y, l0 <= k < l -> a !! Z.to_nat k = Some x -> a !! Z.to_nat (k + 1) = Some y ->
       0 <= cmp x y) /\
    (first < l0 -> exists x y, a !! Z.to_nat (l0 - 1) = Some x /\ a !! Z.to_nat l0 = Some y /\
       cmp x y < 0).
Proof.
  revert l. induction fuel as [|fuel IH]; intros l H0 Hl Hf; [lia|].
  cbn [suffix_loop].
  destruct (Z.eqb_spec l first) as [->|Hne].
  { exists first. split; [done|]. split; [lia|]. split; [intros; lia|lia]. }
  destruct (lookup_lt_is_Some_2 a (Z.to_nat (l - 1))) as [x Hx]; [lia|].
  destruct (lookup_lt_is_Some_2 a (Z.to_nat l)) as [y Hy]; [lia|].
  rewrite (bind_Ok _ _ _ _ x) by (apply read_Ok; [lia|done]).
  rewrite (bind_Ok _ _ _ _ y) by (apply read_Ok; [lia|done]).
  destruct (Z.geb_spec (cmp x y) 0).
  - destruct (IH (l - 1)) as (l0 & Hrun & Hb & Hall & Hpiv); [lia|lia|lia|].
    exists l0. split; [done|]. split; [lia|]. split; [|done].
    intros k u v Hk Hu Hv. destruct (Z.eq_dec k (l - 1)) as [->|].
    + replace (l - 1 + 1) with l in Hv by lia. congruence.
    + apply (Hall k); [lia|done|done].
  - exists l. split; [done|]. split; [lia|]. split; [intros; lia|].
    intros _. by exists x, y.
Qed.

Lemma swap_target_loop_spec fuel (a : list T) next f :
  0 <= next <= f -> f < Z.of_nat (length a) -> (Z.to_nat (f - next) < fuel)%nat ->
  exists f0, swap_target_loop cmp fuel next f a = Ok f0 a /\ next <= f0 <= f /\
    (forall k x y, f0 < k <= f -> a !! Z.to_nat next = Some x -> a !! Z.to_nat k = Some y ->
       0 <= cmp x y) /\
    (next < f0 -> exists x y, a !! Z.to_nat next = Some x /\ a !! Z.to_nat f0 = Some y /\
       cmp x y < 0).
Proof.
  revert f. induction fuel as [|fuel IH]; intros f H0 Hl Hf; [lia|].
  cbn [swap_target_loop].
  destruct (Z.eqb_spec f next) as [->|Hne].
  { exists next. split; [done|]. split; [lia|]. split; [intros; lia|lia]. }
  destruct (lookup_lt_is_Some_2 a (Z.to_nat next)) as [x Hx]; [lia|].
  destruct (lookup_lt_is_Some_2 a (Z.to_nat f)) as [y Hy]; [lia|].
  rewrite (bind_Ok _ _ _ _ x) by (apply read_Ok; [lia|done]).
  rewrite (bind_Ok _ _ _ _ y) by (apply read_Ok; [lia|done]).
  destruct (Z.geb_spec (cmp x y) 0).
  - destruct (IH (f - 1)) as (f0 & Hrun & Hb & Hall & Hpiv); [lia|lia|lia|].
    exists f0. split; [done|]. split; [lia|]. split; [|done].
    intros k u v Hk Hu Hv. destruct (Z.eq_dec k f) as [->|].
    + congruence.
    + apply (Hall k); [lia|done|done].
  - exists f. split; [done|]. split; [lia|]. split; [intros; lia|].
    intros _. by exists x, y.
Qed.

Lemma reverse_loop_spec fuel (p q r : list T) i :
  Z.to_nat i = length p -> 0 <= i -> (length q < fuel)%nat ->
  reverse_loop fuel i (i + Z.of_nat (length q) - 1) (p ++ q ++ r) = Ok tt (p ++ rev q ++ r).
Proof.
  revert p q r i. induction fuel as [|fuel IH]; intros p q r i Hp Hi Hf; [lia|].
  cbn [reverse_loop].
  destruct (Z.ltb_spec i (i + Z.of_nat (length q) - 1)) as [Hlt|Hge].
  - destruct q as [|x q']; [simpl in Hlt; lia|].
    destruct q' as [|y q'' _] using rev_ind; [simpl in Hlt; lia|].
    set (j := i + Z.of_nat (length (x :: q'' ++ [y])) - 1).
    assert (Hj : Z.to_nat j = (length (p ++ y :: q'') + 0)%nat).
    { subst j. rewrite length_app. simpl. rewrite length_app. simpl. lia. }
    assert (Hx : (p ++ (x :: q'' ++ [y]) ++ r) !! Z.to_nat i = Some x).
    { rewrite Hp, lookup_app_r, Nat.sub_diag by lia. done. }
    assert (Hy : (p ++ (x :: q'' ++ [y]) ++ r) !! Z.to_nat j = Some y).
    { rewrite Hj.
      replace (p ++ (x :: q'' ++ [y]) ++ r) with ((p ++ x :: q'') ++ y :: r)
        by list_assoc.
      rewrite list_lookup_middle; [done|]. rewrite !length_app. simpl. lia. }
    rewrite (bind_Ok _ _ _ _ tt) by (apply swap_Ok; [lia|subst j; lia|exact Hx|exact Hy]).
    replace (<[Z.to_nat j:=x]> (<[Z.to_nat i:=y]> (p ++ (x :: q'' ++ [y]) ++ r)))
      with ((p ++ [y]) ++ q'' ++ (x :: r)).
    2: { rewrite Hp. replace (length p) with (length p + 0)%nat by lia.
         rewrite insert_app_r. simpl.
         replace (y :: (q'' ++ [y]) ++ r) with ((y :: q'') ++ y :: r)
           by list_assoc.
         rewrite Hj.
         replace (p ++ (y :: q'') ++ y :: r) with ((p ++ y :: q'') ++ y :: r) by list_assoc.
         rewrite (insert_app_r (p ++ y :: q'') (y :: r) 0). simpl. list_assoc. }
    replace (j - 1) with (i + 1 + Z.of_nat (length q'') - 1)
      by (subst j; simpl; rewrite length_app; simpl; lia).
    rewrite (IH (p ++ [y]) q'' (x :: r) (i + 1)); [|rewrite length_app; simpl; lia|lia|simpl in Hf; rewrite length_app in Hf; simpl in Hf; lia].
    f_equal. simpl. rewrite rev_app_distr. simpl. rewrite <- !app_assoc. done.
  - assert (length q <= 1)%nat as Hq by lia.
    destruct q as [|x [|]]; simpl in Hq; [done|done|lia].
Qed.

Lemma reverse_spec (p q r : list T) first :
  Z.to_nat first = length p -> 0 <= first ->
  reverse first (first + Z.of_nat (length q)) (p ++ q ++ r) = Ok tt (p ++ rev q ++ r).
Proof.
  intros Hp H0. unfold reverse.
  destruct (Z.eqb_spec first (first + Z.of_nat (length q))) as [E|E].
  - destruct q; [done|simpl in E; lia].
  - apply reverse_loop_spec; [done|done|lia].
Qed.

Lemma Sorted_of_lookup (R : T -> T -> Prop) (l : list T) :
  (forall k u v, l !! k = Some u -> l !! S k = Some v -> R u v) -> Sorted R l.
Proof.
  induction l as [|x l IH]; intros H; constructor.
  - apply IH. intros k u v Hu Hv. by apply (H (S k)).
  - destruct l as [|y l]; constructor. by apply (H 0%nat).
Qed.

(** One call over a whole array: either the array is non-increasing, and
    the call reverses it and returns [false]; or the array splits as
    [p ++ x :: r1 ++ y :: r3] around the pivot [x] before its longest
    non-increasing suffix, [y] is the last element of that suffix above
    [x], and the call swaps [x] and [y], reverses the suffix and returns
    [true]. *)
Lemma next_permutation_cases (a : list T) :
  (Sorted (fun u v => 0 <= cmp u v) a /\
   next_permutation cmp 0 (Z.of_nat (length a)) a = Ok false (rev a)) \/
  (exists p x r1 y r3, a = p ++ x :: r1 ++ y :: r3 /\
     Sorted (fun u v => 0 <= cmp u v) (r1 ++ y :: r3) /\ cmp x y < 0 /\
     Forall (fun z => 0 <= cmp x z) r3 /\
     next_permutation cmp 0 (Z.of_nat (length a)) a = Ok true (p ++ y :: rev (r1 ++ x :: r3))).
Proof.
  destruct (decide (a = [])) as [->|Hne].
  { left. split; [constructor|done]. }
  assert (Hn : 1 <= Z.of_nat (length a)) by (destruct a; [done|simpl; lia]).
  unfold next_permutation. destruct (Z.eqb_spec 0 (Z.of_nat (length a))); [lia|]. cbv zeta.
  destruct (suffix_loop_spec (S (Z.to_nat (Z.of_nat (length a) - 0))) a 0 (Z.of_nat (length a) - 1))
    as (l0 & Hsuf & Hl0 & Hall & Hpiv); [lia|lia|lia|].
  rewrite (bind_Ok _ _ _ _ l0 Hsuf).
  destruct (Z.eqb_spec l0 0) as [->|Hl0ne]; cbn [negb].
  { left. split.
    - apply Sorted_of_lookup. intros k u v Hu Hv. pose proof (lookup_lt_Some _ _ _ Hv).
      apply (Hall (Z.of_nat k)); [lia|by rewrite Nat2Z.id|].
      by replace (Z.to_nat (Z.of_nat k + 1)) with (S k) by lia.
    - pose proof (reverse_spec [] a [] 0 eq_refl ltac:(lia)) as R.
      rewrite !app_nil_l, !app_nil_r, Z.add_0_l in R.
      by rewrite (bind_Ok _ _ _ _ tt R). }
  destruct Hpiv as (x & y0 & Hx & Hy0 & Hxy0); [lia|].
  destruct (swap_target_loop_spec (S (Z.to_nat (Z.of_nat (length a) - 0))) a (l0 - 1)
              (Z.of_nat (length a) - 1)) as (f0 & Hst & Hf0 & Hfall & Hfpiv); [lia|lia|lia|].
  rewrite (bind_Ok _ _ _ _ f0 Hst).
  assert (Hf0l : l0 <= f0).
  { destruct (Z.le_gt_cases l0 f0) as [|Hlt]; [done|]. exfalso.
    pose proof (Hfall l0 x y0 ltac:(lia) Hx Hy0). lia. }
  destruct Hfpiv as (x' & y & Hx' & Hy & Hxy); [lia|].
  rewrite Hx in Hx'. injection Hx' as <-.
  rewrite (bind_Ok _ _ _ (<[Z.to_nat f0 := x]> (<[Z.to_nat (l0 - 1) := y]> a)) tt)
    by (apply swap_Ok; [lia|lia|done|done]).
  set (p := take (Z.to_nat (l0 - 1)) a).
  set (r1 := take (Z.to_nat f0 - Z.to_nat l0) (drop (Z.to_nat l0) a)).
  set (r3 := drop (S (Z.to_nat f0)) a).
  assert (Hd : drop (Z.to_nat l0) a = r1 ++ y :: r3).
  { rewrite <- (take_drop (Z.to_nat f0 - Z.to_nat l0) (drop (Z.to_nat l0) a)) at 1. f_equal.
    rewrite drop_drop.
    replace (Z.to_nat l0 + (Z.to_nat f0 - Z.to_nat l0))%nat with (Z.to_nat f0) by lia.
    by apply drop_S. }
  assert (Ha : a = p ++ x :: r1 ++ y :: r3).
  { rewrite <- (take_drop (Z.to_nat (l0 - 1)) a) at 1. f_equal.
    rewrite (drop_S a x) by done.
    replace (S (Z.to_nat (l0 - 1))) with (Z.to_nat l0) by lia. by rewrite Hd. }
  assert (Hlp : length p = Z.to_nat (l0 - 1)) by (subst p; rewrite length_take; lia).
  assert (Hlr1 : length r1 = (Z.to_nat f0 - Z.to_nat l0)%nat)
    by (subst r1; rewrite length_take, length_drop; lia).
  assert (Hsorted : Sorted (fun u v => 0 <= cmp u v) (r1 ++ y :: r3)).
  { rewrite <- Hd. apply Sorted_of_lookup. intros k u v Hu Hv.
    rewrite lookup_drop in Hu, Hv. pose proof (lookup_lt_Some _ _ _ Hv).
    apply (Hall (Z.of_nat (Z.to_nat l0 + k))); [lia|by rewrite Nat2Z.id|].
    by replace (Z.to_nat (Z.of_nat (Z.to_nat l0 + k) + 1)) with (Z.to_nat l0 + S k)%nat by lia. }
  assert (Hr3 : Forall (fun z => 0 <= cmp x z) r3).
  { apply Forall_forall. intros z Hz. apply list_elem_of_lookup in Hz as [k Hk].
    subst r3. rewrite lookup_drop in Hk. pose proof (lookup_lt_Some _ _ _ Hk).
    apply (Hfall (Z.of_nat (S (Z.to_nat f0) + k))); [lia|done|by rewrite Nat2Z.id]. }
  clearbody p r1 r3. subst a.
  right. exists p, x, r1, y, r3. split; [done|]. split; [done|]. split; [done|]. split; [done|].
  replace (<[Z.to_nat f0 := x]> (<[Z.to_nat (l0 - 1) := y]> (p ++ x :: r1 ++ y :: r3)))
    with ((p ++ [y]) ++ (r1 ++ x :: r3) ++ []).
  2: { rewrite <- Hlp. replace (length p) with (length p + 0)%nat by lia.
       rewrite insert_app_r. simpl.
       replace (Z.to_nat f0) with (length (p ++ y :: r1) + 0)%nat
         by (rewrite length_app; simpl; lia).
       replace (p ++ y :: r1 ++ y :: r3) with ((p ++ y :: r1) ++ y :: r3) by list_assoc.
       rewrite insert_app_r. simpl. list_assoc. }
  replace (Z.of_nat (length (p ++ x :: r1 ++ y :: r3)))
    with (l0 + Z.of_nat (length (r1 ++ x :: r3)))
    by (rewrite !length_app; simpl; rewrite length_app; simpl; lia).
  rewrite (bind_Ok _ _ _ _ tt) by (apply reverse_spec; [rewrite length_app; simpl; lia|lia]).
  cbv [ret]. f_equal. rewrite app_nil_r. list_assoc.
Qed.

(** *** Counting and ordering helpers *)

Lemma filter_length_le (P : T -> bool) (l : list T) :
  (length (List.filter P l) <= length l)%nat.
Proof. induction l as [|z l IH]; simpl; [lia|]. destruct (P z); simpl; lia. Qed.

Lemma filter_length_app (P : T -> bool) (l1 l2 : list T) :
  length (List.filter P (l1 ++ l2)) = (length (List.filter P l1) + length (List.filter P l2))%nat.
Proof. induction l1 as [|z l IH]; simpl; [done|]. destruct (P z); simpl; lia. Qed.

Lemma filter_length_all (P : T -> bool) (l : list T) :
  Forall (fun z => P z = true) l -> length (List.filter P l) = length l.
Proof. induction 1 as [|z l Hz _ IH]; simpl; [done|]. rewrite Hz. simpl. lia. Qed.

Lemma filter_length_none (P : T -> bool) (l : list T) :
  Forall (fun z => P z = false) l -> length (List.filter P l) = O.
Proof. induction 1 as [|z l Hz _ IH]; simpl; [done|]. by rewrite Hz. Qed.

Lemma filter_length_mono (P Q : T -> bool) (l : list T) :
  (forall z, z ∈ l -> P z = true -> Q z = true) ->
  (length (List.filter P l) <= length (List.filter Q l))%nat.
Proof.
  induction l as [|z l IH]; intros H; simpl; [lia|].
  assert (IH' : (length (List.filter P l) <= length (List.filter Q l))%nat).
  { apply IH. intros w Hw. apply H. by right. }
  destruct (P z) eqn:Ep; [rewrite (H z); [simpl; lia|by left|done]|].
  destruct (Q z); simpl; lia.
Qed.

Lemma filter_length_mono_lt (P Q : T -> bool) (l : list T) w :
  (forall z, z ∈ l -> P z = true -> Q z = true) -> w ∈ l -> P w = false -> Q w = true ->
  (length (List.filter P l) < length (List.filter Q l))%nat.
Proof.
  induction l as [|z l IH]; intros H Hw Pw Qw; [by apply elem_of_nil in Hw|].
  assert (Hmono : (length (List.filter P l) <= length (List.filter Q l))%nat).
  { apply filter_length_mono. intros u Hu. apply H. by right. }
  apply elem_of_cons in Hw as [->|Hw]; simpl.
  - rewrite Pw, Qw. simpl. lia.
  - assert (IH' : (length (List.filter P l) < length (List.filter Q l))%nat).
    { apply IH; [|done|done|done]. intros u Hu. apply H. by right. }
    destruct (P z) eqn:Ep; [rewrite (H z); [simpl; lia|by left|done]|].
    destruct (Q z); simpl; lia.
Qed.

Lemma SS_app (R : T -> T -> Prop) (l1 l2 : list T) :
  StronglySorted R l1 -> StronglySorted R l2 -> (forall u v, u ∈ l1 -> v ∈ l2 -> R u v) ->
  StronglySorted R (l1 ++ l2).
Proof.
  induction 1 as [|z l Hs IH Hf]; intros H2 H; simpl; [done|].
  constructor.
  - apply IH; [done|]. intros u v Hu Hv. apply H; [by right|done].
  - apply Forall_app. split; [done|]. apply Forall_forall. intros v Hv. apply H; [by left|done].
Qed.

Lemma SS_app_inv (R : T -> T -> Prop) (l1 l2 : list T) :
  StronglySorted R (l1 ++ l2) ->
  StronglySorted R l1 /\ StronglySorted R l2 /\ (forall u v, u ∈ l1 -> v ∈ l2 -> R u v).
Proof.
  induction l1 as [|z l IH]; intros H; simpl in H.
  - split; [constructor|]. split; [done|]. intros u v Hu. by apply elem_of_nil in Hu.
  - inversion H as [|? ? Hs Hf]; subst. apply Forall_app in Hf as [Hf1 Hf2].
    destruct (IH Hs) as (H1 & H2 & H12). split; [by constructor|]. split; [done|].
    intros u v Hu Hv. apply elem_of_cons in Hu as [->|Hu].
    + rewrite Forall_forall in Hf2. by apply Hf2.
    + by apply H12.
Qed.

Lemma SS_rev (R : T -> T -> Prop) (l : list T) :
  StronglySorted R l -> StronglySorted (fun u v => R v u) (rev l).
Proof.
  induction 1 as [|z l Hs IH Hf]; simpl; [constructor|].
  apply SS_app; [done|repeat constructor|].
  intros u v Hu Hv. apply list_elem_of_singleton in Hv as ->.
  rewrite Forall_forall in Hf. apply Hf.
  apply list_elem_of_In in Hu. apply in_rev in Hu. by apply list_elem_of_In.
Qed.

Lemma cmp_distinct_perm (a b : list T) :
  a ≡ₚ b -> cmp_distinct cmp a -> cmp_distinct cmp b.
Proof.
  intros Hp (Hnd & Hd). split.
  - by rewrite <- Hp.
  - intros x y Hx Hy. apply Hd; by rewrite Hp.
Qed.

Lemma cmp_distinct_app_r (l1 l2 : list T) :
  cmp_distinct cmp (l1 ++ l2) -> cmp_distinct cmp l2.
Proof.
  intros (Hnd & Hd). split.
  - by apply NoDup_app in Hnd as (_ & _ & ?).
  - intros x y Hx Hy. apply Hd; apply elem_of_app; by right.
Qed.

Lemma cmp_distinct_cons (x : T) (l : list T) :
  cmp_distinct cmp (x :: l) -> cmp_distinct cmp l /\ forall z, z ∈ l -> cmp z x <> 0.
Proof.
  intros (Hnd & Hd). apply NoDup_cons in Hnd as [Hx Hnd]. split.
  - split; [done|]. intros u v Hu Hv. apply Hd; by right.
  - intros z Hz E. assert (z = x) as -> by (apply Hd; [by right|by left|done]). done.
Qed.

Lemma SS_impl (R R' : T -> T -> Prop) (l : list T) :
  (forall u v, R u v -> R' u v) -> StronglySorted R l -> StronglySorted R' l.
Proof.
  intros HR. induction 1 as [|z l Hs IH Hf]; constructor; [done|].
  rewrite Forall_forall in Hf |- *. intros v Hv. by apply HR, Hf.
Qed.

Lemma cmp_lt_of_ge x z : 0 <= cmp x z -> cmp z x <> 0 -> cmp z x < 0.
Proof.
  intros H1 H2. destruct (Z.lt_ge_cases (cmp z x) 0) as [|H3]; [done|]. exfalso.
  apply (cmp_flip_le cmp Hc) in H3. assert (E : cmp x z = 0) by lia.
  by apply (cmp_flip_eq cmp Hc) in E.
Qed.

(** *** The lexicographic rank *)

Lemma lex_rank_lt (a : list T) : (lex_rank cmp a < fact (length a))%nat.
Proof.
  induction a as [|x r IH]; simpl; [lia|].
  pose proof (filter_length_le (fun z => Z.ltb (cmp z x) 0) r). nia.
Qed.

Lemma lex_rank_desc (a : list T) :
  StronglySorted (fun u v => 0 <= cmp u v) a -> cmp_distinct cmp a ->
  lex_rank cmp a = (fact (length a) - 1)%nat.
Proof.
  induction 1 as [|x r Hs IH Hf]; intros Hd; simpl; [done|].
  destruct (cmp_distinct_cons _ _ Hd) as [Hd' Hne].
  rewrite IH by done. rewrite filter_length_all.
  2: { rewrite Forall_forall in Hf |- *. intros z Hz. apply Z.ltb_lt.
       apply cmp_lt_of_ge; [by apply Hf|by apply Hne]. }
  pose proof (lt_O_fact (length r)). lia.
Qed.

Lemma lex_rank_asc (a : list T) :
  StronglySorted (fun u v => 0 <= cmp v u) a -> lex_rank cmp a = O.
Proof.
  induction 1 as [|x r Hs IH Hf]; simpl; [done|].
  rewrite IH, filter_length_none; [lia|].
  rewrite Forall_forall in Hf |- *. intros z Hz. specialize (Hf z Hz). apply Z.ltb_ge. lia.
Qed.

Lemma lex_rank_app_perm (p q q' : list T) :
  q ≡ₚ q' ->
  (lex_rank cmp (p ++ q) + lex_rank cmp q' = lex_rank cmp (p ++ q') + lex_rank cmp q)%nat.
Proof.
  intros Hq. induction p as [|x p IH]; simpl; [lia|].
  rewrite (perm_filter_length _ (p ++ q) (p ++ q')) by (by apply Permutation_app_head).
  rewrite (Permutation_length (Permutation_app_head p Hq)). lia.
Qed.

(** A call that returns [true] moves to the next rank. *)
Lemma lex_rank_step p x r1 y r3 :
  cmp_distinct cmp (p ++ x :: r1 ++ y :: r3) ->
  Sorted (fun u v => 0 <= cmp u v) (r1 ++ y :: r3) -> cmp x y < 0 ->
  Forall (fun z => 0 <= cmp x z) r3 ->
  lex_rank cmp (p ++ y :: rev (r1 ++ x :: r3)) = S (lex_rank cmp (p ++ x :: r1 ++ y :: r3)).
Proof.
  intros Hd Hs Hxy Hr3.
  assert (Hss : StronglySorted (fun u v => 0 <= cmp u v) (r1 ++ y :: r3)).
  { apply Sorted_StronglySorted; [|done]. intros u v w. apply (ge_trans cmp Hc). }
  destruct (SS_app_inv _ _ _ Hss) as (Hs1 & Hs2 & H12).
  inversion Hs2 as [|? ? Hs3 Hy3]; subst.
  pose proof (cmp_distinct_app_r _ _ Hd) as Hd1.
  destruct (cmp_distinct_cons _ _ Hd1) as [Hdr Hnx].
  assert (F1 : forall z, z ∈ r1 -> 0 <= cmp z y).
  { intros z Hz. apply H12; [done|by left]. }
  assert (F3 : forall z, z ∈ r3 -> cmp z x < 0).
  { intros z Hz. rewrite Forall_forall in Hr3. apply cmp_lt_of_ge; [by apply Hr3|].
    apply Hnx. apply elem_of_app. right. by right. }
  assert (Hyx : 0 < cmp y x) by (by apply (cmp_flip_lt cmp Hc)).
  assert (Hq : x :: r1 ++ y :: r3 ≡ₚ y :: rev (r1 ++ x :: r3)).
  { rewrite <- Permutation_rev. solve_Permutation. }
  pose proof (lex_rank_app_perm p _ _ Hq) as Happ.
  assert (Hrank : lex_rank cmp (y :: rev (r1 ++ x :: r3)) = S (lex_rank cmp (x :: r1 ++ y :: r3)));
    [|lia].
  assert (Hlen : length (rev (r1 ++ x :: r3)) = length (r1 ++ y :: r3))
    by (rewrite length_rev, !length_app; done).
  simpl. rewrite Hlen.
  rewrite (lex_rank_desc _ Hss Hdr).
  rewrite lex_rank_asc.
  2: { apply (SS_rev (fun u v => 0 <= cmp u v)). apply SS_app; [done| |].
       - constructor; [done|done].
       - intros u v Hu Hv. apply elem_of_cons in Hv as [->|Hv].
         + apply (ge_trans cmp Hc _ y); [by apply F1|lia].
         + apply H12; [done|by right]. }
  rewrite (perm_filter_length _ (rev (r1 ++ x :: r3)) (r1 ++ x :: r3))
    by (symmetry; apply Permutation_rev).
  rewrite !filter_length_app. simpl.
  rewrite (proj2 (Z.ltb_lt (cmp x y) 0) Hxy), (proj2 (Z.ltb_ge (cmp y x) 0)) by lia.
  simpl.
  rewrite (filter_length_none _ r1), (filter_length_none _ r1), (filter_length_all _ r3),
    (filter_length_all _ r3).
  - pose proof (lt_O_fact (length (r1 ++ y :: r3))). nia.
  - apply Forall_forall. intros z Hz. apply Z.ltb_lt. exact (F3 z Hz).
  - apply Forall_forall. intros z Hz. apply Z.ltb_lt.
    apply (le_lt_trans cmp Hc _ x); [unfold le; pose proof (F3 z Hz); lia|done].
  - apply Forall_forall. intros z Hz. apply Z.ltb_ge.
    destruct (Z.lt_ge_cases (cmp z x) 0) as [H|H]; [|done]. exfalso.
    pose proof (le_lt_trans cmp Hc z x y ltac:(unfold le; lia) Hxy). pose proof (F1 z Hz). lia.
  - apply Forall_forall. intros z Hz. apply Z.ltb_ge. by apply F1.
Qed.

(** Two rearrangements of the same distinct elements with the same rank
    are equal. *)
Lemma lex_rank_inj (a b : list T) :
  a ≡ₚ b -> cmp_distinct cmp a -> lex_rank cmp a = lex_rank cmp b -> a = b.
Proof.
  revert b. induction a as [|x r IH]; intros b Hp Hd Hr.
  { symmetry. by apply Permutation_nil. }
  destruct b as [|x' r']; [apply Permutation_length in Hp; done|].
  pose proof (Permutation_length Hp) as Hlen. simpl in Hlen. injection Hlen as Hlen.
  simpl in Hr. rewrite <- Hlen in Hr.
  pose proof (lex_rank_lt r) as Hlt. pose proof (lex_rank_lt r') as Hlt'. rewrite <- Hlen in Hlt'.
  set (c := length (List.filter (fun z => Z.ltb (cmp z x) 0) r)) in Hr.
  set (c' := length (List.filter (fun z => Z.ltb (cmp z x') 0) r')) in Hr.
  assert (Hcc : c = c').
  { destruct (Nat.lt_trichotomy c c') as [H|[H|H]]; [exfalso; nia|done|exfalso; nia]. }
  assert (Hcx : length (List.filter (fun z => Z.ltb (cmp z x) 0) (x :: r)) = c).
  { simpl. rewrite (cmp_refl cmp Hc). done. }
  assert (Hcx' : length (List.filter (fun z => Z.ltb (cmp z x') 0) (x' :: r')) = c').
  { simpl. rewrite (cmp_refl cmp Hc). done. }
  assert (Hmono : forall u v (l : list T), cmp u v < 0 -> u ∈ l ->
     (length (List.filter (fun z => Z.ltb (cmp z u) 0) l) <
      length (List.filter (fun z => Z.ltb (cmp z v) 0) l))%nat).
  { intros u v l Huv Hu. apply (filter_length_mono_lt _ _ _ u).
    - intros z _ Hz. apply Z.ltb_lt in Hz. apply Z.ltb_lt.
      apply (le_lt_trans cmp Hc _ u); [unfold le; lia|done].
    - done.
    - apply Z.ltb_ge. rewrite (cmp_refl cmp Hc). lia.
    - by apply Z.ltb_lt. }
  assert (Hxx : cmp x x' = 0).
  { destruct (Z.lt_trichotomy (cmp x x') 0) as [H|[H|H]]; [exfalso| done |exfalso].
    - pose proof (Hmono x x' (x :: r) H ltac:(by left)) as M.
      rewrite Hcx, (perm_filter_length _ _ _ Hp), Hcx' in M. lia.
    - apply (cmp_flip_gt cmp Hc) in H.
      pose proof (Hmono x' x (x' :: r') H ltac:(by left)) as M.
      rewrite Hcx', <- (perm_filter_length _ _ _ Hp), Hcx in M. lia. }
  assert (x = x') as <-.
  { apply (proj2 Hd); [by left|rewrite Hp; by left|done]. }
  f_equal. apply IH.
  - by apply Permutation_cons_inv in Hp.
  - by apply (cmp_distinct_cons x).
  - subst c c'. rewrite Hcc in Hr. lia.
Qed.

Lemma lex_lt_step p x r y r' :
  cmp x y < 0 -> lex_lt cmp (p ++ x :: r) (p ++ y :: r').
Proof.
  intros H. induction p as [|z p IH]; simpl; [by left|].
  right. split; [apply (cmp_refl cmp Hc)|done].
Qed.

(** Non-decreasing rearrangements of distinct elements are equal. *)
Lemma sorted_perm_unique (l1 l2 : list T) :
  StronglySorted (fun u v => 0 <= cmp v u) l1 -> StronglySorted (fun u v => 0 <= cmp v u) l2 ->
  l1 ≡ₚ l2 -> cmp_distinct cmp l1 -> l1 = l2.
Proof.
  revert l2. induction l1 as [|x1 t1 IH]; intros l2 H1 H2 Hp Hd.
  { symmetry. by apply Permutation_nil. }
  destruct l2 as [|x2 t2]; [apply Permutation_length in Hp; done|].
  inversion H1 as [|? ? Hs1 Hf1]; inversion H2 as [|? ? Hs2 Hf2]; subst.
  assert (Hx : x1 = x2).
  { assert (Hx2 : x2 ∈ x1 :: t1) by (rewrite Hp; by left).
    assert (Hx1 : x1 ∈ x2 :: t2) by (rewrite <- Hp; by left).
    apply elem_of_cons in Hx2 as [->|Hx2]; [done|].
    apply elem_of_cons in Hx1 as [->|Hx1]; [done|].
    rewrite Forall_forall in Hf1, Hf2. specialize (Hf1 _ Hx2). specialize (Hf2 _ Hx1).
    apply (cmp_flip_le cmp Hc) in Hf1.
    apply (proj2 Hd); [by left|rewrite Hp; by left|lia]. }
  subst. f_equal. apply IH; [done|done|by apply Permutation_cons_inv in Hp|].
  by apply (cmp_distinct_cons x2).
Qed.

Lemma ascending_distinct (l : list T) :
  Sorted (fun u v => cmp u v < 0) l ->
  StronglySorted (fun u v => 0 <= cmp v u) l /\ cmp_distinct cmp l.
Proof.
  intros Hs.
  assert (Hss : StronglySorted (fun u v => cmp u v < 0) l).
  { apply Sorted_StronglySorted; [|done]. intros u v w H1 H2.
    apply (le_lt_trans cmp Hc u v w); [unfold le; lia|done]. }
  split.
  { apply (SS_impl _ _ _ (fun u v H => Z.lt_le_incl _ _ (cmp_flip_lt cmp Hc u v H)) Hss). }
  clear Hs. induction Hss as [|x l Hs IH Hf].
  { split; [constructor|]. intros u v Hu. by apply elem_of_nil in Hu. }
  destruct IH as [Hnd Hd]. rewrite Forall_forall in Hf. split.
  - apply NoDup_cons. split; [|done]. intros Hx. specialize (Hf x Hx).
    rewrite (cmp_refl cmp Hc) in Hf. lia.
  - intros u v Hu Hv E.
    apply elem_of_cons in Hu as [->|Hu]; apply elem_of_cons in Hv as [->|Hv].
    + done.
    + specialize (Hf v Hv). lia.
    + specialize (Hf u Hu). apply (cmp_flip_lt cmp Hc) in Hf. lia.
    + by apply Hd.
Qed.

Lemma next_permutation_perm (p : list T) x r1 y r3 :
  p ++ y :: rev (r1 ++ x :: r3) ≡ₚ p ++ x :: r1 ++ y :: r3.
Proof. apply Permutation_app_head. rewrite <- Permutation_rev. solve_Permutation. Qed.

(** The run of the test driver from a rearrangement [a] of rank
    [fact n - 1 - k], for [k + 1] calls. *)
Lemma np_states_spec (l : list T) k (a : list T) :
  StronglySorted (fun u v => 0 <= cmp v u) l -> cmp_distinct cmp l -> a ≡ₚ l ->
  (lex_rank cmp a + S k = fact (length l))%nat ->
  length (np_states cmp (S k) a) = S k /\
  (forall i b, np_states cmp (S k) a !! i = Some b ->
     b ≡ₚ l /\ lex_rank cmp b = (lex_rank cmp a + i)%nat) /\
  (forall i b b', np_states cmp (S k) a !! i = Some b -> np_states cmp (S k) a !! S i = Some b' ->
     next_permutation cmp 0 (Z.of_nat (length l)) b = Ok true b' /\ lex_lt cmp b b') /\
  (exists b, np_states cmp (S k) a !! k = Some b /\
     next_permutation cmp 0 (Z.of_nat (length l)) b = Ok false l).
Proof.
  intros Hl Hdl. revert a. induction k as [|k IH]; intros a Ha Hr;
    (assert (Hn : length a = length l) by (by apply Permutation_length));
    (assert (Hda : cmp_distinct cmp a) by (apply (cmp_distinct_perm l); [by symmetry|done]));
    destruct (next_permutation_cases a)
      as [(Hs & Hrun)|(p & x & r1 & y & r3 & Ea & Hs & Hxy & Hr3 & Hrun)];
    rewrite Hn in Hrun.
  - assert (Hrev : rev a = l).
    { apply sorted_perm_unique.
      - apply (SS_rev (fun u v => 0 <= cmp u v)), Sorted_StronglySorted; [|done].
        intros u v w. apply (ge_trans cmp Hc).
      - done.
      - by rewrite <- Permutation_rev.
      - apply (cmp_distinct_perm a); [apply Permutation_rev|done]. }
    rewrite Hrev in Hrun.
    cbn [np_states]. rewrite Hn, Hrun. split; [done|]. split; [|split].
    + intros i b Hb. apply list_lookup_singleton_Some in Hb as [-> <-]. split; [done|lia].
    + intros i b b' _ Hb'. apply list_lookup_singleton_Some in Hb' as [? _]. lia.
    + by exists a.
  - exfalso. subst a.
    pose proof (lex_rank_step p x r1 y r3 Hda Hs Hxy Hr3) as E.
    pose proof (lex_rank_lt (p ++ y :: rev (r1 ++ x :: r3))) as Hlt.
    rewrite (Permutation_length (next_permutation_perm p x r1 y r3)), Hn in Hlt. lia.
  - exfalso. rewrite lex_rank_desc in Hr; [|by apply Sorted_StronglySorted; [intros u v w; apply (ge_trans cmp Hc)|]|done].
    rewrite Hn in Hr. pose proof (lt_O_fact (length l)). lia.
  - set (a' := p ++ y :: rev (r1 ++ x :: r3)).
    assert (Ha' : a' ≡ₚ l) by (subst a'; rewrite next_permutation_perm, <- Ea; done).
    assert (Hr' : lex_rank cmp a' = S (lex_rank cmp a)) by (subst a'; rewrite Ea; apply lex_rank_step; [rewrite <- Ea|..]; done).
    destruct (IH a' Ha' ltac:(lia)) as (IHlen & IHb & IHpair & IHlast).
    assert (Hst : np_states cmp (S (S k)) a = a :: np_states cmp (S k) a').
    { cbn [np_states]. rewrite Hn, Hrun. done. }
    assert (Hhd : np_states cmp (S k) a' !! 0%nat = Some a') by (cbn [np_states]; done).
    rewrite Hst. set (ss := np_states cmp (S k) a') in *. clearbody ss.
    split; [cbn [length]; by rewrite IHlen|]. split; [|split].
    + intros [|i] b Hb; simpl in Hb.
      * injection Hb as <-. split; [done|lia].
      * destruct (IHb i b Hb) as [? ->]. split; [done|lia].
    + intros [|i] b b' Hb Hb'; simpl in Hb, Hb'.
      * injection Hb as <-. rewrite Hhd in Hb'. injection Hb' as <-.
        split; [done|]. subst a'. rewrite Ea. by apply lex_lt_step.
      * by apply (IHpair i).
    + destruct IHlast as (b & Hb & Hbrun). exists b. split; [done|done].
Qed.

End NextPermFacts.

(** ** Binary search on sorted ranges *)

Section SplitFacts.
Context {T : Type}.

(** A predicate that is never true after being false on
    [first, first + m) splits that range at some [k]. *)
Lemma monotone_split (pred : T -> bool) (l : list T) first m :
  0 <= first -> first + Z.of_nat m <= Z.of_nat (length l) ->
  (forall i j x y, first <= i < j -> j < first + Z.of_nat m ->
     l !! Z.to_nat i = Some x -> l !! Z.to_nat j = Some y -> pred y = true -> pred x = true) ->
  exists k, first <= k <= first + Z.of_nat m /\
    (forall i x, first <= i < k -> l !! Z.to_nat i = Some x -> pred x = true) /\
    (forall i x, k <= i < first + Z.of_nat m -> l !! Z.to_nat i = Some x -> pred x = false).
Proof.
  intros H0. induction m as [|m IH]; intros Hlen Hmono.
  { exists first. split; [lia|]. split; intros i x Hi; lia. }
  destruct IH as (k & Hk & Ht & Hf); [lia|intros i j x y Hij Hj; apply Hmono; lia|].
  destruct (lookup_lt_is_Some_2 l (Z.to_nat (first + Z.of_nat m))) as [y Hy]; [lia|].
  destruct (pred y) eqn:Hpy.
  - exists (first + Z.of_nat (S m)). split; [lia|]. split; [|intros; lia].
    intros i x Hi Hx. destruct (Z.eq_dec i (first + Z.of_nat m)) as [->|].
    + rewrite Hy in Hx. by simplify_eq.
    + apply (Hmono i (first + Z.of_nat m) x y); [lia|lia|done|done|done].
  - exists k. split; [lia|]. split; [done|].
    intros i x Hi Hx. destruct (Z.eq_dec i (first + Z.of_nat m)) as [->|].
    + rewrite Hy in Hx. by simplify_eq.
    + apply (Hf i); [lia|done].
Qed.

(** [partition_point] on a range where the predicate is never true after
    being false returns the split point. *)
Lemma partition_point_split (pred : T -> bool) (l : list T) first last :
  0 <= first <= last -> last <= Z.of_nat (length l) ->
  (forall i j x y, first <= i < j -> j < last ->
     l !! Z.to_nat i = Some x -> l !! Z.to_nat j = Some y -> pred y = true -> pred x = true) ->
  exists p, partition_point pred first last l = Ok p l /\ first <= p <= last /\
    (forall i x, first <= i < p -> l !! Z.to_nat i = Some x -> pred x = true) /\
    (forall i x, p <= i < last -> l !! Z.to_nat i = Some x -> pred x = false).
Proof.
  intros H0 Hlen Hmono.
  destruct (monotone_split pred l first (Z.to_nat (last - first))) as (k & Hk & Ht & Hf);
    [lia|lia|intros i j x y Hij Hj; apply Hmono; lia|].
  unfold partition_point, partition_point_n.
  destruct (partition_point_loop_spec pred l (S (Z.to_nat (last - first))) first (last - first))
    as (p & Hrun & Hp & Huniq); [lia..|].
  assert (p = k) as ->.
  { apply Huniq; [lia| |]; intros i x Hi; [apply Ht|apply Hf]; lia. }
  exists k. split; [done|]. split; [lia|]. split; intros i x Hi; [apply Ht|apply Hf]; lia.
Qed.

End SplitFacts.

Section BoundFacts.
Context {T : Type} (cmp : T -> T -> Z) (Hc : strict_weak_order cmp).

Lemma sorted_pairs (l : list T) i j x y :
  Sorted (le cmp) l -> 0 <= i < j -> l !! Z.to_nat i = Some x -> l !! Z.to_nat j = Some y ->
  le cmp x y.
Proof.
  intros Hs Hij Hx Hy. apply (SS_lookup (le cmp) l (Z.to_nat i) (Z.to_nat j)); [|lia|done|done].
  apply Sorted_StronglySorted; [|done]. intros u v w. apply (le_trans' cmp Hc).
Qed.

Lemma lower_bound_seg (l : list T) first last value :
  Sorted (le cmp) l -> 0 <= first <= last -> last <= Z.of_nat (length l) ->
  exists p, lower_bound cmp first last value l = Ok p l /\ first <= p <= last /\
    (forall i x, first <= i < p -> l !! Z.to_nat i = Some x -> cmp x value < 0) /\
    (forall i x, p <= i < last -> l !! Z.to_nat i = Some x -> 0 <= cmp x value).
Proof.
  intros Hs H0 Hlen. unfold lower_bound.
  destruct (partition_point_split (_lower_bound_predicate cmp value) l first last)
    as (p & Hrun & Hp & Ht & Hf); [lia|lia| |].
  - unfold _lower_bound_predicate. intros i j x y Hij Hj Hx Hy Hpy.
    apply Z.ltb_lt in Hpy. apply Z.ltb_lt.
    apply (le_lt_trans cmp Hc _ y); [apply (sorted_pairs l i j); [done|lia|done|done]|done].
  - exists p. split; [done|]. split; [done|]. unfold _lower_bound_predicate in Ht, Hf.
    split; intros i x Hi Hx; [apply Z.ltb_lt; by apply (Ht i)|apply Z.ltb_ge; by apply (Hf i)].
Qed.

Lemma upper_bound_seg (l : list T) first last value :
  Sorted (le cmp) l -> 0 <= first <= last -> last <= Z.of_nat (length l) ->
  exists p, upper_bound cmp first last value l = Ok p l /\ first <= p <= last /\
    (forall i x, first <= i < p -> l !! Z.to_nat i = Some x -> 0 <= cmp value x) /\
    (forall i x, p <= i < last -> l !! Z.to_nat i = Some x -> cmp value x < 0).
Proof.
  intros Hs H0 Hlen. unfold upper_bound.
  destruct (partition_point_split (_upper_bound_predicate cmp value) l first last)
    as (p & Hrun & Hp & Ht & Hf); [lia|lia| |].
  - unfold _upper_bound_predicate. intros i j x y Hij Hj Hx Hy Hpy.
    apply Z.geb_le in Hpy. apply Z.geb_le.
    apply (ge_trans cmp Hc _ y); [done|]. apply (ge_of_le cmp Hc).
    apply (sorted_pairs l i j); [done|lia|done|done].
  - exists p. split; [done|]. split; [done|]. unfold _upper_bound_predicate in Ht, Hf.
    split; intros i x Hi Hx; [apply Z.geb_le; by apply (Ht i)|].
    apply (Hf i) in Hx; [|done]. rewrite Z.geb_leb in Hx. apply Z.leb_gt in Hx. lia.
Qed.

End BoundFacts.

(** ** Heap sort *)

Section HeapSortFacts.
Context {T : Type} (cmp : T -> T -> Z) (Hc : strict_weak_order cmp).

(** A swap changes the array only at its two positions. *)
Lemma swap_frame (s s' : list T) i j u :
  swap i j s = Ok u s' ->
  0 <= i /\ 0 <= j /\ forall k, k <> Z.to_nat i -> k <> Z.to_nat j -> s' !! k = s !! k.
Proof.
  unfold swap, bind, read, write. intros H.
  destruct (Z.ltb_spec i 0); [discriminate|]. destruct (s !! Z.to_nat i) as [vi|] eqn:Ei; [|discriminate].
  destruct (Z.ltb_spec j 0); [discriminate|]. destruct (s !! Z.to_nat j) as [vj|] eqn:Ej; [|discriminate].
  destruct (Z.ltb_spec i 0); [lia|]. destruct (Nat.ltb_spec (Z.to_nat i) (length s)); [|discriminate].
  destruct (Z.ltb_spec j 0); [lia|].
  destruct (Nat.ltb_spec (Z.to_nat j) (length (<[Z.to_nat i:=vj]> s))); [|discriminate].
  injection H as _ <-. split; [done|]. split; [done|]. intros k Hi Hj.
  rewrite !list_lookup_insert_ne by done. done.
Qed.

(** The sift-down of [pop_heap_n] never writes at or after [first + count]. *)
Lemma pop_heap_loop_frame fuel first count idx (s s' : list T) :
  0 <= idx -> pop_heap_loop cmp fuel first count idx s = Ok tt s' ->
  forall k, first + count <= Z.of_nat k -> s' !! k = s !! k.
Proof.
  revert idx s. induction fuel as [|fuel IH]; intros idx s H0 H k Hk; [discriminate|].
  cbn [pop_heap_loop] in H.
  destruct (Z.geb_spec (idx * 2 + 1) count); [by injection H as <-|].
  apply bind_read_inv in H as (c & _ & _ & H).
  apply bind_read_inv in H as (e & _ & _ & H).
  assert (Hnext : forall (m : M (option Z)),
            bind m (fun next => match next with
                                | None => ret tt
                                | Some index => let* _ := swap (first + idx) (first + index) in
                                                pop_heap_loop cmp fuel first count index
                                end) s = Ok tt s' ->
            (forall r s1, m s = Ok r s1 -> s1 = s /\
               (r = None \/ exists i, r = Some i /\ idx * 2 + 1 <= i < count)) ->
            s' !! k = s !! k).
  { intros m Hb Hm. unfold bind in Hb. destruct (m s) as [r s1|] eqn:Em; [|discriminate].
    destruct (Hm r s1 eq_refl) as [-> [->|(i & -> & Hi)]]; [by injection Hb as <-|].
    destruct (swap (first + idx) (first + i) s) as [u s2|] eqn:Es; [|discriminate].
    apply swap_frame in Es as (Hs1 & Hs2 & Hs).
    rewrite (IH i s2); [|lia|done|done]. apply Hs; lia. }
  apply (Hnext _ H). intros r s1 Hm.
  destruct (Z.gtb (cmp c e) 0).
  - destruct (Z.ltb_spec (idx * 2 + 1 + 1) count).
    + apply bind_read_inv in Hm as (vr & _ & _ & Hm).
      apply bind_read_inv in Hm as (vc & _ & _ & Hm).
      destruct (Z.gtb (cmp vr vc) 0); injection Hm as <- <-; split; try done;
        right; (eexists; split; [done|lia]).
    + injection Hm as <- <-. split; [done|]. right. eexists; split; [done|lia].
  - destruct (Z.geb_spec (idx * 2 + 1 + 1) count).
    + injection Hm as <- <-. split; [done|]. by left.
    + apply bind_read_inv in Hm as (vr & _ & _ & Hm).
      apply bind_read_inv in Hm as (ve & _ & _ & Hm).
      destruct (Z.leb (cmp vr ve) 0); injection Hm as <- <-; split; try done; [by left|].
      right. eexists; split; [done|lia].
Qed.

(** The root of a heap is not below any element of it. *)
Lemma heap_root_max (a : list T) n r :
  heap_prop cmp a n -> a !! O = Some r ->
  forall i x, 0 <= i < n -> a !! Z.to_nat i = Some x -> 0 <= cmp r x.
Proof.
  intros Hh Hr i. induction i as [i IH] using (well_founded_induction (Z.lt_wf 0)).
  intros x Hi Hx. destruct (Z.eq_dec i 0) as [->|Hi0].
  { change (Z.to_nat 0) with 0%nat in Hx. rewrite Hr in Hx. simplify_eq. rewrite (cmp_refl cmp Hc). lia. }
  pose proof (parent_bounds i ltac:(lia)).
  destruct (lookup_lt_is_Some_2 a (Z.to_nat ((i - 1) / 2))) as [y Hy].
  { apply lookup_lt_Some in Hx. lia. }
  apply (ge_trans cmp Hc _ y).
  - apply (IH ((i - 1) / 2)); [lia|lia|done].
  - apply (Hh i); [lia|done|done].
Qed.

(** [pop_heap_n] over a heap [0, n) moves its root to position [n - 1],
    keeps the rest of [0, n) a heap and leaves [n, ...) in place. *)
Lemma pop_heap_n_moves_root (a : list T) n :
  1 <= n -> n <= Z.of_nat (length a) -> heap_prop cmp a n ->
  exists a', pop_heap_n cmp 0 n a = Ok tt a' /\ heap_prop cmp a' (n - 1) /\ a' ≡ₚ a /\
    a' !! Z.to_nat (n - 1) = a !! O /\
    forall k, n <= Z.of_nat k -> a' !! k = a !! k.
Proof.
  intros Hn Hlen Hh.
  destruct (pop_heap_n_spec cmp Hc a n) as (a' & Hrun & Hh' & Hl); [done|done|done|].
  pose proof (perm_pop_heap_n cmp 0 n a) as Hp. rewrite Hrun in Hp.
  exists a'. split; [done|]. split; [done|]. split; [done|].
  unfold pop_heap_n in Hrun. destruct (Z.leb_spec n 1).
  { injection Hrun as <-. split; [by replace (Z.to_nat (n - 1)) with 0%nat by lia|done]. }
  cbv zeta in Hrun. rewrite Z.add_0_l in Hrun.
  destruct (lookup_lt_is_Some_2 a 0) as [v0 Hv0]; [lia|].
  destruct (lookup_lt_is_Some_2 a (Z.to_nat (n - 1))) as [vm Hvm]; [lia|].
  rewrite (bind_Ok _ _ _ (<[Z.to_nat (n - 1) := v0]> (<[Z.to_nat 0 := vm]> a)) tt) in Hrun
    by (apply swap_Ok; [lia|lia|done|done]).
  pose proof (pop_heap_loop_frame _ 0 (n - 1) 0 _ _ ltac:(lia) Hrun) as Hf.
  split.
  - rewrite Hf by lia. rewrite (lookup_swap a 0 (n - 1) (n - 1) v0 vm) by (lia || done).
    rewrite Z.eqb_refl. by rewrite Hv0.
  - intros k Hk. rewrite Hf by lia.
    replace k with (Z.to_nat (Z.of_nat k)) at 1 by lia.
    rewrite (lookup_swap a 0 (n - 1) (Z.of_nat k) v0 vm) by (lia || done).
    destruct (Z.eqb_spec (Z.of_nat k) (n - 1)); [lia|].
    destruct (Z.eqb_spec (Z.of_nat k) 0); [lia|]. by rewrite Nat2Z.id.
Qed.

(** The loop of [sort_heap] over a heap [h] of [k] elements followed by
    a non-decreasing suffix [sfx] that no element of [h] is above. *)
Lemma sort_heap_loop_spec k (h sfx : list T) :
  length h = k -> heap_prop cmp (h ++ sfx) (Z.of_nat k) -> Sorted (le cmp) sfx ->
  (forall u v, u ∈ h -> v ∈ sfx -> le cmp u v) ->
  exists a', sort_heap_loop cmp k 0 (Z.of_nat k) (h ++ sfx) = Ok tt a' /\
    a' ≡ₚ h ++ sfx /\ Sorted (le cmp) a'.
Proof.
  revert h sfx. induction k as [|k IH]; intros h sfx Hlen Hh Hs Hhs.
  { destruct h; [|done]. by exists sfx. }
  cbn [sort_heap_loop]. unfold pop_heap. rewrite Z.sub_0_r.
  destruct h as [|r h0]; [done|].
  destruct (pop_heap_n_moves_root ((r :: h0) ++ sfx) (Z.of_nat (S k)))
    as (a1 & Hrun & Hh1 & Hp1 & Hroot & Hsfx);
    [lia|rewrite length_app; lia|done|].
  rewrite (bind_Ok _ _ _ _ tt Hrun).
  assert (Hl1 : length a1 = (S k + length sfx)%nat)
    by (rewrite (Permutation_length Hp1), length_app; simpl in *; lia).
  set (h' := take k a1).
  assert (Ha1 : a1 = h' ++ r :: sfx).
  { apply list_eq. intros j. subst h'. destruct (decide (j < k)%nat).
    - rewrite lookup_app_l by (rewrite length_take; lia). by rewrite lookup_take_lt by lia.
    - rewrite lookup_app_r by (rewrite length_take; lia). rewrite length_take.
      replace (Init.Nat.min k (length a1)) with k by lia.
      destruct (decide (j = k)) as [->|].
      + rewrite Nat.sub_diag. replace k with (Z.to_nat (Z.of_nat (S k) - 1)) at 1 by lia.
        by rewrite Hroot.
      + rewrite Hsfx by lia. replace (j - k)%nat with (S (j - S k)) by lia. simpl.
        change (r :: h0 ++ sfx) with ((r :: h0) ++ sfx).
        rewrite lookup_app_r by (simpl in *; lia). f_equal. simpl in *. lia. }
  assert (Hph : h' ++ [r] ≡ₚ r :: h0).
  { apply (Permutation_app_inv_r sfx). rewrite <- app_assoc. simpl. by rewrite <- Ha1. }
  assert (Hmax : forall u, u ∈ r :: h0 -> 0 <= cmp r u).
  { intros u Hu. apply list_elem_of_lookup in Hu as [i Hi]. pose proof (lookup_lt_Some _ _ _ Hi).
    apply (heap_root_max ((r :: h0) ++ sfx) (Z.of_nat (S k)) r Hh eq_refl (Z.of_nat i)); [lia|].
    rewrite Nat2Z.id. by apply lookup_app_l_Some. }
  assert (Hin : forall u, u ∈ h' -> u ∈ r :: h0) by (intros u Hu; rewrite <- Hph; by apply elem_of_app; left).
  rewrite Ha1. replace (Z.of_nat (S k) - 1) with (Z.of_nat k) by lia.
  destruct (IH h' (r :: sfx)) as (a' & Hrun' & Hp' & Hs').
  - subst h'. rewrite length_take. lia.
  - rewrite <- Ha1. by replace (Z.of_nat k) with (Z.of_nat (S k) - 1) by lia.
  - constructor; [done|]. destruct sfx as [|v sfx]; constructor. apply Hhs; [by left|by left].
  - intros u v Hu Hv. apply elem_of_cons in Hv as [->|Hv].
    + unfold le. apply (cmp_flip_le cmp Hc). by apply Hmax, Hin.
    + apply Hhs; [by apply Hin|done].
  - exists a'. split; [done|]. split; [|done]. by rewrite Hp', <- Ha1.
Qed.

(** The loop of [make_heap_n]: each [push_heap_n first n] extends the
    heap by one element. *)
Lemma make_heap_loop_spec k n (a : list T) :
  2 <= n -> n - 1 + Z.of_nat k <= Z.of_nat (length a) -> heap_prop cmp a (n - 1) ->
  exists a', make_heap_loop cmp k 0 n a = Ok tt a' /\ heap_prop cmp a' (n - 1 + Z.of_nat k) /\
    length a' = length a.
Proof.
  revert n a. induction k as [|k IH]; intros n a Hn Hlen Hh.
  { exists a. by rewrite Z.add_0_r. }
  cbn [make_heap_loop].
  destruct (push_heap_n_spec cmp Hc a n) as (a1 & Hrun & Hh1 & Hl1); [lia|lia|done|].
  rewrite (bind_Ok _ _ _ _ tt Hrun).
  destruct (IH (n + 1) a1) as (a' & Hrun' & Hh' & Hl'); [lia|lia|by rewrite Z.add_simpl_r|].
  exists a'. split; [done|]. split; [|lia]. by replace (n - 1 + Z.of_nat (S k)) with (n + 1 - 1 + Z.of_nat k) by lia.
Qed.

End HeapSortFacts.

Section CheckFacts.
Context {T : Type} (cmp : T -> T -> Z).

Lemma lookup_Z_in (l : list T) (i : Z) :
  0 <= i < Z.of_nat (length l) -> exists x, l !! Z.to_nat i = Some x.
Proof. intros Hi. apply lookup_lt_is_Some_2. lia. Qed.

Ltac until_loop_proof l prev next :=
  intros Hp Hn Hf; destruct (Z.eqb_spec next (Z.of_nat (length l))) as [E|E];
  [ exists (Z.of_nat (length l)); split; [reflexivity|]; split; [lia|]; split; intros; exfalso; lia
  | destruct (lookup_Z_in l prev) as [x Hx]; [lia|];
    destruct (lookup_Z_in l next) as [y Hy]; [lia|];
    rewrite (bind_Ok _ _ _ _ _ (read_Ok l prev x ltac:(lia) Hx));
    rewrite (bind_Ok _ _ _ _ _ (read_Ok l next y ltac:(lia) Hy)) ].

Lemma is_sorted_until_loop_spec (l : list T) fuel prev next :
  prev + 1 = next -> 1 <= next <= Z.of_nat (length l) ->
  (Z.to_nat (Z.of_nat (length l) - next) < fuel)%nat ->
  exists p, is_sorted_until_loop cmp fuel prev next (Z.of_nat (length l)) l = Ok p l /\
    next <= p <= Z.of_nat (length l) /\
    (forall i x y, next <= i < p -> l !! Z.to_nat (i - 1) = Some x ->
       l !! Z.to_nat i = Some y -> (cmp x y >? 0) = false) /\
    (p < Z.of_nat (length l) -> exists x y, l !! Z.to_nat (p - 1) = Some x /\
       l !! Z.to_nat p = Some y /\ (cmp x y >? 0) = true).
Proof.
  revert prev next. induction fuel as [|fuel IH]; intros prev next; [intros; exfalso; lia|].
  cbn [is_sorted_until_loop]. until_loop_proof l prev next.
  destruct (cmp x y >? 0) eqn:B.
  - exists next. split; [done|]. split; [lia|]. split; [intros; lia|].
    intros _. exists x, y. replace (next - 1) with prev by lia. done.
  - destruct (IH next (next + 1)) as (p & Hr & Hb & Hall & Hlast); [lia|lia|lia|].
    exists p. split; [done|]. split; [lia|]. split; [|done].
    intros i u v Hi Hu Hv. destruct (Z.eq_dec i next) as [->|Hne].
    + replace (next - 1) with prev in Hu by lia. congruence.
    + apply (Hall i); [lia|done|done].
Qed.

Lemma is_strictly_increasing_until_loop_spec (l : list T) fuel prev next :
  prev + 1 = next -> 1 <= next <= Z.of_nat (length l) ->
  (Z.to_nat (Z.of_nat (length l) - next) < fuel)%nat ->
  exists p, is_strictly_increasing_until_loop cmp fuel prev next (Z.of_nat (length l)) l = Ok p l /\
    next <= p <= Z.of_nat (length l) /\
    (forall i x y, next <= i < p -> l !! Z.to_nat (i - 1) = Some x ->
       l !! Z.to_nat i = Some y -> (cmp x y >=? 0) = false) /\
    (p < Z.of_nat (length l) -> exists x y, l !! Z.to_nat (p - 1) = Some x /\
       l !! Z.to_nat p = Some y /\ (cmp x y >=? 0) = true).
Proof.
  revert prev next. induction fuel as [|fuel IH]; intros prev next; [intros; exfalso; lia|].
  cbn [is_strictly_increasing_until_loop]. until_loop_proof l prev next.
  destruct (cmp x y >=? 0) eqn:B.
  - exists next. split; [done|]. split; [lia|]. split; [intros; lia|].
    intros _. exists x, y. replace (next - 1) with prev by lia. done.
  - destruct (IH next (next + 1)) as (p & Hr & Hb & Hall & Hlast); [lia|lia|lia|].
    exists p. split; [done|]. split; [lia|]. split; [|done].
    intros i u v Hi Hu Hv. destruct (Z.eq_dec i next) as [->|Hne].
    + replace (next - 1) with prev in Hu by lia. congruence.
    + apply (Hall i); [lia|done|done].
Qed.

(** A relation that holds between each pair of neighbours of [l]. *)
Lemma Sorted_lookup_iff (R : T -> T -> Prop) (l : list T) :
  Sorted R l <-> forall k u v, l !! k = Some u -> l !! S k = Some v -> R u v.
Proof.
  split; [|apply Sorted_of_lookup].
  induction 1 as [|x l HS IH Hhd]; intros k u v Hu Hv; [done|].
  destruct k as [|k]; simpl in *.
  - simplify_eq. destruct l as [|y l]; [done|]. simpl in Hv. simplify_eq.
    by inversion Hhd.
  - by apply (IH k).
Qed.

End CheckFacts.

(** ** Predicate scans *)

Section ScanFacts.
Context {T : Type}.

Lemma filter_app_bool (P : T -> bool) (l1 l2 : list T) :
  List.filter P (l1 ++ l2) = List.filter P l1 ++ List.filter P l2.
Proof. induction l1 as [|x l1 IH]; simpl; [done|]. destruct (P x); simpl; by rewrite IH. Qed.

Lemma filter_take_S (P : T -> bool) (l : list T) f x :
  l !! f = Some x ->
  List.filter P (take (S f) l) = List.filter P (take f l) ++ (if P x then [x] else []).
Proof.
  intros Hx. rewrite (take_S_r _ _ _ Hx), filter_app_bool. simpl. by destruct (P x).
Qed.

Lemma insert_mid (l1 l2 : list T) w v :
  <[length l1 := v]> (l1 ++ w :: l2) = l1 ++ v :: l2.
Proof. rewrite insert_app_r_alt by lia. by rewrite Nat.sub_diag. Qed.

Lemma lookup_app_drop (K l : list T) f :
  (length K <= f)%nat -> (K ++ drop (length K) l) !! f = l !! f.
Proof.
  intros Hf. rewrite lookup_app_r by lia. rewrite lookup_drop. f_equal. lia.
Qed.

Lemma find_if_loop_spec (P : T -> bool) (l : list T) k f :
  (f + k = length l)%nat ->
  exists p, find_if_loop P k (Z.of_nat f) l = Ok (Z.of_nat p) l /\ (f <= p <= length l)%nat /\
    (forall i x, (f <= i < p)%nat -> l !! i = Some x -> P x = false) /\
    ((p < length l)%nat -> exists x, l !! p = Some x /\ P x = true).
Proof.
  revert f. induction k as [|k IH]; intros f Hk; cbn [find_if_loop].
  - exists f. split; [done|]. split; [lia|]. split; [intros; lia|intros; lia].
  - destruct (lookup_lt_is_Some_2 l f) as [x Hx]; [lia|].
    rewrite (bind_Ok _ _ _ _ _ (read_Ok l (Z.of_nat f) x ltac:(lia) ltac:(by rewrite Nat2Z.id))).
    destruct (P x) eqn:Px.
    + exists f. split; [done|]. split; [lia|]. split; [intros; lia|]. intros _. by exists x.
    + destruct (IH (S f)) as (p & Hr & Hb & Hall & Hl); [lia|].
      exists p. replace (Z.of_nat f + 1) with (Z.of_nat (S f)) by lia.
      split; [done|]. split; [lia|]. split; [|done].
      intros i y Hi Hy. destruct (decide (i = f)) as [->|]; [congruence|].
      apply (Hall i); [lia|done].
Qed.

Lemma find_if_not_loop_eq (P : T -> bool) k f :
  find_if_not_loop P k f = find_if_loop (fun x => negb (P x)) k f.
Proof. revert f. induction k as [|k IH]; intros f; simpl; [done|]. by rewrite IH. Qed.

(** [is_partitioned] over a whole array: true exactly when no element
    satisfying [P] comes after one that does not. *)
Lemma is_partitioned_spec (P : T -> bool) (l : list T) :
  exists b, is_partitioned P 0 (Z.of_nat (length l)) l = Ok b l /\
    (b = true <-> forall i j x y, (i < j)%nat -> l !! i = Some x -> l !! j = Some y ->
       P x = false -> P y = false).
Proof.
  destruct (find_if_loop_spec (fun x => negb (P x)) l (length l) 0) as (p & Hp & Hb & Hall & Hl); [lia|].
  destruct (find_if_loop_spec P l (length l - p) p) as (q & Hq & Hb' & Hall' & Hl'); [lia|].
  exists (Z.of_nat q =? Z.of_nat (length l)). unfold is_partitioned, find_if_not, find_if.
  rewrite Z.sub_0_r, Nat2Z.id, find_if_not_loop_eq.
  change 0 with (Z.of_nat 0). rewrite (bind_Ok _ _ _ _ _ Hp).
  replace (Z.to_nat (Z.of_nat (length l) - Z.of_nat p)) with (length l - p)%nat by lia.
  rewrite (bind_Ok _ _ _ _ _ Hq). split; [done|].
  destruct (Z.eqb_spec (Z.of_nat q) (Z.of_nat (length l))) as [E|E]; split; intros H; try done.
  - intros i j x y Hij Hx Hy Px. destruct (decide (j < q)%nat) as [Hj|Hj].
    + apply (Hall' j); [|done]. split; [|done].
      destruct (decide (i < p)%nat) as [Hi|Hi].
      * specialize (Hall i x ltac:(lia) Hx). simpl in Hall. rewrite Px in Hall. done.
      * lia.
    + apply lookup_lt_Some in Hy. lia.
  - exfalso. destruct (Hl' ltac:(lia)) as (y & Hy & Py).
    destruct (decide (p < length l)%nat) as [Hp'|Hp'].
    + destruct (Hl Hp') as (x & Hx & Px). apply negb_true_iff in Px.
      destruct (decide (p = q)) as [<-|].
      * congruence.
      * rewrite (H p q x y ltac:(lia) Hx Hy Px) in Py. done.
    + lia.
Qed.


Lemma filter_length_split (P : T -> bool) (l : list T) :
  (length (List.filter P l) + length (List.filter (fun x => negb (P x)) l) = length l)%nat.
Proof. induction l as [|x l IH]; simpl; [done|]. destruct (P x); simpl; lia. Qed.

Lemma partition_swap_loop_spec (P : T -> bool) (l : list T) k f (Tr Fa : list T) :
  (f + k = length l)%nat -> Tr = List.filter P (take f l) ->
  Fa ≡ₚ List.filter (fun x => negb (P x)) (take f l) ->
  exists Fa', partition_swap_loop P k (Z.of_nat (length Tr)) (Z.of_nat f) (Tr ++ Fa ++ drop f l)
      = Ok (Z.of_nat (length (List.filter P l))) (List.filter P l ++ Fa') /\
    Fa' ≡ₚ List.filter (fun x => negb (P x)) l.
Proof.
  revert f Tr Fa. induction k as [|k IH]; intros f Tr Fa Hk HTr HFa; cbn [partition_swap_loop].
  - assert (f = length l) as -> by lia. rewrite take_ge in HTr, HFa by lia.
    rewrite drop_ge by lia. subst Tr. exists Fa. by rewrite app_nil_r.
  - destruct (lookup_lt_is_Some_2 l f) as [x Hx]; [lia|].
    assert (HlenF : (length Tr + length Fa = f)%nat).
    { rewrite HTr, (Permutation_length HFa), filter_length_split, length_take. lia. }
    rewrite (drop_S _ _ _ Hx).
    assert (Hs : (Tr ++ Fa ++ x :: drop (S f) l) !! Z.to_nat (Z.of_nat f) = Some x).
    { rewrite Nat2Z.id, app_assoc, lookup_app_r; rewrite length_app; [|lia].
      by replace (f - (length Tr + length Fa))%nat with 0%nat by lia. }
    rewrite (bind_Ok _ _ _ _ _ (read_Ok _ (Z.of_nat f) x ltac:(lia) Hs)).
    pose proof (filter_take_S P l f x Hx) as ET.
    pose proof (filter_take_S (fun x => negb (P x)) l f x Hx) as EF. cbv beta in EF.
    replace (Z.of_nat f + 1) with (Z.of_nat (S f)) by lia.
    destruct (P x) eqn:Px; try rewrite Px in ET; try rewrite Px in EF; simpl in ET, EF; rewrite ?app_nil_r in ET; rewrite ?app_nil_r in EF.
    + replace (Z.of_nat (length Tr) + 1) with (Z.of_nat (length (Tr ++ [x])))
        by (rewrite length_app; simpl; lia).
      destruct Fa as [|y Fa].
      * assert (length Tr = f) by (simpl in HlenF; lia).
        assert (Hs' : (Tr ++ [] ++ x :: drop (S f) l) !! Z.to_nat (Z.of_nat (length Tr)) = Some x)
          by (rewrite H; done).
        rewrite (bind_Ok _ _ _ _ _ (swap_Ok _ (Z.of_nat (length Tr)) (Z.of_nat f) _ _ ltac:(lia) ltac:(lia) Hs' Hs)).
        rewrite Nat2Z.id in Hs. rewrite !Nat2Z.id, H, (list_insert_id _ f x Hs), (list_insert_id _ f x Hs).
        replace (Tr ++ [] ++ x :: drop (S f) l) with ((Tr ++ [x]) ++ [] ++ drop (S f) l)
          by (by rewrite <- app_assoc).
        apply IH; [lia|by rewrite ET, HTr|by rewrite EF].
      * assert (Hs' : (Tr ++ (y :: Fa) ++ x :: drop (S f) l) !! Z.to_nat (Z.of_nat (length Tr)) = Some y)
          by (rewrite Nat2Z.id, lookup_app_r, Nat.sub_diag by lia; done).
        rewrite (bind_Ok _ _ _ _ _ (swap_Ok _ (Z.of_nat (length Tr)) (Z.of_nat f) _ _ ltac:(lia) ltac:(lia) Hs' Hs)).
        rewrite !Nat2Z.id. cbn [app]. rewrite insert_mid.
        replace f with (length (Tr ++ x :: Fa)) by (rewrite length_app; simpl in *; lia).
        rewrite app_comm_cons, app_assoc, insert_mid.
        replace ((Tr ++ x :: Fa) ++ y :: drop (S (length (Tr ++ x :: Fa))) l)
          with ((Tr ++ [x]) ++ (Fa ++ [y]) ++ drop (S (length (Tr ++ x :: Fa))) l)
          by (by rewrite <- !app_assoc).
        replace (length (Tr ++ x :: Fa)) with f by (rewrite length_app; simpl in *; lia).
        apply IH; [lia|by rewrite ET, HTr|].
        rewrite EF, <- HFa. symmetry. apply Permutation_cons_append.
    + replace (Tr ++ Fa ++ x :: drop (S f) l) with (Tr ++ (Fa ++ [x]) ++ drop (S f) l)
        by (by rewrite <- !app_assoc).
      apply IH; [lia|by rewrite ET, HTr|]. rewrite EF, HFa. done.
Qed.


Lemma remove_if_loop_spec (P : T -> bool) (l : list T) k f (K : list T) :
  (f + k = length l)%nat -> K = List.filter (fun x => negb (P x)) (take f l) ->
  remove_if_loop P k (Z.of_nat (length K)) (Z.of_nat f) (K ++ drop (length K) l) =
  Ok (Z.of_nat (length (List.filter (fun x => negb (P x)) l)))
     (List.filter (fun x => negb (P x)) l ++
      drop (length (List.filter (fun x => negb (P x)) l)) l).
Proof.
  revert f K. induction k as [|k IH]; intros f K Hk HK; cbn [remove_if_loop].
  - assert (f = length l) as -> by lia. rewrite take_ge in HK by lia. by subst K.
  - destruct (lookup_lt_is_Some_2 l f) as [x Hx]; [lia|].
    assert (HKf : (length K <= f)%nat).
    { rewrite HK. etransitivity; [apply filter_length_le|]. rewrite length_take. lia. }
    assert (Hs : (K ++ drop (length K) l) !! Z.to_nat (Z.of_nat f) = Some x)
      by (rewrite Nat2Z.id, lookup_app_drop; done).
    rewrite (bind_Ok _ _ _ _ _ (read_Ok _ (Z.of_nat f) x ltac:(lia) Hs)).
    pose proof (filter_take_S (fun x => negb (P x)) l f x Hx) as EF. cbv beta in EF.
    replace (Z.of_nat f + 1) with (Z.of_nat (S f)) by lia.
    destruct (negb (P x)) eqn:Px.
    + rewrite (bind_Ok _ _ _ _ _ (read_Ok _ (Z.of_nat f) x ltac:(lia) Hs)).
      destruct (lookup_lt_is_Some_2 l (length K)) as [y Hy]; [lia|].
      assert (Hlen : (length K + length (drop (length K) l) = length l)%nat)
        by (rewrite length_drop; lia).
      rewrite (bind_Ok _ _ _ _ _ (write_Ok (K ++ drop (length K) l) (Z.of_nat (length K)) x ltac:(lia)
                 ltac:(rewrite Nat2Z.id, length_app; lia))).
      rewrite Nat2Z.id, (drop_S _ _ _ Hy), insert_mid.
      replace (Z.of_nat (length K) + 1) with (Z.of_nat (length (K ++ [x])))
        by (rewrite length_app; simpl; lia).
      replace (K ++ x :: drop (S (length K)) l) with ((K ++ [x]) ++ drop (length (K ++ [x])) l)
        by (rewrite length_app, <- app_assoc; simpl; by rewrite Nat.add_1_r).
      apply IH; [lia|]. by rewrite EF, HK.
    + apply IH; [lia|]. by rewrite EF, HK, app_nil_r.
Qed.

Lemma remove_if_not_loop_eq (P : T -> bool) k out f (s : list T) :
  remove_if_not_loop P k out f s = remove_if_loop (fun x => negb (P x)) k out f s.
Proof.
  revert out f s. induction k as [|k IH]; intros out f s; [done|]. cbn [remove_if_not_loop remove_if_loop].
  unfold bind. destruct (read f s) as [x s1|]; [|done].
  rewrite negb_involutive. destruct (P x); [|apply IH].
  destruct (read f s1) as [v s2|]; [|done].
  destruct (write out v s2) as [[] s3|]; [apply IH|done].
Qed.

End ScanFacts.

(** ** Minimum and maximum *)

Section MinMaxFacts.
Context {T : Type} (cmp : T -> T -> Z) (Hc : strict_weak_order cmp).

Lemma single_min (a : list T) f x :
  0 <= f -> a !! Z.to_nat f = Some x -> first_min cmp a f (f + 1) f.
Proof.
  intros Hf Hx. split; [lia|]. intros t u v Ht Hu Hv. assert (t = f) as -> by lia.
  rewrite Hu in Hv. simplify_eq. rewrite (cmp_refl cmp Hc). lia.
Qed.

Lemma single_max (a : list T) f x :
  0 <= f -> a !! Z.to_nat f = Some x -> first_max cmp a f (f + 1) f /\ last_max cmp a f (f + 1) f.
Proof.
  intros Hf Hx. split; (split; [lia|]); intros t u v Ht Hu Hv; assert (t = f) as -> by lia;
    rewrite Hu in Hv; simplify_eq; rewrite (cmp_refl cmp Hc); lia.
Qed.

Lemma merge_min (a : list T) p q r i i' v v' :
  first_min cmp a p q i -> first_min cmp a q r i' ->
  a !! Z.to_nat i = Some v -> a !! Z.to_nat i' = Some v' ->
  first_min cmp a p r (if cmp v' v <? 0 then i' else i).
Proof.
  intros [Hi H1] [Hi' H2] Hv Hv'. destruct (Z.ltb_spec (cmp v' v) 0) as [Hlt|Hge].
  - split; [lia|]. intros t x y Ht Hx Hy. rewrite Hv' in Hx. simplify_eq.
    destruct (Z.lt_ge_cases t q).
    + destruct (H1 t v y ltac:(lia) Hv Hy) as [Hle _].
      pose proof (lt_le_trans cmp Hc x v y Hlt Hle). lia.
    + apply (H2 t); [lia|done|done].
  - split; [lia|]. intros t x y Ht Hx Hy. rewrite Hv in Hx. simplify_eq.
    destruct (Z.lt_ge_cases t q).
    + apply (H1 t); [lia|done|done].
    + destruct (H2 t v' y ltac:(lia) Hv' Hy) as [Hle _].
      pose proof (le_trans' cmp Hc x v' y (cmp_flip_le cmp Hc _ _ Hge) Hle). unfold le in *.
      split; [done|lia].
Qed.

Lemma merge_first_max (a : list T) p q r i i' v v' :
  first_max cmp a p q i -> first_max cmp a q r i' ->
  a !! Z.to_nat i = Some v -> a !! Z.to_nat i' = Some v' ->
  first_max cmp a p r (if cmp v' v >? 0 then i' else i).
Proof.
  intros [Hi H1] [Hi' H2] Hv Hv'. destruct (Z.gtb_spec (cmp v' v) 0) as [Hgt|Hle].
  - split; [lia|]. intros t x y Ht Hx Hy. rewrite Hv' in Hx. simplify_eq.
    destruct (Z.lt_ge_cases t q).
    + destruct (H1 t v y ltac:(lia) Hv Hy) as [Hge _].
      pose proof (gt_ge_trans cmp Hc x v y Hgt Hge). lia.
    + apply (H2 t); [lia|done|done].
  - split; [lia|]. intros t x y Ht Hx Hy. rewrite Hv in Hx. simplify_eq.
    destruct (Z.lt_ge_cases t q).
    + apply (H1 t); [lia|done|done].
    + destruct (H2 t v' y ltac:(lia) Hv' Hy) as [Hge _].
      pose proof (ge_trans cmp Hc x v' y (ge_of_le cmp Hc _ _ Hle) Hge). split; [done|lia].
Qed.

Lemma merge_last_max (a : list T) p q r i i' v v' :
  last_max cmp a p q i -> last_max cmp a q r i' ->
  a !! Z.to_nat i = Some v -> a !! Z.to_nat i' = Some v' ->
  last_max cmp a p r (if cmp v' v >=? 0 then i' else i).
Proof.
  intros [Hi H1] [Hi' H2] Hv Hv'. destruct (Z.geb_spec (cmp v' v) 0) as [Hge|Hlt].
  - split; [lia|]. intros t x y Ht Hx Hy. rewrite Hv' in Hx. simplify_eq.
    destruct (Z.lt_ge_cases t q).
    + destruct (H1 t v y ltac:(lia) Hv Hy) as [Hge' _].
      pose proof (ge_trans cmp Hc x v y Hge Hge'). split; [done|lia].
    + apply (H2 t); [lia|done|done].
  - split; [lia|]. intros t x y Ht Hx Hy. rewrite Hv in Hx. simplify_eq.
    destruct (Z.lt_ge_cases t q).
    + apply (H1 t); [lia|done|done].
    + destruct (H2 t v' y ltac:(lia) Hv' Hy) as [Hge _].
      pose proof (gt_ge_trans cmp Hc x v' y (cmp_flip_lt cmp Hc _ _ Hlt) Hge). lia.
Qed.

Lemma first_min_lookup (a : list T) p q i :
  0 <= p -> q <= Z.of_nat (length a) -> first_min cmp a p q i -> exists v, a !! Z.to_nat i = Some v.
Proof. intros Hp Hq [Hi _]. apply lookup_lt_is_Some_2. lia. Qed.

Lemma first_max_lookup (a : list T) p q i :
  0 <= p -> q <= Z.of_nat (length a) -> first_max cmp a p q i -> exists v, a !! Z.to_nat i = Some v.
Proof. intros Hp Hq [Hi _]. apply lookup_lt_is_Some_2. lia. Qed.

Lemma last_max_lookup (a : list T) p q i :
  0 <= p -> q <= Z.of_nat (length a) -> last_max cmp a p q i -> exists v, a !! Z.to_nat i = Some v.
Proof. intros Hp Hq [Hi _]. apply lookup_lt_is_Some_2. lia. Qed.

Lemma min_element_loop_first (a : list T) k first best f :
  0 <= first -> f + Z.of_nat k <= Z.of_nat (length a) -> first_min cmp a first f best ->
  exists i, min_element_loop cmp k best f a = Ok i a /\ first_min cmp a first (f + Z.of_nat k) i.
Proof.
  revert best f. induction k as [|k IH]; intros best f H0 Hlen Hm; cbn [min_element_loop].
  { exists best. rewrite Z.add_0_r. done. }
  destruct (first_min_lookup a first f best) as [b Hb]; [lia|lia|done|].
  destruct (lookup_lt_is_Some_2 a (Z.to_nat f)) as [x Hx]; [destruct Hm; lia|].
  rewrite (bind_Ok _ _ _ _ x) by (apply read_Ok; [destruct Hm; lia|done]).
  rewrite (bind_Ok _ _ _ _ b) by (apply read_Ok; [destruct Hm; lia|done]).
  pose proof (merge_min a first f (f + 1) best f b x Hm
    (single_min a f x ltac:(destruct Hm; lia) Hx) Hb Hx) as Hm'.
  destruct (cmp x b <? 0);
    (destruct (IH _ (f + 1) H0 ltac:(lia) Hm') as (i & Hr & Hi);
     exists i; split; [done|]; by replace (f + Z.of_nat (S k)) with (f + 1 + Z.of_nat k) by lia).
Qed.

Lemma max_element_loop_first (a : list T) k first best f :
  0 <= first -> f + Z.of_nat k <= Z.of_nat (length a) -> first_max cmp a first f best ->
  exists i, max_element_loop cmp k best f a = Ok i a /\ first_max cmp a first (f + Z.of_nat k) i.
Proof.
  revert best f. induction k as [|k IH]; intros best f H0 Hlen Hm; cbn [max_element_loop].
  { exists best. rewrite Z.add_0_r. done. }
  destruct (first_max_lookup a first f best) as [b Hb]; [lia|lia|done|].
  destruct (lookup_lt_is_Some_2 a (Z.to_nat f)) as [x Hx]; [destruct Hm; lia|].
  rewrite (bind_Ok _ _ _ _ x) by (apply read_Ok; [destruct Hm; lia|done]).
  rewrite (bind_Ok _ _ _ _ b) by (apply read_Ok; [destruct Hm; lia|done]).
  pose proof (merge_first_max a first f (f + 1) best f b x Hm
    (proj1 (single_max a f x ltac:(destruct Hm; lia) Hx)) Hb Hx) as Hm'.
  destruct (cmp x b >? 0);
    (destruct (IH _ (f + 1) H0 ltac:(lia) Hm') as (i & Hr & Hi);
     exists i; split; [done|]; by replace (f + Z.of_nat (S k)) with (f + 1 + Z.of_nat k) by lia).
Qed.


Lemma pair_min_max (a : list T) f x y :
  0 <= f -> a !! Z.to_nat f = Some x -> a !! Z.to_nat (f + 1) = Some y ->
  exists pi pa, (if cmp y x <? 0 then (f + 1, f) else (f, f + 1)) = (pi, pa) /\
    first_min cmp a f (f + 2) pi /\ last_max cmp a f (f + 2) pa.
Proof.
  intros Hf Hx Hy.
  pose proof (merge_min a f (f + 1) (f + 1 + 1) f (f + 1) x y (single_min a f x Hf Hx)
    (single_min a (f + 1) y ltac:(lia) Hy) Hx Hy) as Hm.
  pose proof (merge_last_max a f (f + 1) (f + 1 + 1) f (f + 1) x y
    (proj2 (single_max a f x Hf Hx)) (proj2 (single_max a (f + 1) y ltac:(lia) Hy)) Hx Hy) as HM.
  replace (f + 1 + 1) with (f + 2) in Hm, HM by lia.
  destruct (Z.ltb_spec (cmp y x) 0); destruct (Z.geb_spec (cmp y x) 0); try lia; eauto.
Qed.

Lemma minmax_element_loop_spec (a : list T) fuel f mi ma :
  0 <= f <= Z.of_nat (length a) -> (Z.to_nat (Z.of_nat (length a) - f) < fuel)%nat ->
  first_min cmp a 0 f mi -> last_max cmp a 0 f ma ->
  exists f' mi' ma', minmax_element_loop cmp fuel f (Z.of_nat (length a)) mi ma a = Ok (f', mi', ma') a /\
    (f' = Z.of_nat (length a) \/ f' + 1 = Z.of_nat (length a)) /\
    first_min cmp a 0 f' mi' /\ last_max cmp a 0 f' ma'.
Proof.
  revert f mi ma. induction fuel as [|fuel IH]; intros f mi ma Hf Hfuel Hm HM; [lia|].
  cbn [minmax_element_loop].
  destruct (Z.eqb_spec f (Z.of_nat (length a))) as [E|E].
  { exists f, mi, ma. simpl. auto. }
  destruct (Z.eqb_spec (f + 1) (Z.of_nat (length a))) as [E'|E'].
  { exists f, mi, ma. simpl. auto. }
  cbn [negb andb].
  destruct (lookup_lt_is_Some_2 a (Z.to_nat f)) as [x Hx]; [lia|].
  destruct (lookup_lt_is_Some_2 a (Z.to_nat (f + 1))) as [y Hy]; [lia|].
  rewrite (bind_Ok _ _ _ _ y) by (apply read_Ok; [lia|done]).
  rewrite (bind_Ok _ _ _ _ x) by (apply read_Ok; [lia|done]).
  destruct (pair_min_max a f x y ltac:(lia) Hx Hy) as (pi & pa & Ep & Hpi & Hpa).
  rewrite Ep. cbv iota beta.
  destruct (first_min_lookup a f (f + 2) pi) as [vi Hvi]; [lia|lia|done|].
  destruct (last_max_lookup a f (f + 2) pa) as [va Hva]; [lia|lia|done|].
  destruct (first_min_lookup a 0 f mi) as [m Hmv]; [lia|lia|done|].
  destruct (last_max_lookup a 0 f ma) as [mx Hmx]; [lia|lia|done|].
  rewrite (bind_Ok _ _ _ _ vi) by (apply read_Ok; [destruct Hpi; lia|done]).
  rewrite (bind_Ok _ _ _ _ m) by (apply read_Ok; [destruct Hm; lia|done]).
  rewrite (bind_Ok _ _ _ _ va) by (apply read_Ok; [destruct Hpa; lia|done]).
  rewrite (bind_Ok _ _ _ _ mx) by (apply read_Ok; [destruct HM; lia|done]).
  apply IH; [lia|lia| |].
  - exact (merge_min a 0 f (f + 2) mi pi m vi Hm Hpi Hmv Hvi).
  - exact (merge_last_max a 0 f (f + 2) ma pa mx va HM Hpa Hmx Hva).
Qed.

End MinMaxFacts.

(** ** unique and unique_count *)

Section UniqueFacts.
Context {T : Type} (cmp : T -> T -> Z).

Lemma drop_lookup_cons (l r : list T) f x :
  drop f l = x :: r -> l !! f = Some x.
Proof. intros H. rewrite <- (Nat.add_0_r f), <- lookup_drop, H. done. Qed.

Lemma drop_cons_S (l r : list T) f x :
  drop f l = x :: r -> drop (S f) l = r.
Proof. intros H. replace (S f) with (f + 1)%nat by lia. by rewrite <- drop_drop, H. Qed.

Lemma unique_loop_spec (l : list T) r K0 o f :
  drop f l = r -> (f + length r = length l)%nat -> (length (K0 ++ [o]) <= f)%nat ->
  unique_loop cmp (length r) (Z.of_nat (length K0)) (Z.of_nat f)
    ((K0 ++ [o]) ++ drop (length (K0 ++ [o])) l) =
  Ok (Z.of_nat (length K0 + length (unique_from cmp o r)))
     ((K0 ++ o :: unique_from cmp o r) ++ drop (length (K0 ++ o :: unique_from cmp o r)) l).
Proof.
  revert K0 o f. induction r as [|x r IH]; intros K0 o f Hd Hf HK; cbn [length unique_loop unique_from].
  - by rewrite Nat.add_0_r.
  - pose proof (drop_lookup_cons _ _ _ _ Hd) as Hx. pose proof (drop_cons_S _ _ _ _ Hd) as Hd'.
    rewrite length_app in HK. simpl in HK, Hf.
    assert (Ho : ((K0 ++ [o]) ++ drop (length (K0 ++ [o])) l) !! Z.to_nat (Z.of_nat (length K0)) = Some o).
    { rewrite Nat2Z.id, lookup_app_l by (rewrite length_app; simpl; lia).
      by rewrite lookup_app_r, Nat.sub_diag by lia. }
    assert (Hs : ((K0 ++ [o]) ++ drop (length (K0 ++ [o])) l) !! Z.to_nat (Z.of_nat f) = Some x)
      by (rewrite Nat2Z.id, lookup_app_drop by (rewrite length_app; simpl; lia); done).
    rewrite (bind_Ok _ _ _ _ _ (read_Ok _ (Z.of_nat (length K0)) o ltac:(lia) Ho)).
    rewrite (bind_Ok _ _ _ _ _ (read_Ok _ (Z.of_nat f) x ltac:(lia) Hs)).
    replace (Z.of_nat f + 1) with (Z.of_nat (S f)) by lia.
    destruct (negb (cmp o x =? 0)).
    + rewrite (bind_Ok _ _ _ _ _ (read_Ok _ (Z.of_nat f) x ltac:(lia) Hs)).
      destruct (lookup_lt_is_Some_2 l (length (K0 ++ [o]))) as [y Hy]; [rewrite length_app; simpl; lia|].
      rewrite (bind_Ok _ _ _ _ _ (write_Ok ((K0 ++ [o]) ++ drop (length (K0 ++ [o])) l)
                 (Z.of_nat (length K0) + 1) x ltac:(lia)
                 ltac:(rewrite length_app, length_drop, length_app; simpl; lia))).
      replace (Z.to_nat (Z.of_nat (length K0) + 1)) with (length (K0 ++ [o]))
        by (rewrite length_app; simpl; lia).
      rewrite (drop_S _ _ _ Hy), insert_mid.
      replace (Z.of_nat (length K0) + 1) with (Z.of_nat (length (K0 ++ [o]))) by (rewrite length_app; simpl; lia).
      replace ((K0 ++ [o]) ++ x :: drop (S (length (K0 ++ [o]))) l)
        with (((K0 ++ [o]) ++ [x]) ++ drop (length ((K0 ++ [o]) ++ [x])) l)
        by (rewrite <- (app_assoc _ [x]), (length_app _ [x]); simpl; by rewrite Nat.add_1_r).
      rewrite (IH (K0 ++ [o]) x (S f) Hd' ltac:(lia)
                 ltac:(rewrite !length_app; simpl; lia)).
      assert (E : (K0 ++ [o]) ++ x :: unique_from cmp x r = K0 ++ o :: x :: unique_from cmp x r)
        by (rewrite <- app_assoc; done).
      rewrite E. f_equal. rewrite length_app. simpl. lia.
    + apply IH; [done|lia|rewrite length_app; simpl; lia].
Qed.

Lemma unique_count_loop_spec (l : list T) r g o f c :
  drop f l = r -> (f + length r = length l)%nat -> l !! g = Some o ->
  unique_count_loop cmp (length r) (Z.of_nat g) (Z.of_nat f) c l =
  Ok (c + Z.of_nat (length (unique_from cmp o r))) l.
Proof.
  revert g o f c. induction r as [|x r IH]; intros g o f c Hd Hf Hg; cbn [length unique_count_loop unique_from].
  - by rewrite Z.add_0_r.
  - pose proof (drop_lookup_cons _ _ _ _ Hd) as Hx. pose proof (drop_cons_S _ _ _ _ Hd) as Hd'.
    simpl in Hf.
    rewrite (bind_Ok _ _ _ _ _ (read_Ok l (Z.of_nat g) o ltac:(lia) ltac:(by rewrite Nat2Z.id))).
    rewrite (bind_Ok _ _ _ _ _ (read_Ok l (Z.of_nat f) x ltac:(lia) ltac:(by rewrite Nat2Z.id))).
    replace (Z.of_nat f + 1) with (Z.of_nat (S f)) by lia.
    destruct (negb (cmp o x =? 0)).
    + rewrite (IH f x (S f) (c + 1) Hd' ltac:(lia) Hx). f_equal. simpl. lia.
    + apply IH; [done|lia|done].
Qed.

Lemma unique_from_sublist o (r : list T) : unique_from cmp o r `sublist_of` r.
Proof.
  revert o. induction r as [|x r IH]; intros o; simpl; [done|].
  destruct (negb (cmp o x =? 0)); [by apply sublist_skip|by apply sublist_cons].
Qed.

Lemma unique_from_adjacent o (r : list T) :
  Sorted (fun u v => cmp u v <> 0) (o :: unique_from cmp o r).
Proof.
  revert o. induction r as [|x r IH]; intros o; simpl; [by repeat constructor|].
  destruct (Z.eqb_spec (cmp o x) 0); simpl; [apply IH|].
  constructor; [apply IH|]. by constructor.
Qed.

Lemma unique_whole (x0 : T) (r : list T) :
  unique cmp 0 (Z.of_nat (length (x0 :: r))) (x0 :: r) =
    Ok (Z.of_nat (length (x0 :: unique_from cmp x0 r)))
       ((x0 :: unique_from cmp x0 r) ++ drop (length (x0 :: unique_from cmp x0 r)) (x0 :: r)) /\
  unique_count cmp 0 (Z.of_nat (length (x0 :: r))) (x0 :: r) =
    Ok (Z.of_nat (length (x0 :: unique_from cmp x0 r))) (x0 :: r).
Proof.
  unfold unique, unique_count. destruct (Z.eqb_spec 0 (Z.of_nat (length (x0 :: r)))); [simpl in *; lia|].
  replace (Z.to_nat (Z.of_nat (length (x0 :: r)) - (0 + 1))) with (length r) by (simpl; lia).
  split.
  - pose proof (unique_loop_spec (x0 :: r) r [] x0 1 eq_refl ltac:(simpl; lia) ltac:(simpl; lia)) as H.
    simpl app in H. simpl length in H. change (Z.of_nat 0) with 0 in H. change (Z.of_nat 1) with (0 + 1) in H.
    change (drop 1 (x0 :: r)) with r in H. rewrite (bind_Ok _ _ _ _ _ H). cbn [ret]. f_equal. simpl length. lia.
  - change 0 with (Z.of_nat 0). change (Z.of_nat 0 + 1) with (Z.of_nat 1).
    rewrite (unique_count_loop_spec (x0 :: r) r 0 x0 1 1 eq_refl ltac:(simpl; lia) eq_refl).
    f_equal. simpl. lia.
Qed.

Context (Hc : strict_weak_order cmp).

Lemma unique_from_cover o (r : list T) :
  forall x, x ∈ o :: r -> exists u, u ∈ o :: unique_from cmp o r /\ cmp u x = 0.
Proof.
  revert o. induction r as [|y r IH]; intros o x Hx; simpl.
  - apply list_elem_of_singleton in Hx. rewrite Hx. exists o. split; [by left|]. apply (cmp_refl cmp Hc).
  - destruct (Z.eqb_spec (cmp o y) 0) as [E|E]; simpl.
    + rewrite !elem_of_cons in Hx. destruct Hx as [->|[->|Hx]].
      * exists o. split; [by left|]. apply (cmp_refl cmp Hc).
      * exists o. split; [by left|done].
      * apply IH. by right.
    + rewrite elem_of_cons in Hx. destruct Hx as [->|Hx].
      * exists o. split; [by left|]. apply (cmp_refl cmp Hc).
      * destruct (IH y x Hx) as (u & Hu & Hux). exists u. split; [by right|done].
Qed.

Lemma unique_from_increasing o (r : list T) :
  Sorted (le cmp) (o :: r) -> Sorted (fun u v => cmp u v < 0) (o :: unique_from cmp o r).
Proof.
  revert o. induction r as [|x r IH]; intros o HS; simpl; [by repeat constructor|].
  inversion HS as [|? ? HS' Hhd]; subst. inversion Hhd as [|? ? Hox]; subst.
  destruct (Z.eqb_spec (cmp o x) 0) as [E|E]; simpl.
  - apply IH. inversion HS' as [|? ? HS'' Hhd']; subst. constructor; [done|].
    destruct r as [|y r]; [done|]. inversion Hhd' as [|? ? Hxy]; subst.
    constructor. by apply (le_trans' cmp Hc _ x).
  - constructor; [by apply IH|]. constructor. unfold le in Hox. lia.
Qed.

End UniqueFacts.

(** ** lexicographical_compare and equal *)

Section CompareFacts.
Context {T : Type} (cmp : T -> T -> Z).

Lemma lc_neg (l1 l2 : list T) :
  lexicographical_compare cmp l1 l2 < 0 <-> lex_lt cmp l1 l2.
Proof.
  revert l2. induction l1 as [|x1 r1 IH]; intros [|x2 r2]; simpl; try (split; intros; done || lia).
  destruct (Z.eqb_spec (cmp x1 x2) 0) as [E|E]; simpl.
  - rewrite IH. split; [intros H; by right|]. intros [H|[_ H]]; [lia|done].
  - split; [intros H; by left|]. intros [H|[H _]]; [done|lia].
Qed.

Lemma lc_zero (l1 l2 : list T) :
  lexicographical_compare cmp l1 l2 = 0 <-> Forall2 (fun x y => cmp x y = 0) l1 l2.
Proof.
  revert l2. induction l1 as [|x1 r1 IH]; intros [|x2 r2]; simpl.
  - split; [constructor|done].
  - split; [lia|intros H; inversion H].
  - split; [lia|intros H; inversion H].
  - destruct (Z.eqb_spec (cmp x1 x2) 0) as [E|E]; simpl.
    + rewrite IH. split; [by constructor|]. intros H. by inversion H.
    + split; [lia|]. intros H. by inversion H.
Qed.

Lemma equal_lc (l1 l2 : list T) :
  (length l1 <= length l2)%nat ->
  equal cmp l1 l2 = Some (lexicographical_compare cmp l1 (take (length l1) l2) =? 0).
Proof.
  revert l2. induction l1 as [|x1 r1 IH]; intros [|x2 r2] Hl; simpl in *; [done|done|lia|].
  destruct (Z.eqb_spec (cmp x1 x2) 0) as [E|E]; simpl.
  - apply IH. lia.
  - f_equal. symmetry. by apply Z.eqb_neq.
Qed.

Context (Hc : strict_weak_order cmp).

Lemma lc_antisym (l1 l2 : list T) :
  Z.sgn (lexicographical_compare cmp l2 l1) = - Z.sgn (lexicographical_compare cmp l1 l2).
Proof.
  revert l2. induction l1 as [|x1 r1 IH]; intros [|x2 r2]; simpl; try done.
  pose proof (swo_antisym _ Hc x1 x2) as A.
  destruct (Z.eqb_spec (cmp x1 x2) 0) as [E|E], (Z.eqb_spec (cmp x2 x1) 0) as [E'|E']; simpl.
  - apply IH.
  - rewrite E in A. simpl in A. exfalso. apply E'. apply Z.sgn_null_iff. lia.
  - rewrite E' in A. simpl in A. exfalso. apply E. apply Z.sgn_null_iff. lia.
  - done.
Qed.

End CompareFacts.

(** ** Set operations on strictly increasing ranges *)

Section SetFacts.
Context {T : Type} (cmp : T -> T -> Z) (Hc : strict_weak_order cmp).

Lemma lt_trans_cmp a b c : cmp a b < 0 -> cmp b c < 0 -> cmp a c < 0.
Proof. intros H1 H2. apply (le_lt_trans cmp Hc a b c); [unfold le; lia|done]. Qed.

Lemma strict_StronglySorted l :
  Sorted (fun u v => cmp u v < 0) l -> StronglySorted (fun u v => cmp u v < 0) l.
Proof. apply Sorted_StronglySorted. intros ???. apply lt_trans_cmp. Qed.

(** An element below the head of a strictly increasing range is
    equivalent to none of its elements. *)
Lemma mem_eqv_below x y s :
  StronglySorted (fun u v => cmp u v < 0) (y :: s) -> cmp x y < 0 -> mem_eqv cmp (y :: s) x = false.
Proof.
  intros HS Hx. apply not_true_iff_false. unfold mem_eqv. rewrite existsb_exists.
  intros (z & Hz & Ez). apply Z.eqb_eq in Ez. destruct Hz as [<-|Hz]; [lia|].
  apply StronglySorted_inv in HS as [_ HF]. rewrite List.Forall_forall in HF.
  pose proof (lt_trans_cmp _ _ _ Hx (HF z Hz)). lia.
Qed.

(** An element above [y] is equivalent to [y :: s] only through [s]. *)
Lemma mem_eqv_above x y s : cmp y x < 0 -> mem_eqv cmp (y :: s) x = mem_eqv cmp s x.
Proof.
  intros H. unfold mem_eqv. simpl. apply (cmp_flip_lt cmp Hc) in H.
  destruct (Z.eqb_spec (cmp x y) 0); [lia|done].
Qed.

Lemma filter_mem_nil l : List.filter (mem_eqv cmp []) l = [].
Proof. induction l as [|a l IH]; [done|]. exact IH. Qed.

Lemma filter_mem_above (f : bool -> bool) l y s :
  (forall x, x ∈ l -> cmp y x < 0) ->
  List.filter (fun x => f (mem_eqv cmp (y :: s) x)) l = List.filter (fun x => f (mem_eqv cmp s x)) l.
Proof.
  intros H. apply List.filter_ext_in. intros x Hx. rewrite mem_eqv_above; [done|].
  apply H. by apply list_elem_of_In.
Qed.

Lemma set_intersection_loop_cons x1 r1 x2 r2 :
  set_intersection_loop cmp (x1 :: r1) (x2 :: r2) =
  if Z.eqb (cmp x1 x2) 0 then x1 :: set_intersection_loop cmp r1 r2
  else if Z.ltb (cmp x1 x2) 0 then set_intersection_loop cmp r1 (x2 :: r2)
  else set_intersection_loop cmp (x1 :: r1) r2.
Proof. reflexivity. Qed.

Lemma set_intersection_loop_filter l1 l2 :
  StronglySorted (fun u v => cmp u v < 0) l1 -> StronglySorted (fun u v => cmp u v < 0) l2 ->
  set_intersection_loop cmp l1 l2 = List.filter (mem_eqv cmp l2) l1.
Proof.
  revert l2. induction l1 as [|x1 r1 IH]; intros l2 HS1 HS2; [by destruct l2|].
  induction l2 as [|x2 r2 IH2]; [by rewrite filter_mem_nil|]. rewrite set_intersection_loop_cons.
  pose proof HS1 as [HS1' HF1]%StronglySorted_inv. pose proof HS2 as [HS2' HF2]%StronglySorted_inv.
  rewrite Forall_forall in HF1.
  assert (G1 : forall x, x ∈ x1 :: r1 -> cmp x1 x <= 0).
  { intros x [<-|Hx]%elem_of_cons; [rewrite (cmp_refl cmp Hc); lia|]. specialize (HF1 x Hx). lia. }
  destruct (Z.eqb_spec (cmp x1 x2) 0) as [E|E].
  - assert (M : mem_eqv cmp (x2 :: r2) x1 = true) by (unfold mem_eqv; simpl; by rewrite E).
    cbn [List.filter]. rewrite M. f_equal.
    rewrite IH by done. symmetry. apply (filter_mem_above id).
    intros x Hx. specialize (HF1 x Hx).
    apply (le_lt_trans cmp Hc _ x1); [|done]. unfold le. rewrite (cmp_flip_eq cmp Hc _ _ E). lia.
  - destruct (Z.ltb_spec (cmp x1 x2) 0) as [L|L].
    + cbn [List.filter]. rewrite (mem_eqv_below x1 x2 r2 HS2 L). by apply IH.
    + assert (G : cmp x2 x1 < 0).
      { pose proof (swo_antisym _ Hc x1 x2) as A.
        destruct (Z.sgn_spec (cmp x1 x2)) as [[? S1]|[[? S1]|[? S1]]];
        destruct (Z.sgn_spec (cmp x2 x1)) as [[? S2]|[[? S2]|[? S2]]]; lia. }
      rewrite IH2 by done. symmetry. apply (filter_mem_above id).
      intros x Hx. apply (lt_le_trans cmp Hc _ x1); [done|]. unfold le. by apply G1.
Qed.


Lemma filter_not_mem_nil l : List.filter (fun x => negb (mem_eqv cmp [] x)) l = l.
Proof. induction l as [|a l IH]; [done|]. cbn [List.filter]. by rewrite IH. Qed.

Lemma set_difference_loop_cons x1 r1 x2 r2 :
  set_difference_loop cmp (x1 :: r1) (x2 :: r2) =
  if Z.eqb (cmp x1 x2) 0 then set_difference_loop cmp r1 r2
  else if Z.ltb (cmp x1 x2) 0 then x1 :: set_difference_loop cmp r1 (x2 :: r2)
  else set_difference_loop cmp (x1 :: r1) r2.
Proof. reflexivity. Qed.

Lemma above_head x1 r1 y :
  StronglySorted (fun u v => cmp u v < 0) (x1 :: r1) -> cmp y x1 <= 0 ->
  forall x, x ∈ r1 -> cmp y x < 0.
Proof.
  intros [_ HF]%StronglySorted_inv Hy x Hx. rewrite Forall_forall in HF.
  apply (le_lt_trans cmp Hc _ x1); [done|]. by apply HF.
Qed.

Lemma above_all x1 r1 y :
  StronglySorted (fun u v => cmp u v < 0) (x1 :: r1) -> cmp y x1 < 0 ->
  forall x, x ∈ x1 :: r1 -> cmp y x < 0.
Proof.
  intros HS Hy x [<-|Hx]%elem_of_cons; [done|].
  apply (above_head x1 r1 y HS); [lia|done].
Qed.

Lemma gt_flip x y : ~ cmp x y = 0 -> ~ cmp x y < 0 -> cmp y x < 0.
Proof.
  intros E L. pose proof (swo_antisym _ Hc x y) as A.
  destruct (Z.sgn_spec (cmp x y)) as [[? S1]|[[? S1]|[? S1]]];
  destruct (Z.sgn_spec (cmp y x)) as [[? S2]|[[? S2]|[? S2]]]; lia.
Qed.

Lemma set_difference_loop_filter l1 l2 :
  StronglySorted (fun u v => cmp u v < 0) l1 -> StronglySorted (fun u v => cmp u v < 0) l2 ->
  set_difference_loop cmp l1 l2 = List.filter (fun x => negb (mem_eqv cmp l2 x)) l1.
Proof.
  revert l2. induction l1 as [|x1 r1 IH]; intros l2 HS1 HS2; [by destruct l2|].
  induction l2 as [|x2 r2 IH2]; [by rewrite filter_not_mem_nil|]. rewrite set_difference_loop_cons.
  pose proof HS1 as [HS1' _]%StronglySorted_inv. pose proof HS2 as [HS2' _]%StronglySorted_inv.
  destruct (Z.eqb_spec (cmp x1 x2) 0) as [E|E].
  - assert (M : mem_eqv cmp (x2 :: r2) x1 = true) by (unfold mem_eqv; simpl; by rewrite E).
    cbn [List.filter]. rewrite M. simpl negb. cbv iota.
    rewrite IH by done. symmetry. apply (filter_mem_above negb).
    apply (above_head x1 r1 x2 HS1). rewrite (cmp_flip_eq cmp Hc _ _ E). lia.
  - destruct (Z.ltb_spec (cmp x1 x2) 0) as [L|L].
    + cbn [List.filter]. rewrite (mem_eqv_below x1 x2 r2 HS2 L). simpl negb. cbv iota.
      f_equal. by apply IH.
    + rewrite IH2 by done. symmetry. apply (filter_mem_above negb).
      apply (above_all x1 r1 x2 HS1). apply gt_flip; lia.
Qed.

Lemma forallb_mem_above l y s :
  (forall x, x ∈ l -> cmp y x < 0) -> forallb (mem_eqv cmp (y :: s)) l = forallb (mem_eqv cmp s) l.
Proof.
  intros H. induction l as [|x l IH]; [done|]. cbn [forallb].
  rewrite mem_eqv_above by (apply H; by left). rewrite IH; [done|].
  intros z Hz. apply H. by right.
Qed.

Lemma set_includes_loop_forallb sub super :
  StronglySorted (fun u v => cmp u v < 0) sub -> StronglySorted (fun u v => cmp u v < 0) super ->
  set_includes_loop cmp sub super = forallb (mem_eqv cmp super) sub.
Proof.
  revert sub. induction super as [|y s IH]; intros [|x r] HS1 HS2; try done.
  pose proof HS1 as [HS1' _]%StronglySorted_inv. pose proof HS2 as [HS2' _]%StronglySorted_inv.
  change (set_includes_loop cmp (x :: r) (y :: s)) with
    (if Z.ltb (cmp x y) 0 then false
     else if Z.eqb (cmp x y) 0 then set_includes_loop cmp r s
     else set_includes_loop cmp (x :: r) s).
  destruct (Z.ltb_spec (cmp x y) 0) as [L|L].
  - cbn [forallb]. by rewrite (mem_eqv_below x y s HS2 L).
  - destruct (Z.eqb_spec (cmp x y) 0) as [E|E].
    + cbn [forallb]. assert (M : mem_eqv cmp (y :: s) x = true) by (unfold mem_eqv; simpl; by rewrite E).
      rewrite M, IH by done. symmetry. simpl. apply forallb_mem_above.
      apply (above_head x r y HS1). rewrite (cmp_flip_eq cmp Hc _ _ E). lia.
    + rewrite IH by done. symmetry. apply forallb_mem_above.
      apply (above_all x r y HS1). apply gt_flip; lia.
Qed.

End SetFacts.

(** ** The stable insertion sort *)

Section StableFacts.
Context {T : Type} (cmp : T -> T -> Z) (Hc : strict_weak_order cmp).

Lemma read_range_spec k first (a : list T) :
  0 <= first -> first + Z.of_nat k <= Z.of_nat (length a) ->
  read_range k first a = Ok (take k (drop (Z.to_nat first) a)) a.
Proof.
  revert first. induction k as [|k IH]; intros first H0 Hk; cbn [read_range]; [done|].
  destruct (lookup_lt_is_Some_2 a (Z.to_nat first)) as [x Hx]; [lia|].
  rewrite (bind_Ok _ _ _ _ x) by (by apply read_Ok).
  rewrite (bind_Ok _ _ _ _ (take k (drop (Z.to_nat (first + 1)) a))) by (apply IH; lia).
  unfold ret. f_equal. rewrite (drop_S a x (Z.to_nat first) Hx).
  by replace (Z.to_nat (first + 1)) with (S (Z.to_nat first)) by lia.
Qed.

Lemma write_range_spec (l1 vs l2 : list T) :
  (length vs <= length l2)%nat ->
  write_range (Z.of_nat (length l1)) vs (l1 ++ l2) = Ok tt (l1 ++ vs ++ drop (length vs) l2).
Proof.
  revert l1 l2. induction vs as [|v vs IH]; intros l1 l2 Hl; cbn [write_range]; [done|].
  destruct l2 as [|h l2]; simpl in Hl; [lia|].
  rewrite (bind_Ok _ _ _ (l1 ++ v :: l2) tt).
  2: { rewrite write_Ok; [|lia|rewrite length_app; simpl; lia].
       rewrite Nat2Z.id, <- (Nat.add_0_r (length l1)), insert_app_r. done. }
  replace (Z.of_nat (length l1) + 1) with (Z.of_nat (length (l1 ++ [v])))
    by (rewrite length_app; simpl; lia).
  replace (l1 ++ v :: l2) with ((l1 ++ [v]) ++ l2) by (by rewrite <- app_assoc).
  rewrite IH by lia. by rewrite <- app_assoc.
Qed.

(** [_rotate_right_by_one 0 (|A| + 1)] moves the element after [A] to the
    front and shifts [A] up by one. *)
Lemma rotate_right_by_one_spec (A B : list T) m :
  _rotate_right_by_one 0 (Z.of_nat (length A) + 1) (A ++ m :: B) = Ok tt (m :: A ++ B).
Proof.
  unfold _rotate_right_by_one. destruct (Z.eqb_spec 0 (Z.of_nat (length A) + 1)); [lia|].
  replace (Z.of_nat (length A) + 1 - 1) with (Z.of_nat (length A)) by lia.
  rewrite (bind_Ok _ _ (A ++ m :: B) (A ++ m :: B) m)
    by (apply read_Ok; [lia|rewrite Nat2Z.id; by apply list_lookup_middle]).
  rewrite (bind_Ok _ _ (A ++ m :: B) (A ++ m :: B) A).
  2: { rewrite read_range_spec; [|lia|rewrite length_app; simpl; lia].
       rewrite Z.sub_0_r, Nat2Z.id. change (Z.to_nat 0) with 0%nat. by rewrite drop_0, take_app_length. }
  destruct A as [|a A].
  - rewrite (bind_Ok _ _ ([] ++ m :: B) ([] ++ m :: B) tt) by done.
    rewrite write_Ok; [done|lia|simpl; lia].
  - rewrite (bind_Ok _ _ _ ([a] ++ (a :: A) ++ B) tt).
    2: { change (0 + 1) with (Z.of_nat (length [a])). change ((a :: A) ++ m :: B) with ([a] ++ A ++ m :: B).
         rewrite write_range_spec by (rewrite length_app; simpl; lia).
         f_equal. f_equal. f_equal. simpl length.
         replace (A ++ m :: B) with ((A ++ [m]) ++ B) by (by rewrite <- app_assoc).
         replace (S (length A)) with (length (A ++ [m])) by (rewrite length_app; simpl; lia).
         by rewrite drop_app_length. }
    rewrite write_Ok; [done|lia|simpl; lia].
Qed.

(** Moving [x] past elements that it is strictly below keeps every
    class of equivalent elements in the same order. *)
Lemma filter_class_move k x (l : list T) :
  Forall (fun z => cmp x z < 0) l ->
  List.filter (fun y => Z.eqb (cmp k y) 0) (x :: l) =
  List.filter (fun y => Z.eqb (cmp k y) 0) (l ++ [x]).
Proof.
  intros Hl. rewrite filter_app_bool. cbn [List.filter].
  destruct (Z.eqb_spec (cmp k x) 0) as [E|E].
  - assert (N : List.filter (fun y => Z.eqb (cmp k y) 0) l = []).
    { induction Hl as [|z l Hz Hl IH]; [done|]. cbn [List.filter].
      assert (cmp k z < 0) by (apply (le_lt_trans cmp Hc k x z); [unfold le; lia|done]).
      destruct (Z.eqb_spec (cmp k z) 0); [lia|done]. }
    by rewrite N.
  - by rewrite app_nil_r.
Qed.

(** The outer loop of the insertion sort keeps every class of
    equivalent elements in its order. *)
Lemma insertion_loop_stable rest p m :
  Sorted (le cmp) p -> m ∈ p -> Forall (fun z => 0 <= cmp z m) rest ->
  exists s', insertion_loop cmp (length rest) (Z.of_nat (length p)) (p ++ rest) = Ok tt s' /\
    forall k, List.filter (fun y => Z.eqb (cmp k y) 0) s' =
              List.filter (fun y => Z.eqb (cmp k y) 0) (p ++ rest).
Proof.
  revert p. induction rest as [|x rest IH]; intros p Hs Hm Hf.
  { exists p. rewrite app_nil_r. done. }
  inversion Hf as [|? ? Hxm Hf']; subst.
  cbn [insertion_loop length].
  rewrite (bind_Ok _ _ _ _ x)
    by (apply read_Ok; [lia|rewrite Nat2Z.id; by apply list_lookup_middle]).
  destruct (shift_loop_spec cmp (S (Z.to_nat (Z.of_nat (length p)))) x p x rest)
    as (l1a & y & l1b & h' & Hp & Hy & Hb & Hrun).
  { lia. }
  { apply Exists_exists. by exists m. }
  rewrite (bind_Ok _ _ _ _ _ Hrun), (bind_Ok _ _ _ _ tt (write_after l1a (l1b ++ rest) y h' x)).
  replace (Z.of_nat (length p) + 1) with (Z.of_nat (length (l1a ++ y :: x :: l1b)))
    by (subst p; rewrite !length_app; simpl; lia).
  replace (l1a ++ y :: x :: l1b ++ rest) with ((l1a ++ y :: x :: l1b) ++ rest)
    by (by rewrite <- app_assoc).
  destruct (IH (l1a ++ y :: x :: l1b)) as (s' & Hr & Hst).
  - apply Sorted_insert_mid; [by rewrite <- Hp| |].
    + unfold le. by apply (cmp_flip_le cmp Hc).
    + intros z Hz. destruct l1b as [|z' l1b]; simpl in Hz; [done|].
      injection Hz as <-. inversion Hb; subst. unfold le. lia.
  - rewrite Hp in Hm. apply elem_of_app in Hm as [Hm|Hm]; apply elem_of_app; [by left|right].
    apply elem_of_cons in Hm as [->|Hm]; apply elem_of_cons; [by left|right].
    apply elem_of_cons. by right.
  - done.
  - exists s'. split; [exact Hr|]. intros k. rewrite Hst, Hp.
    replace ((l1a ++ y :: x :: l1b) ++ rest) with (l1a ++ [y] ++ (x :: l1b) ++ rest)
      by (by rewrite <- !app_assoc).
    replace ((l1a ++ y :: l1b) ++ x :: rest) with (l1a ++ [y] ++ (l1b ++ [x]) ++ rest)
      by (by rewrite <- !app_assoc).
    rewrite !(filter_app_bool _ l1a), !(filter_app_bool _ [y]).
    rewrite (filter_app_bool _ (x :: l1b)), (filter_app_bool _ (l1b ++ [x])).
    by rewrite (filter_class_move k x l1b Hb).
Qed.

(** Over a non-empty array, [min_element] returns the position of the
    first minimum. *)
Lemma min_element_first_min (l : list T) :
  l <> [] -> exists i, min_element cmp 0 (Z.of_nat (length l)) l = Ok i l /\
    first_min cmp l 0 (Z.of_nat (length l)) i.
Proof.
  destruct l as [|x0 r] eqn:El; [done|]. intros _. rewrite <- El.
  assert (H0 : l !! Z.to_nat 0 = Some x0) by (by subst l).
  destruct (min_element_loop_first cmp Hc l (Z.to_nat (Z.of_nat (length l) - (0 + 1))) 0 0 (0 + 1))
    as (i & Hi & Hmi); [lia|subst l; simpl; lia|by apply (single_min cmp Hc l 0 x0)|].
  replace (0 + 1 + Z.of_nat (Z.to_nat (Z.of_nat (length l) - (0 + 1)))) with (Z.of_nat (length l))
    in Hmi by (subst l; simpl; lia).
  exists i. unfold min_element. destruct (Z.eqb_spec 0 (Z.of_nat (length l))); [subst l; simpl in *; lia|].
  done.
Qed.

End StableFacts.

(** ** unique_copy and random_shuffle *)

Section CopyShuffleFacts.
Context {T : Type}.

Lemma unique_copy_loop_from (cmp : T -> T -> Z) o r : unique_copy_loop cmp o r = unique_from cmp o r.
Proof. revert o. induction r as [|x r IH]; intros o; simpl; [done|]. by rewrite !IH. Qed.

Lemma random_shuffle_n_loop_spec (rand : nat -> N) fuel k first n (a : list T) :
  0 <= first -> 0 <= n -> first + n <= Z.of_nat (length a) ->
  exists a', random_shuffle_n_loop rand fuel k first n a = Ok tt a' /\
    a' ≡ₚ a /\ seg_from a a' first (first + n).
Proof.
  revert k n a. induction fuel as [|fuel IH]; intros k n a H0 Hn Hlen; cbn [random_shuffle_n_loop].
  { exists a. split; [done|]. split; [done|apply seg_refl]. }
  destruct (Z.ltb_spec 1 n) as [Hn1|Hn1].
  2: { exists a. split; [done|]. split; [done|apply seg_refl]. }
  pose proof (Z.mod_pos_bound (Z.of_N (rand k)) n ltac:(lia)) as Hj.
  unfold ARRAY_ALG_RANDOM. set (j := Z.of_N (rand k) mod n) in *.
  destruct (lookup_lt_is_Some_2 a (Z.to_nat (first + (n - 1)))) as [vi Hvi]; [lia|].
  destruct (lookup_lt_is_Some_2 a (Z.to_nat (first + j))) as [vj Hvj]; [lia|].
  set (a1 := <[Z.to_nat (first + j) := vi]> (<[Z.to_nat (first + (n - 1)) := vj]> a)).
  assert (Hs : swap (first + (n - 1)) (first + j) a = Ok tt a1) by (apply swap_Ok; lia || done).
  pose proof (perm_swap (T:=T) (first + (n - 1)) (first + j) a) as Hp. rewrite Hs in Hp. simpl in Hp.
  pose proof (seg_swap a first (first + n) (first + (n - 1)) (first + j) vi vj) as Hg.
  rewrite (bind_Ok _ _ _ _ tt Hs).
  destruct (IH (S k) (n - 1) a1) as (a' & Hr & Hp' & Hg'); [lia|lia|rewrite (Permutation_length Hp); lia|].
  exists a'. split; [done|]. split; [by rewrite Hp'|].
  apply (seg_trans _ a1); [apply Hg; lia || done|].
  apply (seg_widen _ _ first (first + (n - 1))); [lia|lia|done].
Qed.

End CopyShuffleFacts.

(** ** sample *)

Section SampleFacts.
Context {T : Type} (rand : nat -> N).

(** The first loop copies [take k l] to the slots after [P]. *)
Lemma sample_fill_spec k (P Q l : list T) :
  (length (take k l) <= length Q)%nat ->
  sample_fill k (Z.of_nat (length P)) l (P ++ Q) =
    Ok (if Nat.ltb (length l) k then inl (Z.of_nat (length P + length l)) else inr (drop k l))
       (P ++ take k l ++ drop (length (take k l)) Q).
Proof.
  revert P Q l. induction k as [|k IH]; intros P Q l Hl; cbn [sample_fill].
  { destruct (Nat.ltb_spec (length l) 0); [lia|]. done. }
  destruct l as [|x r]; simpl.
  { rewrite Nat.add_0_r. done. }
  destruct Q as [|h Q]; simpl in Hl; [lia|].
  rewrite (bind_Ok _ _ _ ((P ++ [x]) ++ Q) tt).
  2: { rewrite write_Ok; [|lia|rewrite length_app; simpl; lia].
       rewrite Nat2Z.id, <- (Nat.add_0_r (length P)), insert_app_r. by rewrite <- app_assoc. }
  replace (Z.of_nat (length P) + 1) with (Z.of_nat (length (P ++ [x]))) by (rewrite length_app; simpl; lia).
  rewrite IH by lia. rewrite <- app_assoc, length_app. simpl.
  destruct (Nat.ltb_spec (length r) k), (Nat.ltb_spec (S (length r)) (S k)); try lia; f_equal; f_equal; lia.
Qed.

(** Overwriting one slot of a sub-multiset of [P] with [x] gives a
    sub-multiset of [P ++ [x]]. *)
Lemma insert_submseteq (R P : list T) j x :
  (j < length R)%nat -> R ⊆+ P -> <[j := x]> R ⊆+ P ++ [x].
Proof.
  intros Hj HR. destruct (lookup_lt_is_Some_2 R j Hj) as [y Hy].
  rewrite insert_take_drop by done.
  rewrite <- Permutation_middle, (Permutation_app_comm P [x]). simpl. apply submseteq_skip.
  transitivity R; [|done]. rewrite <- (take_drop_middle R j y Hy) at 3.
  apply submseteq_app; [done|]. by apply submseteq_cons.
Qed.

(** The second loop overwrites slots of the reservoir [R] (the first
    [count] slots) only. *)
Lemma sample_reservoir_spec c range count (R Q P l : list T) :
  Z.of_nat (length R) = count -> count < range -> R ⊆+ P ->
  exists R', sample_reservoir rand c range count l (R ++ Q) = Ok tt (R' ++ Q) /\
    length R' = length R /\ R' ⊆+ P ++ l.
Proof.
  revert c range R P. induction l as [|x l IH]; intros c range R P HR Hr HP; cbn [sample_reservoir].
  { exists R. rewrite app_nil_r. done. }
  pose proof (Z.mod_pos_bound (Z.of_N (rand c)) range ltac:(lia)) as Hj.
  unfold ARRAY_ALG_RANDOM. set (j := Z.of_N (rand c) mod range) in *.
  destruct (Z.ltb_spec j count) as [Hjc|Hjc].
  - rewrite (bind_Ok _ _ _ (<[Z.to_nat j := x]> R ++ Q) tt).
    2: { rewrite write_Ok; [|lia|rewrite length_app; lia]. rewrite insert_app_l; [done|lia]. }
    destruct (IH (S c) (range + 1) (<[Z.to_nat j := x]> R) (P ++ [x])) as (R' & Hr' & HL & HS).
    + by rewrite length_insert.
    + lia.
    + apply insert_submseteq; [lia|done].
    + exists R'. split; [done|]. rewrite HL, length_insert. split; [done|].
      by rewrite <- app_assoc in HS.
  - destruct (IH (S c) (range + 1) R (P ++ [x])) as (R' & Hr' & HL & HS); [done|lia|by apply submseteq_inserts_r|].
    exists R'. split; [done|]. split; [done|]. by rewrite <- app_assoc in HS.
Qed.

End SampleFacts.

(** ** C1: sort *)

(** C1: for a strict weak ordering, [sort] over a whole array leaves a
    permutation of the original contents that is non-decreasing under the
    comparator; on a non-empty array it runs without fault.  (On an empty
    range the contents are unchanged, but the final self-swap reads out of
    range, see C4.) *)
Theorem sort_sorted_permutation {T} (cmp : T -> T -> Z) (Hc : strict_weak_order cmp)
    (l : list T) :
  exists l', contents (sort_array cmp l) = l' /\ l' ≡ₚ l /\ is_sorted cmp l' = true /\
    (l <> [] -> sort_array cmp l = Ok tt l').
Proof.
  destruct (decide (l = [])) as [->|Hne].
  { exists []. split; [reflexivity|]. split; [done|]. split; [done|]. done. }
  assert (Hlen : 1 <= Z.of_nat (length l)) by (destruct l; [done|simpl; lia]).
  unfold sort_array, sort.
  destruct (quick_sort_spec cmp Hc (S (Z.to_nat (Z.of_nat (length l) - 0))) l 0 (Z.of_nat (length l)))
    as (r & a1 & Hqs & Hseg & Hr & Hr0 & Hord); [lia|lia|lia|].
  pose proof (perm_quick_sort cmp (S (Z.to_nat (Z.of_nat (length l) - 0))) 0 (Z.of_nat (length l)) l)
    as Hp1.
  rewrite Hqs in Hp1. simpl in Hp1.
  rewrite (bind_Ok _ _ _ _ r Hqs).
  pose proof Hseg as (Hl1 & _ & _).
  destruct (min_element_spec cmp Hc a1 0 r) as (mi & m & Hmin & Hmi & Hm & Hmall); [lia|lia|].
  rewrite (bind_Ok _ _ _ _ mi Hmin).
  destruct (lookup_lt_is_Some_2 a1 (Z.to_nat 0)) as [v0 Hv0]; [lia|].
  rewrite (bind_Ok _ _ _ (<[Z.to_nat mi := v0]> (<[Z.to_nat 0 := m]> a1)) tt)
    by (apply swap_Ok; [lia|lia|done|done]).
  pose proof (perm_swap (T:=T) 0 mi a1) as Hp2.
  rewrite (swap_Ok a1 0 mi v0 m) in Hp2 by (lia || done). simpl in Hp2.
  assert (H0 : <[Z.to_nat mi := v0]> (<[Z.to_nat 0 := m]> a1) !! Z.to_nat 0 = Some m).
  { rewrite (lookup_swap a1 0 mi 0 v0 m) by (lia || done).
    destruct (Z.eqb_spec 0 mi) as [<-|]; [congruence|done]. }
  assert (Hlow : forall y, y ∈ a1 -> le cmp m y).
  { intros y Hy. apply list_elem_of_lookup in Hy as [t Hy].
    pose proof (lookup_lt_Some _ _ _ Hy).
    destruct (Z.lt_ge_cases (Z.of_nat t) r).
    - apply (Hmall (Z.of_nat t)); [lia|by rewrite Nat2Z.id].
    - apply (Hord mi (Z.of_nat t)); [lia|lia|done|by rewrite Nat2Z.id]. }
  revert Hp2 H0.
  generalize (<[Z.to_nat mi := v0]> (<[Z.to_nat 0 := m]> a1)) as a2.
  intros a2 Hp2 H0.
  destruct a2 as [|m' rest]; [done|]. simpl in H0. injection H0 as ->.
  unfold _insertion_sort_unguarded.
  destruct (Z.eqb_spec 0 (Z.of_nat (length l))); [lia|].
  assert (Hrest : length rest = Z.to_nat (Z.of_nat (length l) - (0 + 1))).
  { apply Permutation_length in Hp2, Hp1. simpl in Hp2. lia. }
  rewrite <- Hrest.
  destruct (insertion_loop_spec cmp Hc rest [m] m) as (s' & Hrun & Hperm & Hsort).
  - constructor; constructor.
  - by left.
  - apply Forall_forall. intros z Hz. apply (ge_of_le cmp Hc).
    apply Hlow. rewrite <- Hp2. apply elem_of_cons. by right.
  - exists s'.
    assert (Hrun' : insertion_loop cmp (length rest) (0 + 1) (m :: rest) = Ok tt s')
      by exact Hrun.
    rewrite Hrun'.
    split; [done|]. split.
    + rewrite Hperm, <- Hp1. simpl. done.
    + split; [by apply (is_sorted_Sorted cmp)|done].
Qed.

(** Witness: 40 integers, so that the quick sort partitions before the
    insertion sort runs. *)
Lemma sort_sorted_permutation_witness :
  strict_weak_order cmp_int /\
  exists l', contents (sort_array cmp_int (map (fun n => Z.of_nat n * 7 mod 13) (seq 0 40))) = l' /\
    l' ≡ₚ map (fun n => Z.of_nat n * 7 mod 13) (seq 0 40) /\ is_sorted cmp_int l' = true /\
    (map (fun n => Z.of_nat n * 7 mod 13) (seq 0 40) <> [] ->
     sort_array cmp_int (map (fun n => Z.of_nat n * 7 mod 13) (seq 0 40)) = Ok tt l').
Proof.
  split; [exact cmp_int_swo|].
  apply (sort_sorted_permutation cmp_int cmp_int_swo).
Defined.

(** ** C6: nth_element *)

(** C6: for a strict weak ordering, [nth_element] over a whole array of
    [n] elements with [0 <= nth < n] runs without fault and leaves a
    permutation of the original contents in which every element before
    [nth] compares [<=] the element at [nth], every element from [nth] on
    compares [>=] it, and that element is equivalent under the comparator
    to the element at [nth] of any non-decreasing rearrangement (the
    result of a full sort). *)
Theorem nth_element_selects {T} (cmp : T -> T -> Z) (Hc : strict_weak_order cmp)
    (l : list T) (nth : Z) :
  0 <= nth < Z.of_nat (length l) ->
  exists l' xn, nth_element cmp 0 nth (Z.of_nat (length l)) l = Ok tt l' /\ l' ≡ₚ l /\
    l' !! Z.to_nat nth = Some xn /\
    (forall s x, 0 <= s < nth -> l' !! Z.to_nat s = Some x -> cmp x xn <= 0) /\
    (forall t y, nth <= t < Z.of_nat (length l) -> l' !! Z.to_nat t = Some y -> 0 <= cmp y xn) /\
    (forall srt, srt ≡ₚ l -> is_sorted cmp srt = true ->
       exists z, srt !! Z.to_nat nth = Some z /\ cmp xn z = 0).
Proof.
  intros Hn. unfold nth_element.
  destruct (nth_element_loop_spec cmp Hc (S (Z.to_nat (Z.of_nat (length l) - 0))) l 0 nth
              (Z.of_nat (length l))) as (l' & Hrun & Hseg & Hord);
    [lia|lia|lia|lia|intros; lia|intros; lia|].
  pose proof (perm_nth_element_loop cmp (S (Z.to_nat (Z.of_nat (length l) - 0))) 0 nth
                (Z.of_nat (length l)) l) as Hp.
  rewrite Hrun in Hp. simpl in Hp.
  pose proof Hseg as (Hl' & _ & _).
  destruct (lookup_lt_is_Some_2 l' (Z.to_nat nth)) as [xn Hxn]; [lia|].
  exists l', xn. split; [done|]. split; [done|]. split; [done|].
  split; [|split].
  - intros s x Hs Hx. apply (Hord s nth); [lia|lia|done|done].
  - intros t y Ht Hy. apply (ge_of_le cmp Hc). apply (Hord nth t); [lia|lia|done|done].
  - intros srt Hsrt Hsorted.
    apply (sorted_position cmp Hc l' srt (Z.to_nat nth) xn).
    + by rewrite Hp.
    + by apply (is_sorted_Sorted cmp).
    + done.
    + intros s y Hs Hy. apply (Hord (Z.of_nat s) nth); [lia|lia|by rewrite Nat2Z.id|done].
    + intros t y Ht Hy. pose proof (lookup_lt_Some _ _ _ Hy).
      apply (Hord nth (Z.of_nat t)); [lia|lia|done|by rewrite Nat2Z.id].
Qed.

Lemma nth_element_selects_witness :
  0 <= 4 < Z.of_nat (length [7; 2; 9; 4; 0; 8; 1; 6; 3; 5]) /\
  exists l' xn, nth_element cmp_int 0 4 (Z.of_nat (length [7; 2; 9; 4; 0; 8; 1; 6; 3; 5]))
      [7; 2; 9; 4; 0; 8; 1; 6; 3; 5] = Ok tt l' /\ l' ≡ₚ [7; 2; 9; 4; 0; 8; 1; 6; 3; 5] /\
    l' !! Z.to_nat 4 = Some xn /\
    (forall s x, 0 <= s < 4 -> l' !! Z.to_nat s = Some x -> cmp_int x xn <= 0) /\
    (forall t y, 4 <= t < Z.of_nat (length [7; 2; 9; 4; 0; 8; 1; 6; 3; 5]) ->
       l' !! Z.to_nat t = Some y -> 0 <= cmp_int y xn) /\
    (forall srt, srt ≡ₚ [7; 2; 9; 4; 0; 8; 1; 6; 3; 5] -> is_sorted cmp_int srt = true ->
       exists z, srt !! Z.to_nat 4 = Some z /\ cmp_int xn z = 0).
Proof.
  split; [simpl; lia|].
  apply (nth_element_selects cmp_int cmp_int_swo). simpl; lia.
Defined.

(** ** C7: next_permutation *)

(** C7: for a strict weak ordering and a range of [n] elements in
    strictly ascending order under it (so pairwise distinct), the test
    driver's [n!] successive calls of [next_permutation] visit [n!]
    pairwise different states, starting from the range itself; each call
    but the last returns [true] and moves to a lexicographically greater
    state; the last call returns [false] and leaves the range in its
    original ascending order; and every rearrangement of the range is
    visited. *)
Theorem next_permutation_enumerates {T} (cmp : T -> T -> Z) (Hc : strict_weak_order cmp)
    (l : list T) :
  Sorted (fun u v => cmp u v < 0) l ->
  length (np_states cmp (fact (length l)) l) = fact (length l) /\
  np_states cmp (fact (length l)) l !! 0%nat = Some l /\
  NoDup (np_states cmp (fact (length l)) l) /\
  (forall i b b', np_states cmp (fact (length l)) l !! i = Some b ->
     np_states cmp (fact (length l)) l !! S i = Some b' ->
     next_permutation cmp 0 (Z.of_nat (length l)) b = Ok true b' /\ lex_lt cmp b b') /\
  (exists b, np_states cmp (fact (length l)) l !! (fact (length l) - 1)%nat = Some b /\
     next_permutation cmp 0 (Z.of_nat (length l)) b = Ok false l) /\
  (forall p, p ≡ₚ l -> p ∈ np_states cmp (fact (length l)) l).
Proof.
  intros Hs. destruct (ascending_distinct cmp Hc l Hs) as [Hss Hd].
  pose proof (lt_O_fact (length l)) as Hf.
  pose proof (lex_rank_asc cmp l Hss) as Hr0.
  set (k := (fact (length l) - 1)%nat).
  assert (E : fact (length l) = S k) by (subst k; lia).
  rewrite E. replace (S k - 1)%nat with k by lia.
  destruct (np_states_spec cmp Hc l k l Hss Hd ltac:(done) ltac:(lia))
    as (Hlen & Hb & Hpair & Hlast).
  split; [done|]. split; [cbn [np_states]; done|]. split; [|split; [done|split; [done|]]].
  - apply NoDup_alt. intros i j x Hi Hj.
    destruct (Hb _ _ Hi) as [_ Ri]. destruct (Hb _ _ Hj) as [_ Rj]. lia.
  - intros p Hp.
    assert (Hd' : cmp_distinct cmp p) by (apply (cmp_distinct_perm cmp l); [by symmetry|done]).
    destruct (lookup_lt_is_Some_2 (np_states cmp (S k) l) (lex_rank cmp p)) as [b Hbp].
    { rewrite Hlen. pose proof (lex_rank_lt cmp p) as Hlt.
      rewrite (Permutation_length Hp), E in Hlt. lia. }
    destruct (Hb _ _ Hbp) as [Hbl Hrb].
    assert (b = p) as ->.
    { apply (lex_rank_inj cmp Hc); [by rewrite Hbl, Hp|by apply (cmp_distinct_perm cmp l); [symmetry|]|lia]. }
    apply list_elem_of_lookup. by exists (lex_rank cmp p).
Qed.

Lemma next_permutation_enumerates_witness :
  Sorted (fun u v => cmp_int u v < 0) [1; 2; 3; 4] /\
  length (np_states cmp_int (fact (length [1; 2; 3; 4])) [1; 2; 3; 4]) = fact (length [1; 2; 3; 4]) /\
  np_states cmp_int (fact (length [1; 2; 3; 4])) [1; 2; 3; 4] !! 0%nat = Some [1; 2; 3; 4] /\
  NoDup (np_states cmp_int (fact (length [1; 2; 3; 4])) [1; 2; 3; 4]) /\
  (forall i b b', np_states cmp_int (fact (length [1; 2; 3; 4])) [1; 2; 3; 4] !! i = Some b ->
     np_states cmp_int (fact (length [1; 2; 3; 4])) [1; 2; 3; 4] !! S i = Some b' ->
     next_permutation cmp_int 0 (Z.of_nat (length [1; 2; 3; 4])) b = Ok true b' /\ lex_lt cmp_int b b') /\
  (exists b, np_states cmp_int (fact (length [1; 2; 3; 4])) [1; 2; 3; 4]
               !! (fact (length [1; 2; 3; 4]) - 1)%nat = Some b /\
     next_permutation cmp_int 0 (Z.of_nat (length [1; 2; 3; 4])) b = Ok false [1; 2; 3; 4]) /\
  (forall p, p ≡ₚ [1; 2; 3; 4] -> p ∈ np_states cmp_int (fact (length [1; 2; 3; 4])) [1; 2; 3; 4]).
Proof.
  assert (Hs : Sorted (fun u v => cmp_int u v < 0) [1; 2; 3; 4]).
  { repeat constructor; unfold cmp_int; lia. }
  split; [exact Hs|].
  apply (next_permutation_enumerates cmp_int cmp_int_swo). exact Hs.
Defined.

(** * Further properties of the library *)

(** ** Binary search *)

Lemma sorted_sample_sorted : Sorted (le cmp_int) sorted_sample.
Proof. repeat constructor; unfold le, cmp_int; lia. Qed.

(** X1: on a non-decreasing array, [lower_bound] returns without fault a
    position [p] such that every element before [p] compares below
    [value] and no element from [p] on does. *)
Theorem lower_bound_partitions {T} (cmp : T -> T -> Z) (Hc : strict_weak_order cmp)
    (l : list T) (value : T) :
  Sorted (le cmp) l ->
  exists p, lower_bound cmp 0 (Z.of_nat (length l)) value l = Ok p l /\
    0 <= p <= Z.of_nat (length l) /\
    (forall i x, 0 <= i < p -> l !! Z.to_nat i = Some x -> cmp x value < 0) /\
    (forall i x, p <= i < Z.of_nat (length l) -> l !! Z.to_nat i = Some x -> 0 <= cmp x value).
Proof. intros Hs. apply (lower_bound_seg cmp Hc); [done|lia|lia]. Qed.

Lemma lower_bound_partitions_witness :
  exists p, lower_bound cmp_int 0 (Z.of_nat (length sorted_sample)) 3 sorted_sample = Ok p sorted_sample /\
    0 <= p <= Z.of_nat (length sorted_sample) /\
    (forall i x, 0 <= i < p -> sorted_sample !! Z.to_nat i = Some x -> cmp_int x 3 < 0) /\
    (forall i x, p <= i < Z.of_nat (length sorted_sample) -> sorted_sample !! Z.to_nat i = Some x ->
       0 <= cmp_int x 3).
Proof.
  apply (lower_bound_partitions cmp_int cmp_int_swo). exact sorted_sample_sorted.
Defined.

(** X2: on a non-decreasing array, [upper_bound] returns without fault a
    position [p] such that no element before [p] compares above [value]
    and every element from [p] on does. *)
Theorem upper_bound_partitions {T} (cmp : T -> T -> Z) (Hc : strict_weak_order cmp)
    (l : list T) (value : T) :
  Sorted (le cmp) l ->
  exists p, upper_bound cmp 0 (Z.of_nat (length l)) value l = Ok p l /\
    0 <= p <= Z.of_nat (length l) /\
    (forall i x, 0 <= i < p -> l !! Z.to_nat i = Some x -> 0 <= cmp value x) /\
    (forall i x, p <= i < Z.of_nat (length l) -> l !! Z.to_nat i = Some x -> cmp value x < 0).
Proof. intros Hs. apply (upper_bound_seg cmp Hc); [done|lia|lia]. Qed.

Lemma upper_bound_partitions_witness :
  exists p, upper_bound cmp_int 0 (Z.of_nat (length sorted_sample)) 3 sorted_sample = Ok p sorted_sample /\
    0 <= p <= Z.of_nat (length sorted_sample) /\
    (forall i x, 0 <= i < p -> sorted_sample !! Z.to_nat i = Some x -> 0 <= cmp_int 3 x) /\
    (forall i x, p <= i < Z.of_nat (length sorted_sample) -> sorted_sample !! Z.to_nat i = Some x ->
       cmp_int 3 x < 0).
Proof.
  apply (upper_bound_partitions cmp_int cmp_int_swo). exact sorted_sample_sorted.
Defined.

(** X3: on a non-decreasing array, [binary_search] returns without fault,
    and it returns true exactly when some element of the array is
    equivalent to [value] under the comparator. *)
Theorem binary_search_finds {T} (cmp : T -> T -> Z) (Hc : strict_weak_order cmp)
    (l : list T) (value : T) :
  Sorted (le cmp) l ->
  exists b, binary_search cmp 0 (Z.of_nat (length l)) value l = Ok b l /\
    (b = true <-> exists x, x ∈ l /\ cmp x value = 0).
Proof.
  intros Hs. unfold binary_search.
  destruct (lower_bound_seg cmp Hc l 0 (Z.of_nat (length l)) value) as (p & Hrun & Hp & Hlo & Hhi);
    [done|lia|lia|].
  rewrite (bind_Ok _ _ _ _ p Hrun).
  destruct (Z.eqb_spec p (Z.of_nat (length l))) as [->|Hne]; cbn [negb].
  - exists false. split; [done|]. split; [done|]. intros (x & Hx & Hx0).
    apply list_elem_of_lookup in Hx as [i Hi]. pose proof (lookup_lt_Some _ _ _ Hi).
    assert (cmp x value < 0) by (apply (Hlo (Z.of_nat i)); [lia|by rewrite Nat2Z.id]). lia.
  - destruct (lookup_lt_is_Some_2 l (Z.to_nat p)) as [y Hy]; [lia|].
    rewrite (bind_Ok _ _ _ _ y) by (apply read_Ok; [lia|done]).
    exists (Z.eqb (cmp y value) 0). split; [done|]. split.
    + intros E. apply Z.eqb_eq in E. exists y. split; [|done].
      apply list_elem_of_lookup. by exists (Z.to_nat p).
    + intros (x & Hx & Hx0). apply Z.eqb_eq.
      apply list_elem_of_lookup in Hx as [i Hi]. pose proof (lookup_lt_Some _ _ _ Hi).
      assert (Hpi : p <= Z.of_nat i).
      { destruct (Z.le_gt_cases p (Z.of_nat i)) as [|Hlt]; [done|].
        assert (cmp x value < 0) by (apply (Hlo (Z.of_nat i)); [lia|by rewrite Nat2Z.id]). lia. }
      assert (Hyx : le cmp y x).
      { destruct (Z.eq_dec p (Z.of_nat i)) as [E|].
        - rewrite E, Nat2Z.id, Hi in Hy. simplify_eq. unfold le. rewrite (cmp_refl cmp Hc). lia.
        - apply (sorted_pairs cmp Hc l p (Z.of_nat i)); [done|lia|done|by rewrite Nat2Z.id]. }
      assert (0 <= cmp y value) by (apply (Hhi p); [lia|done]).
      assert (cmp y value <= 0) by (apply (swo_trans _ Hc _ x); [done|lia]). lia.
Qed.

Lemma binary_search_finds_witness :
  binary_search cmp_int 0 (Z.of_nat (length sorted_sample)) 5 sorted_sample = Ok true sorted_sample /\
  exists b, binary_search cmp_int 0 (Z.of_nat (length sorted_sample)) 4 sorted_sample = Ok b sorted_sample /\
    (b = true <-> exists x, x ∈ sorted_sample /\ cmp_int x 4 = 0).
Proof.
  split; [vm_compute; reflexivity|].
  apply (binary_search_finds cmp_int cmp_int_swo). exact sorted_sample_sorted.
Defined.

(** X4: on a non-decreasing array, [equal_range] returns without fault
    two positions [lower <= upper] that cut the array into the elements
    below [value], the elements equivalent to it and the elements above
    it. *)
Theorem equal_range_brackets {T} (cmp : T -> T -> Z) (Hc : strict_weak_order cmp)
    (l : list T) (value : T) :
  Sorted (le cmp) l ->
  exists lower upper,
    equal_range cmp 0 (Z.of_nat (length l)) value l = Ok (lower, upper) l /\
    0 <= lower <= upper /\ upper <= Z.of_nat (length l) /\
    (forall i x, 0 <= i < lower -> l !! Z.to_nat i = Some x -> cmp x value < 0) /\
    (forall i x, lower <= i < upper -> l !! Z.to_nat i = Some x -> cmp x value = 0) /\
    (forall i x, upper <= i < Z.of_nat (length l) -> l !! Z.to_nat i = Some x -> 0 < cmp x value).
Proof.
  intros Hs. unfold equal_range.
  destruct (lower_bound_seg cmp Hc l 0 (Z.of_nat (length l)) value) as (lo & Hrun & Hlo & Hb & Ha);
    [done|lia|lia|].
  rewrite (bind_Ok _ _ _ _ lo Hrun).
  destruct (upper_bound_seg cmp Hc l lo (Z.of_nat (length l)) value) as (hi & Hrun' & Hhi & Hb' & Ha');
    [done|lia|lia|].
  rewrite (bind_Ok _ _ _ _ hi Hrun').
  exists lo, hi. split; [done|]. split; [lia|]. split; [lia|]. split; [done|]. split.
  - intros i x Hi Hx. pose proof (Ha i x ltac:(lia) Hx). pose proof (Hb' i x ltac:(lia) Hx).
    pose proof (cmp_flip_le cmp Hc _ _ H0). lia.
  - intros i x Hi Hx. pose proof (Ha' i x ltac:(lia) Hx). by apply (cmp_flip_lt cmp Hc).
Qed.

Lemma equal_range_brackets_witness :
  equal_range cmp_int 0 (Z.of_nat (length sorted_sample)) 3 sorted_sample = Ok (1, 3) sorted_sample /\
  exists lower upper,
    equal_range cmp_int 0 (Z.of_nat (length sorted_sample)) 3 sorted_sample = Ok (lower, upper) sorted_sample /\
    0 <= lower <= upper /\ upper <= Z.of_nat (length sorted_sample) /\
    (forall i x, 0 <= i < lower -> sorted_sample !! Z.to_nat i = Some x -> cmp_int x 3 < 0) /\
    (forall i x, lower <= i < upper -> sorted_sample !! Z.to_nat i = Some x -> cmp_int x 3 = 0) /\
    (forall i x, upper <= i < Z.of_nat (length sorted_sample) -> sorted_sample !! Z.to_nat i = Some x ->
       0 < cmp_int x 3).
Proof.
  split; [vm_compute; reflexivity|].
  apply (equal_range_brackets cmp_int cmp_int_swo). exact sorted_sample_sorted.
Defined.

(** ** Insertion sort *)

(** X5: for a strict weak ordering, [insertion_sort] over a whole array
    runs without fault on every array, the empty one included, and
    leaves a non-decreasing permutation of it. *)
Theorem insertion_sort_sorts {T} (cmp : T -> T -> Z) (Hc : strict_weak_order cmp) (l : list T) :
  exists l', insertion_sort cmp 0 (Z.of_nat (length l)) l = Ok tt l' /\
    l' ≡ₚ l /\ Sorted (le cmp) l'.
Proof.
  unfold insertion_sort.
  destruct (Z.eqb_spec 0 (Z.of_nat (length l))) as [E|E].
  { exists l. split; [done|]. split; [done|]. destruct l; [constructor|simpl in E; lia]. }
  destruct (Z.eqb_spec (0 + 1) (Z.of_nat (length l))) as [E1|E1].
  { exists l. split; [done|]. split; [done|].
    destruct l as [|x [|y l]]; simpl in E1; [lia|repeat constructor|lia]. }
  destruct (min_element_spec cmp Hc l 0 (Z.of_nat (length l))) as (mi & m & Hmin & Hmi & Hm & Hmall);
    [lia|lia|].
  rewrite (bind_Ok _ _ _ _ mi Hmin).
  destruct (lookup_lt_is_Some_2 l (Z.to_nat 0)) as [v0 Hv0]; [lia|].
  rewrite (bind_Ok _ _ _ (<[Z.to_nat mi := v0]> (<[Z.to_nat 0 := m]> l)) tt)
    by (apply swap_Ok; [lia|lia|done|done]).
  pose proof (perm_swap (T:=T) 0 mi l) as Hp.
  rewrite (swap_Ok l 0 mi v0 m) in Hp by (lia || done). simpl in Hp.
  assert (H0 : <[Z.to_nat mi := v0]> (<[Z.to_nat 0 := m]> l) !! Z.to_nat 0 = Some m).
  { rewrite (lookup_swap l 0 mi 0 v0 m) by (lia || done).
    destruct (Z.eqb_spec 0 mi) as [<-|]; [congruence|done]. }
  assert (Hlow : forall y, y ∈ l -> le cmp m y).
  { intros y Hy. apply list_elem_of_lookup in Hy as [t Hy].
    pose proof (lookup_lt_Some _ _ _ Hy). apply (Hmall (Z.of_nat t)); [lia|by rewrite Nat2Z.id]. }
  revert Hp H0. generalize (<[Z.to_nat mi := v0]> (<[Z.to_nat 0 := m]> l)) as a2. intros a2 Hp H0.
  pose proof (Permutation_length Hp) as Hlen.
  destruct a2 as [|m' [|x1 rest]]; [done|simpl in Hlen; lia|].
  simpl in H0. injection H0 as ->.
  unfold _insertion_sort_unguarded.
  destruct (Z.eqb_spec (0 + 1) (Z.of_nat (length l))); [lia|].
  replace (Z.to_nat (Z.of_nat (length l) - (0 + 1 + 1))) with (length rest)
    by (simpl in Hlen; lia).
  assert (Hin : forall z, z ∈ m :: x1 :: rest -> le cmp m z) by (intros z Hz; apply Hlow; by rewrite <- Hp).
  destruct (insertion_loop_spec cmp Hc rest [m; x1] m) as (s' & Hrun & Hperm & Hsort).
  - repeat constructor. apply Hin. apply elem_of_cons. right. by left.
  - by left.
  - apply Forall_forall. intros z Hz. apply (ge_of_le cmp Hc). apply Hin.
    apply elem_of_cons. right. apply elem_of_cons. by right.
  - exists s'. split; [exact Hrun|]. split; [|done]. by rewrite Hperm, <- Hp.
Qed.

Lemma insertion_sort_sorts_witness :
  insertion_sort cmp_int 0 0 [] = Ok tt [] /\
  exists l', insertion_sort cmp_int 0 (Z.of_nat (length [5; 2; 9; 2; 7; 1])) [5; 2; 9; 2; 7; 1] = Ok tt l' /\
    l' ≡ₚ [5; 2; 9; 2; 7; 1] /\ Sorted (le cmp_int) l'.
Proof.
  split; [reflexivity|]. apply (insertion_sort_sorts cmp_int cmp_int_swo).
Defined.

(** ** reverse and next_permutation *)

(** X6: for [0 <= first <= last <= n], [reverse first last] runs without
    fault, reverses exactly the elements of [first, last) and leaves the
    rest of the array in place; a second call restores the array. *)
Theorem reverse_segment {T} (l : list T) (first last : Z) :
  0 <= first <= last -> last <= Z.of_nat (length l) ->
  reverse first last l =
    Ok tt (take (Z.to_nat first) l ++ rev (take (Z.to_nat (last - first)) (drop (Z.to_nat first) l))
           ++ drop (Z.to_nat last) l) /\
  reverse first last
    (take (Z.to_nat first) l ++ rev (take (Z.to_nat (last - first)) (drop (Z.to_nat first) l))
     ++ drop (Z.to_nat last) l) = Ok tt l.
Proof.
  intros H0 Hlen.
  set (p := take (Z.to_nat first) l).
  set (q := take (Z.to_nat (last - first)) (drop (Z.to_nat first) l)).
  set (r := drop (Z.to_nat last) l).
  assert (Hl : l = p ++ q ++ r).
  { subst p q r. rewrite <- (take_drop (Z.to_nat first) l) at 1. f_equal.
    rewrite <- (take_drop (Z.to_nat (last - first)) (drop (Z.to_nat first) l)) at 1. f_equal.
    rewrite drop_drop. f_equal. lia. }
  assert (Hp : Z.to_nat first = length p) by (subst p; rewrite length_take; lia).
  assert (Hq : last = first + Z.of_nat (length q))
    by (subst q; rewrite length_take, length_drop; lia).
  clearbody p q r. subst l last. split.
  - apply reverse_spec; [done|lia].
  - replace (length q) with (length (rev q)) by apply length_rev.
    rewrite reverse_spec by (done || lia). by rewrite rev_involutive.
Qed.

Lemma reverse_segment_witness :
  reverse 1 4 [1; 2; 3; 4; 5] = Ok tt [1; 4; 3; 2; 5] /\
  reverse 1 4 [1; 2; 3; 4; 5] =
    Ok tt (take (Z.to_nat 1) [1; 2; 3; 4; 5] ++ rev (take (Z.to_nat (4 - 1)) (drop (Z.to_nat 1) [1; 2; 3; 4; 5]))
           ++ drop (Z.to_nat 4) [1; 2; 3; 4; 5]) /\
  reverse 1 4
    (take (Z.to_nat 1) [1; 2; 3; 4; 5] ++ rev (take (Z.to_nat (4 - 1)) (drop (Z.to_nat 1) [1; 2; 3; 4; 5]))
     ++ drop (Z.to_nat 4) [1; 2; 3; 4; 5]) = Ok tt [1; 2; 3; 4; 5].
Proof.
  split; [reflexivity|]. apply (reverse_segment [1; 2; 3; 4; 5] 1 4); simpl; lia.
Defined.

(** X7: for a strict weak ordering, one call of [next_permutation] over
    a whole array runs without fault and leaves a permutation of it; it
    returns false exactly when the array is non-increasing, and then
    leaves it reversed; when it returns true the new arrangement is
    lexicographically greater than the old one. *)
Theorem next_permutation_step {T} (cmp : T -> T -> Z) (Hc : strict_weak_order cmp) (l : list T) :
  exists b l', next_permutation cmp 0 (Z.of_nat (length l)) l = Ok b l' /\ l' ≡ₚ l /\
    (b = false <-> Sorted (fun u v => 0 <= cmp u v) l) /\
    (b = false -> l' = rev l) /\
    (b = true -> lex_lt cmp l l').
Proof.
  destruct (next_permutation_cases cmp l)
    as [[Hs Hrun]|(p & x & r1 & y & r3 & -> & Hs & Hxy & Hr3 & Hrun)].
  - exists false, (rev l). split; [done|]. split; [by rewrite <- Permutation_rev|].
    split; [done|]. split; [done|]. discriminate.
  - exists true, (p ++ y :: rev (r1 ++ x :: r3)). split; [done|].
    split; [apply next_permutation_perm|]. split.
    + split; [discriminate|]. intros Hs'. exfalso.
      apply Sorted_StronglySorted in Hs'; [|intros u v w; apply (ge_trans cmp Hc)].
      apply SS_app_inv in Hs' as (_ & Hs' & _).
      inversion Hs' as [|? ? _ Hf]; subst. rewrite Forall_forall in Hf.
      assert (0 <= cmp x y) by (apply Hf, elem_of_app; right; by left). lia.
    + split; [discriminate|]. intros _. by apply (lex_lt_step cmp Hc).
Qed.

Lemma next_permutation_step_witness :
  next_permutation cmp_int 0 4 [1; 3; 4; 2] = Ok true [1; 4; 2; 3] /\
  exists b l', next_permutation cmp_int 0 (Z.of_nat (length [1; 3; 4; 2])) [1; 3; 4; 2] = Ok b l' /\
    l' ≡ₚ [1; 3; 4; 2] /\
    (b = false <-> Sorted (fun u v => 0 <= cmp_int u v) [1; 3; 4; 2]) /\
    (b = false -> l' = rev [1; 3; 4; 2]) /\
    (b = true -> lex_lt cmp_int [1; 3; 4; 2] l').
Proof.
  split; [vm_compute; reflexivity|]. apply (next_permutation_step cmp_int cmp_int_swo).
Defined.

(** ** Heaps *)

(** X8: for a strict weak ordering, [make_heap] over a whole array runs
    without fault and leaves a permutation of it that has the max-heap
    property over the whole range; on a non-empty array [is_heap] then
    returns true. *)
Theorem make_heap_builds_heap {T} (cmp : T -> T -> Z) (Hc : strict_weak_order cmp) (l : list T) :
  exists l', make_heap cmp 0 (Z.of_nat (length l)) l = Ok tt l' /\ l' ≡ₚ l /\
    heap_prop cmp l' (Z.of_nat (length l)) /\
    (l <> [] -> is_heap cmp 0 (Z.of_nat (length l)) l' = Ok true l').
Proof.
  unfold make_heap. rewrite Z.sub_0_r.
  assert (Hrun : exists l', make_heap_n cmp 0 (Z.of_nat (length l)) l = Ok tt l' /\
                   heap_prop cmp l' (Z.of_nat (length l)) /\ length l' = length l).
  { unfold make_heap_n. destruct (Z.le_gt_cases (Z.of_nat (length l)) 1).
    - replace (Z.to_nat (Z.of_nat (length l) - 1)) with 0%nat by lia.
      exists l. split; [done|]. split; [|done]. intros i. lia.
    - destruct (make_heap_loop_spec cmp Hc (Z.to_nat (Z.of_nat (length l) - 1)) 2 l)
        as (l' & Hr & Hh & Hl); [lia|lia| intros i; lia |].
      exists l'. split; [done|]. split; [|done].
      assert (E : 2 - 1 + Z.of_nat (Z.to_nat (Z.of_nat (length l) - 1)) = Z.of_nat (length l))
        by lia.
      by rewrite E in Hh. }
  destruct Hrun as (l' & Hr & Hh & Hl).
  pose proof (perm_make_heap_n cmp 0 (Z.of_nat (length l)) l) as Hp. rewrite Hr in Hp.
  exists l'. split; [done|]. split; [done|]. split; [done|].
  intros Hne. apply (is_heap_true cmp); [destruct l; [done|simpl; lia]|lia|done].
Qed.

Lemma make_heap_builds_heap_witness :
  exists l', make_heap cmp_int 0 (Z.of_nat (length [3; 1; 4; 1; 5; 9; 2; 6])) [3; 1; 4; 1; 5; 9; 2; 6] = Ok tt l' /\
    l' ≡ₚ [3; 1; 4; 1; 5; 9; 2; 6] /\
    heap_prop cmp_int l' (Z.of_nat (length [3; 1; 4; 1; 5; 9; 2; 6])) /\
    ([3; 1; 4; 1; 5; 9; 2; 6] <> [] ->
     is_heap cmp_int 0 (Z.of_nat (length [3; 1; 4; 1; 5; 9; 2; 6])) l' = Ok true l').
Proof. apply (make_heap_builds_heap cmp_int cmp_int_swo). Defined.

(** X9: for a strict weak ordering, [sort_heap] over a whole array that
    has the max-heap property runs without fault and leaves a
    non-decreasing permutation of it. *)
Theorem sort_heap_sorts {T} (cmp : T -> T -> Z) (Hc : strict_weak_order cmp) (l : list T) :
  heap_prop cmp l (Z.of_nat (length l)) ->
  exists l', sort_heap cmp 0 (Z.of_nat (length l)) l = Ok tt l' /\ l' ≡ₚ l /\ Sorted (le cmp) l'.
Proof.
  intros Hh. unfold sort_heap. rewrite Z.sub_0_r, Nat2Z.id.
  destruct (sort_heap_loop_spec cmp Hc (length l) l []) as (l' & Hr & Hp & Hs);
    [done|by rewrite app_nil_r|constructor|intros u v _ Hv; by apply elem_of_nil in Hv|].
  rewrite app_nil_r in Hr, Hp. by exists l'.
Qed.

Lemma sort_heap_sorts_witness :
  heap_prop cmp_int [9; 5; 8; 1; 3] 5 /\
  exists l', sort_heap cmp_int 0 (Z.of_nat (length [9; 5; 8; 1; 3])) [9; 5; 8; 1; 3] = Ok tt l' /\
    l' ≡ₚ [9; 5; 8; 1; 3] /\ Sorted (le cmp_int) l'.
Proof.
  assert (Hh : heap_prop cmp_int [9; 5; 8; 1; 3] 5).
  { eapply (is_heap_true_inv cmp_int); [lia|vm_compute; reflexivity]. }
  split; [exact Hh|]. apply (sort_heap_sorts cmp_int cmp_int_swo). exact Hh.
Defined.

(** X10: for a strict weak ordering, [make_heap] followed by [sort_heap]
    over a whole array (heap sort) runs without fault and leaves a
    non-decreasing permutation of it. *)
Theorem heap_sort_sorts {T} (cmp : T -> T -> Z) (Hc : strict_weak_order cmp) (l : list T) :
  exists l', (let* _ := make_heap cmp 0 (Z.of_nat (length l)) in
              sort_heap cmp 0 (Z.of_nat (length l))) l = Ok tt l' /\
    l' ≡ₚ l /\ Sorted (le cmp) l'.
Proof.
  assert (Hmk : exists l1, make_heap cmp 0 (Z.of_nat (length l)) l = Ok tt l1 /\ l1 ≡ₚ l /\
                  heap_prop cmp l1 (Z.of_nat (length l))).
  { unfold make_heap, make_heap_n. rewrite Z.sub_0_r.
    pose proof (perm_make_heap_n cmp 0 (Z.of_nat (length l)) l) as Hp. unfold make_heap_n in Hp.
    destruct (Z.le_gt_cases (Z.of_nat (length l)) 1).
    - replace (Z.to_nat (Z.of_nat (length l) - 1)) with 0%nat by lia.
      exists l. split; [done|]. split; [done|]. intros i. lia.
    - destruct (make_heap_loop_spec cmp Hc (Z.to_nat (Z.of_nat (length l) - 1)) 2 l)
        as (l1 & Hr & Hh & Hl); [lia|lia| intros i; lia |].
      rewrite Hr in Hp. exists l1. split; [done|]. split; [done|].
      assert (E : 2 - 1 + Z.of_nat (Z.to_nat (Z.of_nat (length l) - 1)) = Z.of_nat (length l))
        by lia.
      by rewrite E in Hh. }
  destruct Hmk as (l1 & Hr1 & Hp1 & Hh1).
  rewrite (bind_Ok _ _ _ _ tt Hr1).
  pose proof (Permutation_length Hp1) as Hl1.
  unfold sort_heap. rewrite Z.sub_0_r, Nat2Z.id, <- Hl1.
  destruct (sort_heap_loop_spec cmp Hc (length l1) l1 []) as (l' & Hr & Hp & Hs);
    [done|by rewrite app_nil_r, Hl1|constructor|intros u v _ Hv; by apply elem_of_nil in Hv|].
  rewrite app_nil_r in Hr, Hp. exists l'. split; [done|]. split; [|done]. by rewrite Hp.
Qed.

Lemma heap_sort_sorts_witness :
  exists l', (let* _ := make_heap cmp_int 0 (Z.of_nat (length [3; 1; 4; 1; 5; 9; 2; 6])) in
              sort_heap cmp_int 0 (Z.of_nat (length [3; 1; 4; 1; 5; 9; 2; 6]))) [3; 1; 4; 1; 5; 9; 2; 6]
             = Ok tt l' /\
    l' ≡ₚ [3; 1; 4; 1; 5; 9; 2; 6] /\ Sorted (le cmp_int) l'.
Proof. apply (heap_sort_sorts cmp_int cmp_int_swo). Defined.

Lemma is_heap_until_loop_ge {T} (cmp : T -> T -> Z) fuel h f last (s s' : list T) r :
  is_heap_until_loop cmp fuel h f last s = Ok r s' -> f <= r.
Proof.
  revert h f s. induction fuel as [|fuel IH]; intros h f s H; [discriminate|].
  cbn [is_heap_until_loop] in H.
  destruct (Z.eqb_spec f last); [injection H; lia|].
  apply bind_read_inv in H as (vh & _ & _ & H). apply bind_read_inv in H as (x & _ & _ & H).
  destruct (Z.ltb (cmp vh x) 0); [injection H; lia|].
  destruct (Z.eqb_spec (f + 1) last); [injection H; lia|].
  apply bind_read_inv in H as (vh' & _ & _ & H). apply bind_read_inv in H as (x' & _ & _ & H).
  destruct (Z.ltb (cmp vh' x') 0); [injection H; lia|].
  apply IH in H. lia.
Qed.

(** X11: [is_heap] over an empty range [first, first) never returns
    true: the scan starts at [first + 1], past the end of the range, so
    it returns false or reads out of range; on an empty array it reads
    out of range at position 0. *)
Theorem is_heap_empty_range {T} (cmp : T -> T -> Z) (l : list T) (first : Z) :
  match is_heap cmp first first l with Ok b _ => b = false | Fault _ _ => True end /\
  is_heap cmp 0 0 (@nil T) = Fault (OutOfRange 0) [].
Proof.
  split; [|reflexivity].
  unfold is_heap, is_heap_until, bind.
  destruct (is_heap_until_loop cmp _ first (first + 1) first l) as [r s|] eqn:E; [|done].
  apply is_heap_until_loop_ge in E. cbn. apply Z.eqb_neq. lia.
Qed.

(** X12: over a whole array, [is_sorted_until] changes nothing and
    returns the position [p] of the first element that compares above
    its predecessor, or the end when there is none: every neighbour pair
    before [p] compares [<= 0], the pair ending at [p] compares [> 0],
    and [p] is at least 1 on a non-empty array.  [is_sorted] answers
    exactly the value-level check [is_sorted] on the elements. *)
Theorem is_sorted_until_first_descent {T} (cmp : T -> T -> Z) (l : list T) :
  exists p, is_sorted_until cmp 0 (Z.of_nat (length l)) l = Ok p l /\
    0 <= p <= Z.of_nat (length l) /\ (l <> [] -> 1 <= p) /\
    (forall i x y, 1 <= i < p -> l !! Z.to_nat (i - 1) = Some x ->
       l !! Z.to_nat i = Some y -> cmp x y <= 0) /\
    (p < Z.of_nat (length l) -> exists x y, l !! Z.to_nat (p - 1) = Some x /\
       l !! Z.to_nat p = Some y /\ 0 < cmp x y) /\
    is_sorted_range cmp 0 (Z.of_nat (length l)) l = Ok (is_sorted cmp l) l.
Proof.
  destruct l as [|a l0] eqn:El.
  - exists 0. repeat split; try done; try (intros; exfalso; simpl in *; lia).
  - rewrite <- El. assert (Hlen : 1 <= Z.of_nat (length l)) by (subst l; simpl; lia).
    destruct (is_sorted_until_loop_spec cmp l (S (Z.to_nat (Z.of_nat (length l) - 0))) 0 1)
      as (p & Hr & Hb & Hall & Hlast); [lia|lia|lia|].
    assert (Hu : is_sorted_until cmp 0 (Z.of_nat (length l)) l = Ok p l).
    { unfold is_sorted_until. destruct (Z.eqb_spec 0 (Z.of_nat (length l))); [lia|]. exact Hr. }
    assert (Hall' : forall i x y, 1 <= i < p -> l !! Z.to_nat (i - 1) = Some x ->
       l !! Z.to_nat i = Some y -> cmp x y <= 0).
    { intros i x y Hi Hx Hy. specialize (Hall i x y Hi Hx Hy). rewrite Z.gtb_ltb, Z.ltb_ge in Hall. lia. }
    exists p. split; [done|]. split; [lia|]. split; [intros; lia|]. split; [done|].
    split.
    { intros Hp. destruct (Hlast Hp) as (x & y & Hx & Hy & B).
      exists x, y. rewrite Z.gtb_ltb, Z.ltb_lt in B. auto. }
    unfold is_sorted_range. rewrite (bind_Ok _ _ _ _ _ Hu). f_equal.
    destruct (Z.eqb_spec p (Z.of_nat (length l))) as [E|E].
    + symmetry. apply is_sorted_Sorted, Sorted_lookup_iff. intros k u v Hu' Hv'.
      unfold le. apply (Hall' (Z.of_nat (S k))).
      * apply lookup_lt_Some in Hv'. lia.
      * by replace (Z.to_nat (Z.of_nat (S k) - 1)) with k by lia.
      * by rewrite Nat2Z.id.
    + symmetry. apply not_true_is_false. rewrite is_sorted_Sorted, Sorted_lookup_iff.
      intros H. destruct (Hlast ltac:(lia)) as (x & y & Hx & Hy & B).
      rewrite Z.gtb_ltb, Z.ltb_lt in B.
      specialize (H (Z.to_nat (p - 1)) x y Hx). unfold le in H.
      replace (S (Z.to_nat (p - 1))) with (Z.to_nat p) in H by lia. specialize (H Hy). lia.
Qed.

(** X13: over a whole array, [is_strictly_increasing_until] changes
    nothing and returns the position [p] of the first element that does
    not compare strictly above its predecessor, or the end: every
    neighbour pair before [p] compares [< 0] and the pair ending at [p]
    compares [>= 0].  [is_strictly_increasing] is true exactly when every
    neighbour pair compares [< 0]. *)
Theorem is_strictly_increasing_until_first_repeat {T} (cmp : T -> T -> Z) (l : list T) :
  exists p, is_strictly_increasing_until cmp 0 (Z.of_nat (length l)) l = Ok p l /\
    0 <= p <= Z.of_nat (length l) /\ (l <> [] -> 1 <= p) /\
    (forall i x y, 1 <= i < p -> l !! Z.to_nat (i - 1) = Some x ->
       l !! Z.to_nat i = Some y -> cmp x y < 0) /\
    (p < Z.of_nat (length l) -> exists x y, l !! Z.to_nat (p - 1) = Some x /\
       l !! Z.to_nat p = Some y /\ 0 <= cmp x y) /\
    exists b, is_strictly_increasing cmp 0 (Z.of_nat (length l)) l = Ok b l /\
      (b = true <-> Sorted (fun u v => cmp u v < 0) l).
Proof.
  destruct l as [|a l0] eqn:El.
  - exists 0. repeat split; try done; try (intros; exfalso; simpl in *; lia).
    exists true. split; [done|]. split; auto.
  - rewrite <- El. assert (Hlen : 1 <= Z.of_nat (length l)) by (subst l; simpl; lia).
    destruct (is_strictly_increasing_until_loop_spec cmp l (S (Z.to_nat (Z.of_nat (length l) - 0))) 0 1)
      as (p & Hr & Hb & Hall & Hlast); [lia|lia|lia|].
    assert (Hu : is_strictly_increasing_until cmp 0 (Z.of_nat (length l)) l = Ok p l).
    { unfold is_strictly_increasing_until. destruct (Z.eqb_spec 0 (Z.of_nat (length l))); [lia|]. exact Hr. }
    assert (Hall' : forall i x y, 1 <= i < p -> l !! Z.to_nat (i - 1) = Some x ->
       l !! Z.to_nat i = Some y -> cmp x y < 0).
    { intros i x y Hi Hx Hy. specialize (Hall i x y Hi Hx Hy). rewrite Z.geb_leb, Z.leb_gt in Hall. lia. }
    exists p. split; [done|]. split; [lia|]. split; [intros; lia|]. split; [done|].
    split.
    { intros Hp. destruct (Hlast Hp) as (x & y & Hx & Hy & B).
      exists x, y. rewrite Z.geb_leb, Z.leb_le in B. auto. }
    exists (p =? Z.of_nat (length l)). unfold is_strictly_increasing.
    rewrite (bind_Ok _ _ _ _ _ Hu). split; [done|].
    rewrite Sorted_lookup_iff. destruct (Z.eqb_spec p (Z.of_nat (length l))) as [E|E].
    + split; [|done]. intros _ k u v Hu' Hv'. apply (Hall' (Z.of_nat (S k))).
      * apply lookup_lt_Some in Hv'. lia.
      * by replace (Z.to_nat (Z.of_nat (S k) - 1)) with k by lia.
      * by rewrite Nat2Z.id.
    + split; [done|]. intros H. destruct (Hlast ltac:(lia)) as (x & y & Hx & Hy & B).
      rewrite Z.geb_leb, Z.leb_le in B.
      specialize (H (Z.to_nat (p - 1)) x y Hx).
      replace (S (Z.to_nat (p - 1))) with (Z.to_nat p) in H by lia. specialize (H Hy). lia.
Qed.

(** X14: over a whole array, [is_partitioned] (a [find_if_not] followed
    by a [find_if]) changes nothing and returns true exactly when no
    element satisfying the predicate comes after one that does not. *)
Theorem is_partitioned_iff {T} (pred : T -> bool) (l : list T) :
  exists b, is_partitioned pred 0 (Z.of_nat (length l)) l = Ok b l /\
    (b = true <-> forall i j x y, (i < j)%nat -> l !! i = Some x -> l !! j = Some y ->
       pred x = false -> pred y = false).
Proof. apply is_partitioned_spec. Qed.

Lemma filter_perm_split {T} (P : T -> bool) (l : list T) :
  List.filter P l ++ List.filter (fun x => negb (P x)) l ≡ₚ l.
Proof.
  induction l as [|x l IH]; simpl; [done|]. destruct (P x); simpl.
  - by rewrite IH.
  - rewrite <- Permutation_middle. by rewrite IH.
Qed.

Lemma in_filter_bool {T} (P : T -> bool) (l : list T) x :
  x ∈ List.filter P l -> P x = true.
Proof. rewrite list_elem_of_In, filter_In. tauto. Qed.

(** X15: over a whole array, [partition] returns [k], the number of
    elements that satisfy the predicate, and leaves a rearrangement of
    the array whose first [k] slots hold exactly those elements in their
    original order, the rest holding the others.  On the result,
    [is_partitioned] returns true and [partition_point] returns [k]. *)
Theorem partition_groups {T} (pred : T -> bool) (l : list T) :
  exists l', partition pred 0 (Z.of_nat (length l)) l =
      Ok (Z.of_nat (length (List.filter pred l))) l' /\
    l' ≡ₚ l /\
    take (length (List.filter pred l)) l' = List.filter pred l /\
    (forall x, x ∈ drop (length (List.filter pred l)) l' -> pred x = false) /\
    is_partitioned pred 0 (Z.of_nat (length l)) l' = Ok true l' /\
    partition_point pred 0 (Z.of_nat (length l)) l' =
      Ok (Z.of_nat (length (List.filter pred l))) l'.
Proof.
  destruct (partition_swap_loop_spec pred l (length l) 0 [] [] ltac:(lia) eq_refl ltac:(done))
    as (Fa & Hr & HFa).
  set (k := length (List.filter pred l)) in *.
  assert (Hpart : partition pred 0 (Z.of_nat (length l)) l = Ok (Z.of_nat k) (List.filter pred l ++ Fa)).
  { unfold partition. rewrite Z.sub_0_r, Nat2Z.id. exact Hr. }
  set (l' := List.filter pred l ++ Fa) in *.
  assert (Hperm : l' ≡ₚ l) by (unfold l'; rewrite HFa; apply filter_perm_split).
  assert (Hlen : length l' = length l) by (by apply Permutation_length).
  assert (Htake : take k l' = List.filter pred l) by (apply take_app_length).
  assert (Hdrop : forall x, x ∈ drop k l' -> pred x = false).
  { intros x Hx. unfold l', k in Hx. rewrite drop_app_length, HFa in Hx.
    apply in_filter_bool in Hx. by apply negb_true_iff. }
  assert (Hat : forall i x, l' !! i = Some x -> pred x = true <-> (i < k)%nat).
  { intros i x Hx. destruct (decide (i < k)%nat) as [Hi|Hi].
    - split; [done|]. intros _. apply (in_filter_bool pred l).
      rewrite <- Htake. apply list_elem_of_lookup. exists i. by rewrite lookup_take_lt.
    - split; [|lia]. intros Hp. rewrite (Hdrop x) in Hp; [done|].
      apply list_elem_of_lookup. exists (i - k)%nat. rewrite lookup_drop.
      by replace (k + (i - k))%nat with i by lia. }
  exists l'. split; [done|]. split; [done|]. split; [done|]. split; [done|]. split.
  - destruct (is_partitioned_spec pred l') as (b & Hb & Hiff). rewrite Hlen in Hb.
    rewrite Hb. f_equal. apply Hiff. intros i j x y Hij Hx Hy Px.
    destruct (pred y) eqn:Py; [|done]. apply (Hat j y Hy) in Py.
    assert (pred x = true) by (apply (Hat i x Hx); lia). congruence.
  - destruct (partition_point_split pred l' 0 (Z.of_nat (length l))) as (p & Hp & Hb & Ht & Hf);
      [lia|lia| |].
    { intros i j x y Hij Hj Hx Hy Py. apply (Hat _ _ Hx). apply (Hat _ _ Hy) in Py. lia. }
    rewrite Hp. f_equal.
    assert (Hk : (k <= length l)%nat) by (unfold k; apply filter_length_le).
    destruct (Z.lt_total p (Z.of_nat k)) as [Hlt|[Heq|Hgt]]; [exfalso| done |exfalso].
    + destruct (lookup_lt_is_Some_2 l' (Z.to_nat p)) as [x Hx]; [lia|].
      specialize (Hf p x ltac:(lia) Hx).
      assert (pred x = true) by (apply (Hat _ _ Hx); lia). congruence.
    + destruct (lookup_lt_is_Some_2 l' k) as [x Hx]; [lia|].
      specialize (Ht (Z.of_nat k) x ltac:(lia) ltac:(by rewrite Nat2Z.id)).
      apply (Hat _ _ Hx) in Ht. lia.
Qed.

(** X16: over a whole array, [remove_if] moves the elements that fail the
    predicate, in their original order, to the front and returns their
    count [k]; the slots from [k] on keep their original contents.
    [remove_if_not] does the same with the elements that satisfy it.  On
    an empty array both return the start of the range. *)
Theorem remove_if_compacts {T} (pred : T -> bool) (l : list T) :
  remove_if pred 0 (Z.of_nat (length l)) l =
    Ok (Z.of_nat (length (List.filter (fun x => negb (pred x)) l)))
       (List.filter (fun x => negb (pred x)) l ++
        drop (length (List.filter (fun x => negb (pred x)) l)) l) /\
  remove_if_not pred 0 (Z.of_nat (length l)) l =
    Ok (Z.of_nat (length (List.filter pred l)))
       (List.filter pred l ++ drop (length (List.filter pred l)) l).
Proof.
  unfold remove_if, remove_if_not. destruct (Z.eqb_spec 0 (Z.of_nat (length l))) as [E|E].
  - destruct l; [done|simpl in E; lia].
  - rewrite Z.sub_0_r, Nat2Z.id. split.
    + apply (remove_if_loop_spec pred l (length l) 0 []); [lia|done].
    + rewrite remove_if_not_loop_eq.
      rewrite (List.filter_ext pred (fun x => negb (negb (pred x))))
        by (intros; by rewrite negb_involutive).
      apply (remove_if_loop_spec (fun x => negb (pred x)) l (length l) 0 []); [lia|done].
Qed.

(** ** Minimum and maximum *)

(** X17: for a strict weak ordering, over a whole non-empty array,
    [min_element] returns the position of the first minimum and
    [max_element] the position of the first maximum, changing nothing;
    on an empty array both return 0, the end of the range. *)
Theorem min_max_element_first {T} (cmp : T -> T -> Z) (Hc : strict_weak_order cmp) (l : list T) :
  exists i j, min_element cmp 0 (Z.of_nat (length l)) l = Ok i l /\
    max_element cmp 0 (Z.of_nat (length l)) l = Ok j l /\
    (l = [] -> i = 0 /\ j = 0) /\
    (l <> [] -> first_min cmp l 0 (Z.of_nat (length l)) i /\ first_max cmp l 0 (Z.of_nat (length l)) j).
Proof.
  destruct l as [|x0 r] eqn:El.
  - exists 0, 0. repeat split; done.
  - rewrite <- El. assert (Hn : 1 <= Z.of_nat (length l)) by (subst l; simpl; lia).
    assert (H0 : l !! Z.to_nat 0 = Some x0) by (by subst l).
    destruct (min_element_loop_first cmp Hc l (Z.to_nat (Z.of_nat (length l) - (0 + 1))) 0 0 (0 + 1))
      as (i & Hi & Hmi); [lia|lia|by apply (single_min cmp Hc l 0 x0)|].
    destruct (max_element_loop_first cmp Hc l (Z.to_nat (Z.of_nat (length l) - (0 + 1))) 0 0 (0 + 1))
      as (j & Hj & Hmj); [lia|lia|by apply (single_max cmp Hc l 0 x0)|].
    replace (0 + 1 + Z.of_nat (Z.to_nat (Z.of_nat (length l) - (0 + 1)))) with (Z.of_nat (length l))
      in Hmi, Hmj by lia.
    exists i, j. unfold min_element, max_element.
    destruct (Z.eqb_spec 0 (Z.of_nat (length l))); [lia|].
    split; [done|]. split; [done|]. split; [intros E; by subst l|]. auto.
Qed.

Lemma min_max_element_first_witness :
  min_element cmp_int 0 6 [3; 1; 4; 1; 5; 5] = Ok 1 [3; 1; 4; 1; 5; 5] /\
  max_element cmp_int 0 6 [3; 1; 4; 1; 5; 5] = Ok 4 [3; 1; 4; 1; 5; 5] /\
  exists i j, min_element cmp_int 0 (Z.of_nat (length [3; 1; 4; 1; 5; 5])) [3; 1; 4; 1; 5; 5] = Ok i [3; 1; 4; 1; 5; 5] /\
    max_element cmp_int 0 (Z.of_nat (length [3; 1; 4; 1; 5; 5])) [3; 1; 4; 1; 5; 5] = Ok j [3; 1; 4; 1; 5; 5] /\
    ([3; 1; 4; 1; 5; 5] = [] -> i = 0 /\ j = 0) /\
    ([3; 1; 4; 1; 5; 5] <> [] -> first_min cmp_int [3; 1; 4; 1; 5; 5] 0 (Z.of_nat (length [3; 1; 4; 1; 5; 5])) i /\
       first_max cmp_int [3; 1; 4; 1; 5; 5] 0 (Z.of_nat (length [3; 1; 4; 1; 5; 5])) j).
Proof.
  split; [reflexivity|]. split; [reflexivity|].
  apply (min_max_element_first cmp_int cmp_int_swo).
Defined.

(** X18: for a strict weak ordering, over a whole array, [minmax_element]
    changes nothing; it leaves its outputs unwritten exactly when the
    array is empty, and otherwise stores the position of the first
    minimum and the position of the last maximum (where [max_element]
    returns the first one). *)
Theorem minmax_element_first_min_last_max {T} (cmp : T -> T -> Z) (Hc : strict_weak_order cmp)
    (l : list T) :
  exists r, minmax_element cmp 0 (Z.of_nat (length l)) l = Ok r l /\ (r = None <-> l = []) /\
    forall i j, r = Some (i, j) ->
      first_min cmp l 0 (Z.of_nat (length l)) i /\ last_max cmp l 0 (Z.of_nat (length l)) j.
Proof.
  destruct l as [|x0 [|x1 r]] eqn:El.
  - exists None. repeat split; done.
  - exists (Some (0, 0)). split; [done|]. split; [done|]. intros i j E. injection E as <- <-.
    split; [apply (single_min cmp Hc _ 0 x0)|apply (single_max cmp Hc _ 0 x0)]; done.
  - rewrite <- El. set (n := Z.of_nat (length l)).
    assert (Hn : 2 <= n) by (unfold n; subst l; simpl; lia).
    assert (H0 : l !! Z.to_nat 0 = Some x0) by (by subst l).
    assert (H1 : l !! Z.to_nat (0 + 1) = Some x1) by (by subst l).
    unfold minmax_element. destruct (Z.eqb_spec 0 n); [lia|]. destruct (Z.eqb_spec (0 + 1) n); [lia|].
    rewrite (bind_Ok _ _ _ _ x1) by (apply read_Ok; [lia|done]).
    rewrite (bind_Ok _ _ _ _ x0) by (apply read_Ok; [lia|done]).
    destruct (pair_min_max cmp Hc l 0 x0 x1 ltac:(lia) H0 H1) as (pi & pa & Ep & Hpi & Hpa).
    rewrite Ep. cbv iota beta.
    destruct (minmax_element_loop_spec cmp Hc l (S (Z.to_nat (n - (0 + 1 + 1)))) (0 + 1 + 1) pi pa)
      as (f & mi & ma & Hr & Hf & Hmi & Hma); [lia|lia|done|done|].
    fold n in Hr, Hf. rewrite (bind_Ok _ _ _ _ _ Hr). cbv iota beta.
    destruct (Z.eqb_spec f n) as [Ef|Ef]; cbn [negb].
    { subst f. exists (Some (mi, ma)). split; [done|]. split; [split; [discriminate|intros E'; congruence]|]. intros i j E. by injection E as <- <-. }
    assert (Hf1 : f + 1 = n) by lia.
    destruct (lookup_lt_is_Some_2 l (Z.to_nat f)) as [x Hx]; [unfold n in *; lia|].
    destruct (first_min_lookup cmp l 0 f mi) as [m Hm]; [lia|unfold n in *; lia|done|].
    destruct (last_max_lookup cmp l 0 f ma) as [mx Hmx]; [lia|unfold n in *; lia|done|].
    assert (Hf0 : 0 <= f) by (destruct Hmi; lia).
    pose proof (merge_min cmp Hc l 0 f (f + 1) mi f m x Hmi (single_min cmp Hc l f x Hf0 Hx) Hm Hx) as Nmin.
    pose proof (merge_last_max cmp Hc l 0 f (f + 1) ma f mx x Hma
      (proj2 (single_max cmp Hc l f x Hf0 Hx)) Hmx Hx) as Nmax.
    rewrite Hf1 in Nmin, Nmax.
    rewrite (bind_Ok _ _ _ _ x) by (apply read_Ok; [lia|done]).
    rewrite (bind_Ok _ _ _ _ m) by (apply read_Ok; [destruct Hmi; lia|done]).
    destruct (Z.ltb_spec (cmp x m) 0) as [Hlt|Hge].
    + exists (Some (f, ma)). split; [done|]. split; [split; [discriminate|intros E'; congruence]|]. intros i j E. injection E as <- <-.
      split; [done|].
      assert (cmp m mx <= 0).
      { destruct Hmi as [Hb Hall]. apply (Hall ma m mx); [destruct Hma; lia|done|done]. }
      pose proof (lt_le_trans cmp Hc x m mx Hlt H).
      destruct (Z.geb_spec (cmp x mx) 0); [lia|done].
    + rewrite (bind_Ok _ _ _ _ mx) by (apply read_Ok; [destruct Hma; lia|done]).
      destruct (Z.geb_spec (cmp x mx) 0).
      * exists (Some (mi, f)). split; [done|]. split; [split; [discriminate|intros E'; congruence]|]. intros i j E. injection E as <- <-. done.
      * exists (Some (mi, ma)). split; [done|]. split; [split; [discriminate|intros E'; congruence]|]. intros i j E. injection E as <- <-. done.
Qed.

Lemma minmax_element_first_min_last_max_witness :
  minmax_element cmp_int 0 6 [3; 1; 4; 1; 5; 5] = Ok (Some (1, 5)) [3; 1; 4; 1; 5; 5] /\
  exists r, minmax_element cmp_int 0 (Z.of_nat (length [3; 1; 4; 1; 5; 5])) [3; 1; 4; 1; 5; 5] = Ok r [3; 1; 4; 1; 5; 5] /\
    (r = None <-> [3; 1; 4; 1; 5; 5] = []) /\
    forall i j, r = Some (i, j) ->
      first_min cmp_int [3; 1; 4; 1; 5; 5] 0 (Z.of_nat (length [3; 1; 4; 1; 5; 5])) i /\
      last_max cmp_int [3; 1; 4; 1; 5; 5] 0 (Z.of_nat (length [3; 1; 4; 1; 5; 5])) j.
Proof.
  split; [reflexivity|]. apply (minmax_element_first_min_last_max cmp_int cmp_int_swo).
Defined.

(** ** unique and unique_count *)

(** X19: for every comparator, over a whole array, [unique] moves to the
    front a subsequence [K] of the array that starts with its first
    element and in which no two neighbours compare equal (0), returns
    its length, and leaves the slots after it as they were;
    [unique_count] returns the same length and changes nothing.  On an
    empty array both return 0. *)
Theorem unique_layout {T} (cmp : T -> T -> Z) (l : list T) :
  exists K, K `sublist_of` l /\ head K = head l /\ Sorted (fun u v => cmp u v <> 0) K /\
    unique cmp 0 (Z.of_nat (length l)) l = Ok (Z.of_nat (length K)) (K ++ drop (length K) l) /\
    unique_count cmp 0 (Z.of_nat (length l)) l = Ok (Z.of_nat (length K)) l.
Proof.
  destruct l as [|x0 r].
  - exists []. repeat split; done.
  - exists (x0 :: unique_from cmp x0 r). destruct (unique_whole cmp x0 r) as [Hu Hc].
    split; [apply sublist_skip, unique_from_sublist|]. split; [done|].
    split; [apply unique_from_adjacent|]. done.
Qed.

(** X20: for a strict weak ordering, every element of the array is
    equivalent to one of the elements [K] that [unique] keeps at the
    front; on a non-decreasing array [K] is strictly increasing, so it
    holds exactly one element of each class of equivalent elements. *)
Theorem unique_classes {T} (cmp : T -> T -> Z) (Hc : strict_weak_order cmp) (l : list T) :
  exists K, unique cmp 0 (Z.of_nat (length l)) l = Ok (Z.of_nat (length K)) (K ++ drop (length K) l) /\
    (forall x, x ∈ l -> exists u, u ∈ K /\ cmp u x = 0) /\
    (Sorted (le cmp) l -> Sorted (fun u v => cmp u v < 0) K).
Proof.
  destruct l as [|x0 r].
  - exists []. split; [done|]. split; [intros x Hx; by apply elem_of_nil in Hx|done].
  - exists (x0 :: unique_from cmp x0 r). destruct (unique_whole cmp x0 r) as [Hu _].
    split; [done|]. split; [apply (unique_from_cover cmp Hc)|].
    apply (unique_from_increasing cmp Hc).
Qed.

Lemma unique_classes_witness :
  unique cmp_int 0 (Z.of_nat (length sorted_sample)) sorted_sample = Ok 4 [1; 3; 5; 8; 8] /\
  exists K, unique cmp_int 0 (Z.of_nat (length sorted_sample)) sorted_sample =
      Ok (Z.of_nat (length K)) (K ++ drop (length K) sorted_sample) /\
    (forall x, x ∈ sorted_sample -> exists u, u ∈ K /\ cmp_int u x = 0) /\
    (Sorted (le cmp_int) sorted_sample -> Sorted (fun u v => cmp_int u v < 0) K).
Proof.
  split; [reflexivity|]. apply (unique_classes cmp_int cmp_int_swo).
Defined.

(** X21: for any comparison, lexicographical_compare is negative exactly when the
    first range is lexicographically smaller than the second, and zero exactly
    when both ranges have the same length and are pairwise equivalent. *)
Theorem lexicographical_compare_neg_zero {T} (cmp : T -> T -> Z) (l1 l2 : list T) :
  (lexicographical_compare cmp l1 l2 < 0 <-> lex_lt cmp l1 l2) /\
  (lexicographical_compare cmp l1 l2 = 0 <-> Forall2 (fun x y => cmp x y = 0) l1 l2).
Proof. split; [apply lc_neg | apply lc_zero]. Qed.

(** X22: when the second range is at least as long as the first, equal never
    reads past it and returns true exactly when the first range is pairwise
    equivalent to the equally long prefix of the second. *)
Theorem equal_prefix {T} (cmp : T -> T -> Z) (l1 l2 : list T) :
  (length l1 <= length l2)%nat ->
  exists b, equal cmp l1 l2 = Some b /\
    (b = true <-> Forall2 (fun x y => cmp x y = 0) l1 (take (length l1) l2)).
Proof.
  intros Hl. rewrite (equal_lc cmp l1 l2 Hl).
  eexists. split; [reflexivity|]. rewrite Z.eqb_eq. apply lc_zero.
Qed.

Lemma equal_prefix_witness :
  (length [1; 2] <= length [1; 2; 7])%nat /\
  exists b, equal cmp_int [1; 2] [1; 2; 7] = Some b /\
    (b = true <-> Forall2 (fun x y => cmp_int x y = 0) [1; 2] (take (length [1; 2]) [1; 2; 7])).
Proof. split; [simpl; lia | apply (equal_prefix cmp_int [1; 2] [1; 2; 7]); simpl; lia]. Defined.

(** X23: for a strict weak order, swapping the two ranges negates the sign of
    lexicographical_compare, so it is positive exactly when the second range is
    lexicographically smaller than the first. *)
Theorem lexicographical_compare_antisym {T} (cmp : T -> T -> Z) (Hc : strict_weak_order cmp)
    (l1 l2 : list T) :
  Z.sgn (lexicographical_compare cmp l2 l1) = - Z.sgn (lexicographical_compare cmp l1 l2) /\
  (0 < lexicographical_compare cmp l1 l2 <-> lex_lt cmp l2 l1).
Proof.
  pose proof (lc_antisym cmp Hc l1 l2) as A. split; [done|].
  rewrite <- lc_neg.
  destruct (Z.compare_spec (lexicographical_compare cmp l1 l2) 0) as [E|E|E];
    destruct (Z.compare_spec (lexicographical_compare cmp l2 l1) 0) as [E'|E'|E'];
    try (apply Z.sgn_neg in E || apply Z.sgn_pos in E || apply Z.sgn_null in E);
    try (apply Z.sgn_neg in E' || apply Z.sgn_pos in E' || apply Z.sgn_null in E'); lia.
Qed.

Lemma lexicographical_compare_antisym_witness :
  strict_weak_order cmp_int /\
  Z.sgn (lexicographical_compare cmp_int [1; 2] [1; 3]) =
    - Z.sgn (lexicographical_compare cmp_int [1; 3] [1; 2]) /\
  (0 < lexicographical_compare cmp_int [1; 3] [1; 2] <-> lex_lt cmp_int [1; 2] [1; 3]).
Proof. split; [exact cmp_int_swo | apply (lexicographical_compare_antisym cmp_int cmp_int_swo)]. Defined.

(** ** Set operations *)

(** X24: for a strict weak ordering and two strictly increasing ranges,
    set_intersection writes exactly the elements of the first range that
    are equivalent to some element of the second, in their order; it
    writes nothing when either range is empty. *)
Theorem set_intersection_filter {T} (cmp : T -> T -> Z) (Hc : strict_weak_order cmp)
    (l1 l2 : list T) :
  Sorted (fun u v => cmp u v < 0) l1 -> Sorted (fun u v => cmp u v < 0) l2 ->
  set_intersection cmp l1 l2 = List.filter (mem_eqv cmp l2) l1.
Proof.
  intros H1 H2. apply (strict_StronglySorted cmp Hc) in H1, H2.
  destruct l1 as [|x1 r1]; [done|]. destruct l2 as [|x2 r2]; [by rewrite filter_mem_nil|].
  by apply (set_intersection_loop_filter cmp Hc).
Qed.

Lemma set_intersection_filter_witness :
  Sorted (fun u v => cmp_int u v < 0) [1; 3; 5; 7] /\ Sorted (fun u v => cmp_int u v < 0) [3; 4; 7] /\
  set_intersection cmp_int [1; 3; 5; 7] [3; 4; 7] = [3; 7] /\
  set_intersection cmp_int [1; 3; 5; 7] [3; 4; 7] = List.filter (mem_eqv cmp_int [3; 4; 7]) [1; 3; 5; 7].
Proof.
  assert (S1 : Sorted (fun u v => cmp_int u v < 0) [1; 3; 5; 7]) by (repeat constructor).
  assert (S2 : Sorted (fun u v => cmp_int u v < 0) [3; 4; 7]) by (repeat constructor).
  split; [exact S1|]. split; [exact S2|]. split; [reflexivity|].
  apply (set_intersection_filter cmp_int cmp_int_swo _ _ S1 S2).
Defined.

(** X25: for a strict weak ordering and two strictly increasing ranges,
    set_difference writes exactly the elements of the first range that
    are equivalent to no element of the second, in their order, as long
    as the second range is non-empty; with an empty second range it
    writes nothing at all, not a copy of the first range. *)
Theorem set_difference_filter {T} (cmp : T -> T -> Z) (Hc : strict_weak_order cmp)
    (l1 l2 : list T) :
  Sorted (fun u v => cmp u v < 0) l1 -> Sorted (fun u v => cmp u v < 0) l2 ->
  set_difference cmp l1 l2 =
    match l2 with
    | [] => []
    | _ => List.filter (fun x => negb (mem_eqv cmp l2 x)) l1
    end.
Proof.
  intros H1 H2. apply (strict_StronglySorted cmp Hc) in H1, H2.
  destruct l1 as [|x1 r1]; [by destruct l2|]. destruct l2 as [|x2 r2]; [done|].
  by apply (set_difference_loop_filter cmp Hc).
Qed.

Lemma set_difference_filter_witness :
  Sorted (fun u v => cmp_int u v < 0) [1; 3; 5; 7] /\ Sorted (fun u v => cmp_int u v < 0) [3; 4; 7] /\
  set_difference cmp_int [1; 3; 5; 7] [3; 4; 7] = [1; 5] /\
  set_difference cmp_int [1; 3; 5; 7] [3; 4; 7] =
    List.filter (fun x => negb (mem_eqv cmp_int [3; 4; 7] x)) [1; 3; 5; 7].
Proof.
  assert (S1 : Sorted (fun u v => cmp_int u v < 0) [1; 3; 5; 7]) by (repeat constructor).
  assert (S2 : Sorted (fun u v => cmp_int u v < 0) [3; 4; 7]) by (repeat constructor).
  split; [exact S1|]. split; [exact S2|]. split; [reflexivity|].
  apply (set_difference_filter cmp_int cmp_int_swo _ _ S1 S2).
Defined.

(** X26: for a strict weak ordering and two strictly increasing ranges,
    set_includes returns true exactly when every element of the first
    range is equivalent to some element of the second; an empty first
    range is always included. *)
Theorem set_includes_iff {T} (cmp : T -> T -> Z) (Hc : strict_weak_order cmp)
    (sub super : list T) :
  Sorted (fun u v => cmp u v < 0) sub -> Sorted (fun u v => cmp u v < 0) super ->
  (set_includes cmp sub super = true <-> forall x, x ∈ sub -> exists y, y ∈ super /\ cmp x y = 0).
Proof.
  intros H1 H2. apply (strict_StronglySorted cmp Hc) in H1, H2.
  assert (E : set_includes cmp sub super = forallb (mem_eqv cmp super) sub).
  { destruct sub; [done|]. by apply (set_includes_loop_forallb cmp Hc). }
  rewrite E, forallb_forall. unfold mem_eqv.
  split.
  - intros H x Hx. apply list_elem_of_In, H, existsb_exists in Hx as (y & Hy & Ey).
    exists y. split; [by apply list_elem_of_In|]. by apply Z.eqb_eq.
  - intros H x Hx. apply list_elem_of_In, H in Hx as (y & Hy & Ey).
    apply existsb_exists. exists y. split; [by apply list_elem_of_In|]. by apply Z.eqb_eq.
Qed.

Lemma set_includes_iff_witness :
  Sorted (fun u v => cmp_int u v < 0) [3; 7] /\ Sorted (fun u v => cmp_int u v < 0) [1; 3; 5; 7] /\
  set_includes cmp_int [3; 7] [1; 3; 5; 7] = true /\
  (set_includes cmp_int [3; 7] [1; 3; 5; 7] = true <->
   forall x, x ∈ [3; 7] -> exists y, y ∈ [1; 3; 5; 7] /\ cmp_int x y = 0).
Proof.
  assert (S1 : Sorted (fun u v => cmp_int u v < 0) [3; 7]) by (repeat constructor).
  assert (S2 : Sorted (fun u v => cmp_int u v < 0) [1; 3; 5; 7]) by (repeat constructor).
  split; [exact S1|]. split; [exact S2|]. split; [reflexivity|].
  apply (set_includes_iff cmp_int cmp_int_swo _ _ S1 S2).
Defined.

(** ** The stable insertion sort *)

(** X27: for a strict weak ordering, [insertion_sort_stable] over a whole
    array runs without fault and leaves a non-decreasing permutation of
    it in which the elements of every class of equivalent elements keep
    their original relative order. *)
Theorem insertion_sort_stable_sorts {T} (cmp : T -> T -> Z) (Hc : strict_weak_order cmp) (l : list T) :
  exists l', insertion_sort_stable cmp 0 (Z.of_nat (length l)) l = Ok tt l' /\
    l' ≡ₚ l /\ Sorted (le cmp) l' /\
    forall k, List.filter (fun y => Z.eqb (cmp k y) 0) l' = List.filter (fun y => Z.eqb (cmp k y) 0) l.
Proof.
  unfold insertion_sort_stable.
  destruct (Z.eqb_spec 0 (Z.of_nat (length l))) as [E|E].
  { exists l. split; [done|]. split; [done|]. split; [|done]. destruct l; [constructor|simpl in E; lia]. }
  destruct (Z.eqb_spec (0 + 1) (Z.of_nat (length l))) as [E1|E1].
  { exists l. split; [done|]. split; [done|]. split; [|done].
    destruct l as [|x [|y l]]; simpl in E1; [lia|repeat constructor|lia]. }
  destruct (min_element_first_min cmp Hc l) as (i & Hmin & Hfm); [by intros ->|].
  rewrite (bind_Ok _ _ _ _ i Hmin).
  destruct (first_min_lookup cmp l 0 (Z.of_nat (length l)) i) as [m Hm]; [lia|lia|done|].
  pose proof (take_drop_middle l (Z.to_nat i) m Hm) as Hsplit.
  set (A := take (Z.to_nat i) l) in Hsplit. set (B := drop (S (Z.to_nat i)) l) in Hsplit.
  destruct Hfm as [Hi Hfm].
  assert (HA : length A = Z.to_nat i) by (unfold A; rewrite length_take; lia).
  assert (HAlt : Forall (fun z => cmp m z < 0) A).
  { apply Forall_forall. intros z Hz. apply list_elem_of_lookup in Hz as [t Ht].
    pose proof (lookup_lt_Some _ _ _ Ht) as Htl. unfold A in Ht. rewrite lookup_take_lt in Ht by lia.
    apply (proj2 (Hfm (Z.of_nat t) m z ltac:(lia) Hm ltac:(by rewrite Nat2Z.id))). lia. }
  assert (Hlow : forall z, z ∈ l -> le cmp m z).
  { intros z Hz. apply list_elem_of_lookup in Hz as [t Ht]. pose proof (lookup_lt_Some _ _ _ Ht).
    apply (proj1 (Hfm (Z.of_nat t) m z ltac:(lia) Hm ltac:(by rewrite Nat2Z.id))). }
  replace (i + 1) with (Z.of_nat (length A) + 1) by lia.
  rewrite (bind_Ok _ _ l (m :: A ++ B) tt)
    by (rewrite <- Hsplit at 1; apply rotate_right_by_one_spec).
  assert (Hp : m :: A ++ B ≡ₚ l) by (rewrite <- Hsplit; apply Permutation_middle).
  assert (Hst : forall k, List.filter (fun y => Z.eqb (cmp k y) 0) (m :: A ++ B) =
                          List.filter (fun y => Z.eqb (cmp k y) 0) l).
  { intros k. rewrite <- Hsplit. rewrite app_comm_cons, filter_app_bool.
    rewrite (filter_class_move cmp Hc k m A HAlt), <- filter_app_bool. by rewrite <- app_assoc. }
  revert Hp Hst. generalize (A ++ B) as AB. intros AB Hp Hst.
  pose proof (Permutation_length Hp) as Hlen.
  destruct AB as [|x1 rest]; [simpl in Hlen; lia|].
  unfold _insertion_sort_unguarded.
  destruct (Z.eqb_spec (0 + 1) (Z.of_nat (length l))); [lia|].
  replace (Z.to_nat (Z.of_nat (length l) - (0 + 1 + 1))) with (length rest)
    by (simpl in Hlen; lia).
  change (m :: x1 :: rest) with ([m; x1] ++ rest).
  change (0 + 1 + 1) with (Z.of_nat (length [m; x1])).
  assert (Hin : forall z, z ∈ m :: x1 :: rest -> le cmp m z) by (intros z Hz; apply Hlow; by rewrite <- Hp).
  assert (Hs2 : Sorted (le cmp) [m; x1]).
  { repeat constructor. apply Hin. apply elem_of_cons. right. by left. }
  assert (Hf : Forall (fun z => 0 <= cmp z m) rest).
  { apply Forall_forall. intros z Hz. apply (ge_of_le cmp Hc). apply Hin.
    apply elem_of_cons. right. apply elem_of_cons. by right. }
  destruct (insertion_loop_spec cmp Hc rest [m; x1] m) as (s' & Hrun & Hperm & Hsort); [done|by left|done|].
  destruct (insertion_loop_stable cmp Hc rest [m; x1] m) as (s'' & Hrun' & Hstab); [done|by left|done|].
  rewrite Hrun in Hrun'. injection Hrun' as <-.
  exists s'. split; [exact Hrun|]. split; [by rewrite Hperm, <- Hp|]. split; [done|].
  intros k. by rewrite Hstab, <- Hst.
Qed.

Lemma insertion_sort_stable_sorts_witness :
  exists l', insertion_sort_stable cmp_key 0 (Z.of_nat (length [(1, 0); (1, 1); (0, 2)]))
      [(1, 0); (1, 1); (0, 2)] = Ok tt l' /\
    l' ≡ₚ [(1, 0); (1, 1); (0, 2)] /\ Sorted (le cmp_key) l' /\
    forall k, List.filter (fun y => Z.eqb (cmp_key k y) 0) l' =
              List.filter (fun y => Z.eqb (cmp_key k y) 0) [(1, 0); (1, 1); (0, 2)].
Proof. apply (insertion_sort_stable_sorts cmp_key cmp_key_swo). Defined.

(** ** unique_copy and random_shuffle *)

(** X28: for a strict weak ordering, [unique_copy] writes to [out]
    exactly the elements [K] that [unique] moves to the front of the
    range, and so returns [out + |K|]; on an empty range it writes
    nothing. *)
Theorem unique_copy_matches_unique {T} (cmp : T -> T -> Z) (Hc : strict_weak_order cmp) (l : list T) :
  exists K, unique cmp 0 (Z.of_nat (length l)) l = Ok (Z.of_nat (length K)) (K ++ drop (length K) l) /\
    unique_copy cmp l = K.
Proof.
  destruct l as [|x0 r]; [by exists []|].
  exists (x0 :: unique_from cmp x0 r). split; [apply (unique_whole cmp x0 r)|].
  unfold unique_copy. cbn [unique_copy_loop]. rewrite (cmp_refl cmp Hc x0). simpl.
  by rewrite unique_copy_loop_from.
Qed.

Lemma unique_copy_matches_unique_witness :
  unique_copy cmp_int sorted_sample = [1; 3; 5; 8] /\
  exists K, unique cmp_int 0 (Z.of_nat (length sorted_sample)) sorted_sample =
      Ok (Z.of_nat (length K)) (K ++ drop (length K) sorted_sample) /\
    unique_copy cmp_int sorted_sample = K.
Proof. split; [reflexivity|]. apply (unique_copy_matches_unique cmp_int cmp_int_swo). Defined.

(** X29: whatever values [rand()] returns, [random_shuffle] over a range
    [first, last) inside the array runs without fault and leaves a
    permutation of the array that differs from it only inside
    [first, last), every value there coming from the range. *)
Theorem random_shuffle_permutes {T} (rand : nat -> N) (first last : Z) (a : list T) :
  0 <= first <= last -> last <= Z.of_nat (length a) ->
  exists a', random_shuffle rand first last a = Ok tt a' /\ a' ≡ₚ a /\ seg_from a a' first last.
Proof.
  intros H1 H2. unfold random_shuffle, random_shuffle_n.
  destruct (random_shuffle_n_loop_spec rand (Z.to_nat (last - first)) 0 first (last - first) a)
    as (a' & Hr & Hp & Hg); [lia|lia|lia|].
  exists a'. split; [done|]. split; [done|]. by replace (first + (last - first)) with last in Hg by lia.
Qed.

Lemma random_shuffle_permutes_witness :
  0 <= 1 <= 5 /\ 5 <= Z.of_nat (length [1; 2; 3; 4; 5; 6]) /\
  exists a', random_shuffle (fun k => N.of_nat (7 * k + 3)) 1 5 [1; 2; 3; 4; 5; 6] = Ok tt a' /\
    a' ≡ₚ [1; 2; 3; 4; 5; 6] /\ seg_from [1; 2; 3; 4; 5; 6] a' 1 5.
Proof.
  split; [lia|]. split; [simpl; lia|].
  apply (random_shuffle_permutes (fun k => N.of_nat (7 * k + 3)) 1 5 [1; 2; 3; 4; 5; 6]); simpl; lia.
Defined.

(** ** sample *)

(** X30: whatever values [rand()] returns, [sample] with [count] at least
    the length of the input copies the whole input, in order, to the
    front of [out] and returns its length; with a smaller [count] it
    returns [count], and the first [count] slots of [out] then hold a
    sub-multiset of the input (no element is invented or used twice),
    the later slots being left as they were. *)
Theorem sample_copies_or_selects {T} (rand : nat -> N) (l out : list T) (count : Z) :
  0 <= count ->
  (Z.of_nat (length l) <= count -> (length l <= length out)%nat ->
     sample rand l count out = Ok (Z.of_nat (length l)) (l ++ drop (length l) out)) /\
  (count < Z.of_nat (length l) -> (Z.to_nat count <= length out)%nat ->
     exists R, sample rand l count out = Ok count (R ++ drop (Z.to_nat count) out) /\
       length R = Z.to_nat count /\ R ⊆+ l).
Proof.
  intros Hc. unfold sample.
  pose proof (sample_fill_spec (Z.to_nat count) [] out l) as Hf. simpl in Hf.
  split.
  - intros H1 H2. rewrite take_ge in Hf by lia. specialize (Hf H2).
    rewrite (bind_Ok _ _ _ _ _ Hf).
    destruct (Nat.ltb_spec (length l) (Z.to_nat count)) as [Hlt|Hge].
    + reflexivity.
    + rewrite drop_ge by lia. cbn [sample_reservoir].
      rewrite (bind_Ok _ _ _ _ tt) by done. f_equal. lia.
  - intros H1 H2. rewrite length_take_le in Hf by lia. specialize (Hf H2).
    rewrite (bind_Ok _ _ _ _ _ Hf).
    destruct (Nat.ltb_spec (length l) (Z.to_nat count)) as [Hlt|_]; [lia|].
    destruct (sample_reservoir_spec rand 0 (count + 1) count (take (Z.to_nat count) l)
                (drop (Z.to_nat count) out) (take (Z.to_nat count) l) (drop (Z.to_nat count) l))
      as (R & Hr & HL & HS); [rewrite length_take; lia|lia|done|].
    rewrite (bind_Ok _ _ _ _ tt Hr). exists R. split; [done|].
    rewrite HL, length_take. split; [lia|]. by rewrite take_drop in HS.
Qed.

Lemma sample_copies_or_selects_witness :
  0 <= 2 /\
  (exists R, sample (fun k => N.of_nat (5 * k + 1)) [10; 20; 30; 40] 2 [0; 0; 0] =
     Ok 2 (R ++ drop (Z.to_nat 2) [0; 0; 0]) /\ length R = Z.to_nat 2 /\ R ⊆+ [10; 20; 30; 40]) /\
  sample (fun k => N.of_nat k) [10; 20] 3 [0; 0; 0] = Ok 2 ([10; 20] ++ drop 2 [0; 0; 0]).
Proof.
  split; [lia|]. split.
  - apply (sample_copies_or_selects (fun k => N.of_nat (5 * k + 1)) [10; 20; 30; 40] [0; 0; 0] 2);
      simpl; lia.
  - apply (sample_copies_or_selects (fun k => N.of_nat k) [10; 20] [0; 0; 0] 3); simpl; lia.
Defined.
